(** * opentype.js: the Layout navigation engine and the GDEF table parser

    A shallow embedding of [layout.js] (the [Layout] class with its three
    binary searches) and of [tables/gdef.js] ([parseGDEFTable]), followed by
    the properties of the specification that are settled on it.

    Conventions of the embedding:
    - JavaScript numbers that are array indices or glyph ids are integers [Z];
      the one 32-bit operation of the source, [>>> 1], has its wrap-around
      written out ([ushr1]);
    - the table version of GDEF is a binary64 number ([float]);
    - tags are [string]s compared byte-wise ([String.ltb], [String.leb]), which
      is JavaScript's comparison of strings for the 4-byte tags of OpenType;
    - [undefined] is [None];
    - objects that the source mutates in place live in a store (the [tables] map of
      the font) and are referred to by their path in it. *)

From Stdlib Require Import ZArith String Ascii List Bool Lia Floats Uint63.
From stdpp Require Import base option list strings gmap.

Local Open Scope Z_scope.

(** ** JavaScript values and outcomes *)

Module JS.

(** What a call can throw. [TypeError]: a property read on [undefined].
    [RangeError]: a read outside of a buffer. [Error msg]:
    [throw new Error(msg)]. *)
Inductive exn : Type :=
| TypeError
| RangeError
| Error (msg : string).

(** Outcome of a side-effect free computation. [OutOfFuel] is the
    verdict of a loop model that was given too little fuel. *)
Inductive res (A : Type) : Type :=
| Ok (a : A)
| Throw (e : exn)
| OutOfFuel.
Arguments Ok {A} a.
Arguments Throw {A} e.
Arguments OutOfFuel {A}.

Definition bind {A B} (m : res A) (k : A -> res B) : res B :=
  match m with
  | Ok a => k a
  | Throw e => Throw e
  | OutOfFuel => OutOfFuel
  end.

(** [n >>> 1]: [n] is taken modulo 2^32, then shifted. *)
Definition ushr1 (n : Z) : Z := Z.shiftr (n mod 2 ^ 32) 1.

(** [arr[i]] for a number [i]: [undefined] outside of the array. *)
Definition item {A} (arr : list A) (i : Z) : option A :=
  if i <? 0 then None else arr !! Z.to_nat i.

(** [arr.length] *)
Definition len {A} (arr : list A) : Z := Z.of_nat (length arr).

(** [arr.splice(start, 0, x)]: a negative [start] counts from the end, and
    [start] is clamped to the array. [splice_pos] is where [x] lands. *)
Definition splice_pos {A} (arr : list A) (start : Z) : Z :=
  if start <? 0 then Z.max (len arr + start) 0 else Z.min start (len arr).

Definition splice_insert {A} (arr : list A) (start : Z) (x : A) : list A :=
  let k := Z.to_nat (splice_pos arr start) in
  take k arr ++ x :: drop k arr.

(** [arr.push(x)] *)
Definition push {A} (arr : list A) (x : A) : list A := arr ++ [x].

End JS.
Export JS.

#[global] Instance res_ret : MRet res := @Ok.
#[global] Instance res_bind : MBind res := fun A B k m => JS.bind m k.
#[global] Instance res_fmap : FMap res := fun A B f m => JS.bind m (fun a => Ok (f a)).

(** ** The three binary searches of layout.js *)

(** Records that carry a [tag] (script records, langSys records, feature
    records) and records that carry [start] and [end] (the ranges of Coverage
    and ClassDef tables). *)
Class Tagged (R : Type) := tag : R -> string.
Class Ranged (R : Type) := { start : R -> Z; end_ : R -> Z }.

Module Searches.

(** The [while] loop of [searchTag]. *)
Fixpoint searchTag_loop {R} `{Tagged R} (fuel : nat) (arr : list R)
    (tg : string) (iMin iMax : Z) : res Z :=
  match fuel with
  | O => OutOfFuel
  | S fuel' =>
    if iMin <=? iMax then
      let iMid := ushr1 (iMin + iMax) in
      match item arr iMid with
      | None => Throw TypeError
      | Some r =>
        let val := tag r in
        if String.eqb val tg then Ok iMid
        else if String.ltb val tg then searchTag_loop fuel' arr tg (iMid + 1) iMax
        else searchTag_loop fuel' arr tg iMin (iMid - 1)
      end
    else
      (* Not found: return -1-insertion point *)
      Ok (- iMin - 1)
  end.

Definition searchTag {R} `{Tagged R} (arr : list R) (tg : string) : res Z :=
  searchTag_loop (S (length arr)) arr tg 0 (len arr - 1).

(** The [while] loop of [binSearch]. *)
Fixpoint binSearch_loop (fuel : nat) (arr : list Z) (value : Z)
    (iMin iMax : Z) : res Z :=
  match fuel with
  | O => OutOfFuel
  | S fuel' =>
    if iMin <=? iMax then
      let iMid := ushr1 (iMin + iMax) in
      match item arr iMid with
      | None =>
        (* [undefined === value] and [undefined < value] are both false *)
        binSearch_loop fuel' arr value iMin (iMid - 1)
      | Some val =>
        if val =? value then Ok iMid
        else if val <? value then binSearch_loop fuel' arr value (iMid + 1) iMax
        else binSearch_loop fuel' arr value iMin (iMid - 1)
      end
    else Ok (- iMin - 1)
  end.

Definition binSearch (arr : list Z) (value : Z) : res Z :=
  binSearch_loop (S (length arr)) arr value 0 (len arr - 1).

(** What [searchRange] returns: a range, the number [0], or nothing at
    all ([undefined]) when it falls off its end. *)
Inductive found (R : Type) : Type :=
| Range (r : R)
| Zero
| Nothing.
Arguments Range {R} r.
Arguments Zero {R}.
Arguments Nothing {R}.

(** The [while] loop of [searchRange]: the range it returns from inside
    the loop, or the value of [iMin] it leaves the loop with. *)
Fixpoint searchRange_loop {R} `{Ranged R} (fuel : nat) (ranges : list R)
    (value : Z) (iMin iMax : Z) : res (R + Z) :=
  match fuel with
  | O => OutOfFuel
  | S fuel' =>
    if iMin <=? iMax then
      let iMid := ushr1 (iMin + iMax) in
      match item ranges iMid with
      | None => Throw TypeError
      | Some range =>
        if start range =? value then Ok (inl range)
        else if start range <? value
             then searchRange_loop fuel' ranges value (iMid + 1) iMax
        else searchRange_loop fuel' ranges value iMin (iMid - 1)
      end
    else Ok (inr iMin)
  end.

Definition searchRange {R} `{Ranged R} (ranges : list R) (value : Z)
    : res (found R) :=
  out ← searchRange_loop (S (length ranges)) ranges value 0 (len ranges - 1);
  match out with
  | inl range => Ok (Range range)
  | inr iMin =>
    if iMin >? 0 then
      match item ranges (iMin - 1) with
      | None => Throw TypeError
      | Some range => if value >? end_ range then Ok Zero else Ok (Range range)
      end
    else Ok Nothing
  end.

End Searches.
Export Searches.

(** ** The classification queries of the Layout class *)

Module Coverage.
(** A range record of a format-2 Coverage table. *)
Record RangeRecord : Type :=
  { rr_start : Z; rr_end : Z; index : Z }.
#[global] Instance RangeRecord_ranged : Ranged RangeRecord :=
  {| start := rr_start; end_ := rr_end |}.

(** A Coverage table as the queries read it: [format] selects which of
    [glyphs] (format 1) and [ranges] (format 2) is looked at. *)
Record t : Type :=
  { format : Z; glyphs : list Z; ranges : list RangeRecord }.
End Coverage.

Module ClassDef.
(** A range record of a format-2 ClassDef table. *)
Record RangeRecord : Type :=
  { rr_start : Z; rr_end : Z; classId : Z }.
#[global] Instance RangeRecord_ranged : Ranged RangeRecord :=
  {| start := rr_start; end_ := rr_end |}.

Record t : Type :=
  { format : Z; startGlyph : Z; classes : list Z; ranges : list RangeRecord }.
End ClassDef.

Module Classify.

(** [Layout.prototype.getGlyphClass]. The [switch] has no default
    branch: the result is [undefined] ([None]) when neither case is taken. *)
Definition getGlyphClass (classDefTable : ClassDef.t) (glyphIndex : Z)
    : res (option Z) :=
  if ClassDef.format classDefTable =? 1 then
    if (ClassDef.startGlyph classDefTable <=? glyphIndex)
       && (glyphIndex <? ClassDef.startGlyph classDefTable
                         + len (ClassDef.classes classDefTable))
    then Ok (item (ClassDef.classes classDefTable)
                  (glyphIndex - ClassDef.startGlyph classDefTable))
    else Ok (Some 0)
  else if ClassDef.format classDefTable =? 2 then
    range ← searchRange (ClassDef.ranges classDefTable) glyphIndex;
    match range with
    | Range r => Ok (Some (ClassDef.classId r))
    | Zero | Nothing => Ok (Some 0)
    end
  else Ok None.

(** [Layout.prototype.getCoverageIndex] *)
Definition getCoverageIndex (coverageTable : Coverage.t) (glyphIndex : Z)
    : res (option Z) :=
  if Coverage.format coverageTable =? 1 then
    index ← binSearch (Coverage.glyphs coverageTable) glyphIndex;
    Ok (Some (if index >=? 0 then index else -1))
  else if Coverage.format coverageTable =? 2 then
    range ← searchRange (Coverage.ranges coverageTable) glyphIndex;
    match range with
    | Range r => Ok (Some (Coverage.index r + glyphIndex - start r))
    | Zero | Nothing => Ok (Some (-1))
    end
  else Ok None.

(** The inner loop of [expandCoverage]:
    [for (let j = start; j <= end; j++) glyphs.push(j)], which runs
    [end - start + 1] times when that is positive and not at all
    otherwise. *)
Fixpoint push_from (j : Z) (n : nat) (glyphs : list Z) : list Z :=
  match n with
  | O => glyphs
  | S n' => push_from (j + 1) n' (push glyphs j)
  end.

Definition push_range (glyphs : list Z) (range : Coverage.RangeRecord) : list Z :=
  push_from (start range) (Z.to_nat (end_ range - start range + 1)) glyphs.

(** [Layout.prototype.expandCoverage]: every format other than 1 is read
    as a list of ranges. *)
Definition expandCoverage (coverageTable : Coverage.t) : list Z :=
  if Coverage.format coverageTable =? 1 then Coverage.glyphs coverageTable
  else fold_left push_range (Coverage.ranges coverageTable) [].

End Classify.
Export Classify.

(** ** The Script / LangSys / Feature / Lookup graph *)

Module Graph.

Record LangSys : Type :=
  { reserved : Z; reqFeatureIndex : Z; featureIndexes : list Z }.

Record LangSysRecord : Type :=
  { lsr_tag : string; langSys : LangSys }.
#[global] Instance LangSysRecord_tagged : Tagged LangSysRecord := lsr_tag.

Record Script : Type :=
  { defaultLangSys : LangSys; langSysRecords : list LangSysRecord }.

Record ScriptRecord : Type :=
  { sr_tag : string; script : Script }.
#[global] Instance ScriptRecord_tagged : Tagged ScriptRecord := sr_tag.

Record Feature : Type :=
  { params : Z; lookupListIndexes : list Z }.

Record FeatureRecord : Type :=
  { fr_tag : string; feature : Feature }.
#[global] Instance FeatureRecord_tagged : Tagged FeatureRecord := fr_tag.

(** A lookup table; the engine never looks into its subtables, whose type
    is left open. *)
Record Lookup (Subtable : Type) : Type :=
  { lookupType : Z;
    lookupFlag : Z;
    subtables : list Subtable;
    markFilteringSet : option Z }.
Arguments lookupType {Subtable} _.
Arguments lookupFlag {Subtable} _.
Arguments subtables {Subtable} _.
Arguments markFilteringSet {Subtable} _.

(** A layout table (GSUB, GPOS), as far as the engine reads it. *)
Record Table (Subtable : Type) : Type :=
  { scripts : list ScriptRecord;
    features : list FeatureRecord;
    lookups : list (Lookup Subtable) }.
Arguments scripts {Subtable} _.
Arguments features {Subtable} _.
Arguments lookups {Subtable} _.

(** The objects the engine hands out are parts of the table it manages;
    a reference is the path of the part in that table. *)
Definition ScriptRef : Type := Z.
Inductive LangSysRef : Type :=
| DefaultLangSysOf (s : ScriptRef)
| LangSysOf (s : ScriptRef) (i : Z).
Definition FeatureRef : Type := Z.
Definition LookupRef : Type := Z.

End Graph.
Export Graph.

(** ** The Layout class *)

Module Layout.
Section Engine.

(** The type of subtables, and [createDefaultTable], which the classes
    that extend Layout provide. *)
Variable Subtable : Type.
Variable createDefaultTable : Table Subtable.

(** The font, as far as the engine reads it: its [tables], by name. *)
Record Font : Type := { tables : gmap string (Table Subtable) }.

(** A Layout object: the name of the table it manages (its font is the
    state the methods run in). *)
Record t : Type := { tableName : string }.

(** A method runs in a font, which it may change, also when it throws. *)
Definition M (A : Type) : Type := Font -> res A * Font.

#[global] Instance M_ret : MRet M := fun A a font => (Ok a, font).
#[global] Instance M_bind : MBind M := fun A B k m font =>
  match m font with
  | (Ok a, font') => k a font'
  | (Throw e, font') => (Throw e, font')
  | (OutOfFuel, font') => (OutOfFuel, font')
  end.

Definition throw {A} (e : exn) : M A := fun font => (Throw e, font).
Definition lift {A} (r : res A) : M A := fun font => (r, font).

(** [this.font.tables[this.tableName]], read as an object: a property
    read on it throws when it is [undefined]. *)
Definition the_table (this : t) : M (Table Subtable) := fun font =>
  match tables font !! tableName this with
  | Some layout => (Ok layout, font)
  | None => (Throw TypeError, font)
  end.

(** An update in place of the table. *)
Definition update_table (this : t) (f : Table Subtable -> Table Subtable)
    : M unit := fun font =>
  (Ok tt, {| tables := alter f (tableName this) (tables font) |}).

(** Modelled from the spec: [check.assert] of check.js, which is not
    among the sources: a contract that does not hold fails loudly, with the
    message given. *)
Definition check_assert (predicate : bool) (message : string) : M unit :=
  if predicate then mret tt else throw (Error message).

(** Updates in place of the parts of a table. *)
Definition set_scripts (f : list ScriptRecord -> list ScriptRecord)
    (layout : Table Subtable) : Table Subtable :=
  {| scripts := f (scripts layout);
     features := features layout;
     lookups := lookups layout |}.

Definition set_features (f : list FeatureRecord -> list FeatureRecord)
    (layout : Table Subtable) : Table Subtable :=
  {| scripts := scripts layout;
     features := f (features layout);
     lookups := lookups layout |}.

Definition set_lookups (f : list (Lookup Subtable) -> list (Lookup Subtable))
    (layout : Table Subtable) : Table Subtable :=
  {| scripts := scripts layout;
     features := features layout;
     lookups := f (lookups layout) |}.

Definition alter_at {A} (i : Z) (f : A -> A) (arr : list A) : list A :=
  if i <? 0 then arr else alter f (Z.to_nat i) arr.

Definition at_script (s : ScriptRef) (f : Script -> Script)
    (layout : Table Subtable) : Table Subtable :=
  set_scripts (alter_at s (fun r => {| sr_tag := sr_tag r; script := f (script r) |}))
              layout.

Definition set_langSysRecords (f : list LangSysRecord -> list LangSysRecord)
    (sc : Script) : Script :=
  {| defaultLangSys := defaultLangSys sc;
     langSysRecords := f (langSysRecords sc) |}.

Definition at_langSys (l : LangSysRef) (f : LangSys -> LangSys)
    (layout : Table Subtable) : Table Subtable :=
  match l with
  | DefaultLangSysOf s =>
    at_script s (fun sc => {| defaultLangSys := f (defaultLangSys sc);
                              langSysRecords := langSysRecords sc |}) layout
  | LangSysOf s i =>
    at_script s (set_langSysRecords
      (alter_at i (fun r => {| lsr_tag := lsr_tag r; langSys := f (langSys r) |})))
      layout
  end.

Definition at_feature (i : FeatureRef) (f : Feature -> Feature)
    (layout : Table Subtable) : Table Subtable :=
  set_features (alter_at i (fun r => {| fr_tag := fr_tag r; feature := f (feature r) |}))
               layout.

(** Reading the object behind a reference. *)
Definition script_at (layout : Table Subtable) (s : ScriptRef) : option Script :=
  script <$> item (scripts layout) s.

Definition langSys_at (layout : Table Subtable) (l : LangSysRef)
    : option LangSys :=
  match l with
  | DefaultLangSysOf s => defaultLangSys <$> script_at layout s
  | LangSysOf s i =>
    sc ← script_at layout s; langSys <$> item (langSysRecords sc) i
  end.

Definition feature_at (layout : Table Subtable) (i : FeatureRef)
    : option Feature :=
  feature <$> item (features layout) i.

Definition deref {A} (o : option A) : M A :=
  match o with
  | Some a => mret a
  | None => throw TypeError
  end.

(** *** The methods *)

(** [getTable(create)]. The table returned is the one that stands in
    the font under [tableName]; the callers change it there. *)
Definition getTable (this : t) (create : bool) : M (option (Table Subtable)) :=
  fun font =>
    match tables font !! tableName this with
    | Some layout => (Ok (Some layout), font)
    | None =>
      if create
      then (Ok (Some createDefaultTable),
            {| tables := <[tableName this := createDefaultTable]> (tables font) |})
      else (Ok None, font)
    end.

(** [getScriptNames()] *)
Definition getScriptNames (this : t) : M (list string) :=
  layout ← getTable this false;
  match layout with
  | None => mret []
  | Some layout => mret (map tag (scripts layout))
  end.

(** The loop of [getDefaultScriptName] and what follows it. *)
Fixpoint getDefaultScriptName_loop (scripts : list ScriptRecord)
    (hasLatn : bool) : option string :=
  match scripts with
  | [] => if hasLatn then Some "latn"%string else None
  | r :: rest =>
    let name := tag r in
    if String.eqb name "DFLT" then Some name
    else getDefaultScriptName_loop rest
           (if String.eqb name "latn" then true else hasLatn)
  end.

(** [getDefaultScriptName()] *)
Definition getDefaultScriptName (this : t) : M (option string) :=
  layout ← getTable this false;
  match layout with
  | None => mret None
  | Some layout => mret (getDefaultScriptName_loop (scripts layout) false)
  end.

Definition new_langSys : LangSys :=
  {| reserved := 0; reqFeatureIndex := 0xffff; featureIndexes := [] |}.

(** [getScriptTable(script, create)]. The defaults of the source
    (['DFLT'] for [script], [false] for [create], and ['dflt'] for [language]
    below) are what a caller passes who leaves the argument out. *)
Definition getScriptTable (this : t) (script : string) (create : bool)
    : M (option ScriptRef) :=
  layout ← getTable this create;
  match layout with
  | Some layout =>
    let scripts := scripts layout in
    pos ← lift (searchTag scripts script);
    if pos >=? 0 then
      _ ← deref (item scripts pos);
      mret (Some pos)
    else if create then
      let scr := {| sr_tag := script;
                    script := {| defaultLangSys := new_langSys;
                                 langSysRecords := [] |} |} in
      _ ← update_table this
            (set_scripts (fun scripts => splice_insert scripts (-1 - pos) scr));
      mret (Some (splice_pos scripts (-1 - pos)))
    else mret None
  | None => mret None
  end.

(** [getLangSysTable(script, language, create)] *)
Definition getLangSysTable (this : t) (script language : string)
    (create : bool) : M (option LangSysRef) :=
  scriptTable ← getScriptTable this script create;
  match scriptTable with
  | Some s =>
    if String.eqb language "dflt" || String.eqb language "DFLT" then
      mret (Some (DefaultLangSysOf s))
    else
      layout ← the_table this;
      scriptTable ← deref (script_at layout s);
      pos ← lift (searchTag (langSysRecords scriptTable) language);
      if pos >=? 0 then
        _ ← deref (item (langSysRecords scriptTable) pos);
        mret (Some (LangSysOf s pos))
      else if create then
        let langSysRecord := {| lsr_tag := language; langSys := new_langSys |} in
        _ ← update_table this
              (at_script s (set_langSysRecords
                 (fun records => splice_insert records (-1 - pos) langSysRecord)));
        mret (Some (LangSysOf s (splice_pos (langSysRecords scriptTable) (-1 - pos))))
      else mret None
  | None => mret None
  end.

(** The scan of [getFeatureTable] over the feature indexes of the
    language system. *)
Fixpoint findFeature (allFeatures : list FeatureRecord) (featIndexes : list Z)
    (feature : string) : res (option FeatureRef) :=
  match featIndexes with
  | [] => Ok None
  | i :: rest =>
    match item allFeatures i with
    | None => Throw TypeError
    | Some featureRecord =>
      if String.eqb (tag featureRecord) feature then Ok (Some i)
      else findFeature allFeatures rest feature
    end
  end.

(** The condition [check.assert] is called on in [getFeatureTable]. *)
Definition alphabetical (allFeatures : list FeatureRecord) (feature : string)
    : res bool :=
  let index := len allFeatures in
  if index =? 0 then Ok true
  else match item allFeatures (index - 1) with
       | None => Throw TypeError
       | Some last => Ok (negb (String.ltb feature (tag last)))
       end.

(** [getFeatureTable(script, language, feature, create)] *)
Definition getFeatureTable (this : t) (script language feature : string)
    (create : bool) : M (option FeatureRef) :=
  langSysTable ← getLangSysTable this script language create;
  match langSysTable with
  | Some l =>
    layout ← the_table this;
    langSysTable ← deref (langSys_at layout l);
    let featIndexes := featureIndexes langSysTable in
    let allFeatures := features layout in
    found ← lift (findFeature allFeatures featIndexes feature);
    match found with
    | Some i => mret (Some i)
    | None =>
      if create then
        let index := len allFeatures in
        ordered ← lift (alphabetical allFeatures feature);
        _ ← check_assert ordered "Features must be added in alphabetical order.";
        let featureRecord :=
          {| fr_tag := feature;
             feature := {| params := 0; lookupListIndexes := [] |} |} in
        _ ← update_table this (set_features (fun fs => push fs featureRecord));
        _ ← update_table this
              (at_langSys l (fun ls =>
                 {| reserved := reserved ls;
                    reqFeatureIndex := reqFeatureIndex ls;
                    featureIndexes := push (featureIndexes ls) index |}));
        mret (Some index)
      else mret None
    end
  | None => mret None
  end.

(** The scan of [getLookupTables] over the lookup indexes of the
    feature: the lookups of the type asked for, in the order met. *)
Fixpoint collectLookups (allLookups : list (Lookup Subtable))
    (lookupListIndexes : list Z) (type : Z) (tables : list LookupRef)
    : res (list LookupRef) :=
  match lookupListIndexes with
  | [] => Ok tables
  | i :: rest =>
    match item allLookups i with
    | None => Throw TypeError
    | Some lookupTable =>
      collectLookups allLookups rest type
        (if lookupType lookupTable =? type then push tables i else tables)
    end
  end.

(** [getLookupTables(script, language, feature, lookupType, create)]:
    the array returned holds references to lookups of the table. *)
Definition getLookupTables (this : t) (script language feature : string)
    (type : Z) (create : bool) : M (list LookupRef) :=
  featureTable ← getFeatureTable this script language feature create;
  match featureTable with
  | Some f =>
    layout ← the_table this;
    featureTable ← deref (feature_at layout f);
    let lookupListIndexes := lookupListIndexes featureTable in
    let allLookups := lookups layout in
    tables ← lift (collectLookups allLookups lookupListIndexes type []);
    if (len tables =? 0) && create then
      let lookupTable :=
        {| lookupType := type;
           lookupFlag := 0;
           subtables := [];
           markFilteringSet := None |} in
      let index := len allLookups in
      _ ← update_table this (set_lookups (fun ls => push ls lookupTable));
      _ ← update_table this
            (at_feature f (fun ft =>
               {| params := params ft;
                  lookupListIndexes := push (Graph.lookupListIndexes ft) index |}));
      mret [index]
    else mret tables
  | None => mret []
  end.

(** *** The operations of the engine, as one type

    [run] performs a call and forgets what it returns. *)
Inductive call : Type :=
| GetTable (create : bool)
| GetScriptNames
| GetDefaultScriptName
| GetScriptTable (script : string) (create : bool)
| GetLangSysTable (script language : string) (create : bool)
| GetFeatureTable (script language feature : string) (create : bool)
| GetLookupTables (script language feature : string) (type : Z) (create : bool)
| GetGlyphClass (classDefTable : ClassDef.t) (glyphIndex : Z)
| GetCoverageIndex (coverageTable : Coverage.t) (glyphIndex : Z)
| ExpandCoverage (coverageTable : Coverage.t).

Definition forget {A} (m : M A) : M unit := _ ← m; mret tt.

Definition run (this : t) (c : call) : M unit :=
  match c with
  | GetTable create => forget (getTable this create)
  | GetScriptNames => forget (getScriptNames this)
  | GetDefaultScriptName => forget (getDefaultScriptName this)
  | GetScriptTable script create => forget (getScriptTable this script create)
  | GetLangSysTable script language create =>
    forget (getLangSysTable this script language create)
  | GetFeatureTable script language feature create =>
    forget (getFeatureTable this script language feature create)
  | GetLookupTables script language feature type create =>
    forget (getLookupTables this script language feature type create)
  | GetGlyphClass classDefTable glyphIndex =>
    forget (lift (getGlyphClass classDefTable glyphIndex))
  | GetCoverageIndex coverageTable glyphIndex =>
    forget (lift (getCoverageIndex coverageTable glyphIndex))
  | ExpandCoverage coverageTable => forget (mret (expandCoverage coverageTable))
  end.

End Engine.

Arguments Font : clear implicits.
Arguments tables {Subtable} _.
Arguments M : clear implicits.
Arguments throw {Subtable A} e.
Arguments lift {Subtable A} r.
Arguments deref {Subtable A} o.
Arguments the_table {Subtable} this.
Arguments update_table {Subtable} this f.
Arguments check_assert {Subtable} predicate message.
Arguments set_scripts {Subtable} f layout.
Arguments set_features {Subtable} f layout.
Arguments set_lookups {Subtable} f layout.
Arguments at_script {Subtable} s f layout.
Arguments at_langSys {Subtable} l f layout.
Arguments at_feature {Subtable} i f layout.
Arguments script_at {Subtable} layout s.
Arguments langSys_at {Subtable} layout l.
Arguments feature_at {Subtable} layout i.
Arguments getTable {Subtable} createDefaultTable this create.
Arguments getScriptNames {Subtable} createDefaultTable this.
Arguments getDefaultScriptName {Subtable} createDefaultTable this.
Arguments getScriptTable {Subtable} createDefaultTable this script create.
Arguments getLangSysTable {Subtable} createDefaultTable this script language create.
Arguments getFeatureTable {Subtable} createDefaultTable this script language feature create.
Arguments collectLookups {Subtable} allLookups lookupListIndexes type tables.
Arguments getLookupTables {Subtable} createDefaultTable this script language feature type create.
Arguments forget {Subtable A} m.
Arguments run {Subtable} createDefaultTable this c.

End Layout.

(** ** The binary structure decoder (parse.js) *)

Module Parser.

(** Modelled from the spec: the state of the decoder of parse.js, which
    is not among the sources: the buffer, the position recorded at entry
    to the structure being decoded ([offset], the base of its pointers), and
    the distance of the cursor from it ([relativeOffset]). *)
Record t : Type :=
  { data : list Byte.byte; offset : Z; relativeOffset : Z }.

(** Modelled from the spec: a decoder (a method of the Parser of
    parse.js) reads at the cursor and moves it, or fails. *)
Definition Decoder (A : Type) : Type := t -> res (A * t).

#[global] Instance Decoder_ret : MRet Decoder := fun A a p => Ok (a, p).
#[global] Instance Decoder_bind : MBind Decoder := fun A B k m p =>
  match m p with
  | Ok (a, p') => k a p'
  | Throw e => Throw e
  | OutOfFuel => OutOfFuel
  end.

(** Modelled from the spec: the fail-fast policy of the decoder: a
    failure aborts the parse of the enclosing table. *)
Definition fail {A} (e : exn) : Decoder A := fun _ => Throw e.

(** Modelled from the spec: [check.argument] of check.js, which is not
    among the sources: an unsupported discriminant or version aborts the
    parse. *)
Definition check_argument (predicate : bool) (message : string) : Decoder unit :=
  if predicate then mret tt else fail (Error message).

(** Modelled from the spec: [new Parser(data, offset)] of parse.js: a
    cursor at the start of a structure. *)
Definition new (data : list Byte.byte) (offset : Z) : t :=
  {| data := data; offset := offset; relativeOffset := 0 |}.

(** Modelled from the spec: the byte of the buffer at an absolute
    position. *)
Definition byte_at (data : list Byte.byte) (i : Z) : option Z :=
  (fun b => Z.of_N (Byte.to_N b)) <$> item data i.

(** Modelled from the spec: a 16-bit big-endian field at an absolute
    position; a read that leaves the buffer fails. *)
Definition getUShort (data : list Byte.byte) (i : Z) : res Z :=
  match byte_at data i, byte_at data (i + 1) with
  | Some hi, Some lo => Ok (hi * 256 + lo)
  | _, _ => Throw RangeError
  end.

(** Modelled from the spec: every read advances the cursor by the width
    of the field. *)
Definition advance (n : Z) (p : t) : t :=
  {| data := data p; offset := offset p; relativeOffset := relativeOffset p + n |}.

(** Modelled from the spec: [readUint16]: read at the cursor, advance by
    the width of the field. *)
Definition parseUShort : Decoder Z := fun p =>
  v ← getUShort (data p) (offset p + relativeOffset p);
  Ok (v, advance 2 p).

(** Modelled from the spec: [readInt16], the same field read as a signed
    number. *)
Definition parseShort : Decoder Z := fun p =>
  v ← getUShort (data p) (offset p + relativeOffset p);
  Ok (if v <? 2 ^ 15 then v else v - 2 ^ 16, advance 2 p).

(** Modelled from the spec: a 16-bit field as a JavaScript number. *)
Definition number (z : Z) : float := PrimFloat.of_uint63 (Uint63.of_Z z).

(** Modelled from the spec: [readVersion16Dot16], which composes a
    16-bit major and a 16-bit minor, read as a fraction, into a number that
    can be compared. The argument is the unit of the minor field: with the
    unit 0x1000, major 1 and minor 0x2000 make 1.2; gdef.js passes the
    unit 1, for which major 1 and minor 2 make 1.2. *)
Definition parseVersion (minorBase : float) : Decoder float := fun p =>
  major ← getUShort (data p) (offset p + relativeOffset p);
  minor ← getUShort (data p) (offset p + relativeOffset p + 2);
  Ok ((number major + number minor / minorBase / 10)%float, advance 4 p).

(** Modelled from the spec: [readPointer]: a 16-bit offset; zero is the
    null pointer and decodes to absent ([None]) without a call of the
    sub-decoder; otherwise the sub-decoder runs at [base + offset], where
    base is the position recorded at entry to the enclosing structure, and
    the cursor is left just past the offset field. *)
Definition parsePointer {A} (description : Decoder A) : Decoder (option A) :=
  fun p =>
    match parseUShort p with
    | Ok (structOffset, p') =>
      if structOffset =? 0 then Ok (None, p')
      else
        match description (new (data p) (offset p + structOffset)) with
        | Ok (v, _) => Ok (Some v, p')
        | Throw e => Throw e
        | OutOfFuel => OutOfFuel
        end
    | Throw e => Throw e
    | OutOfFuel => OutOfFuel
    end.

(** Modelled from the spec: [Parser.pointer(description)] of parse.js:
    the decoder of a pointer field, as an element decoder. *)
Definition pointer {A} (description : Decoder A) : Decoder (option A) :=
  parsePointer description.

(** Modelled from the spec: the loop of [readList]: [count] elements in
    sequence. *)
Fixpoint parseItems {A} (count : nat) (itemCallback : Decoder A)
    : Decoder (list A) :=
  match count with
  | O => mret []
  | S count' =>
    x ← itemCallback;
    rest ← parseItems count' itemCallback;
    mret (x :: rest)
  end.

(** Modelled from the spec: [readList]: a 16-bit count, then that many
    elements, each by the element decoder, in the order stored. *)
Definition parseList {A} (itemCallback : Decoder A) : Decoder (list A) :=
  count ← parseUShort;
  parseItems (Z.to_nat count) itemCallback.

(** Modelled from the spec: [Parser.uShortList] of parse.js: a list of
    16-bit numbers. *)
Definition uShortList : Decoder (list Z) := parseList parseUShort.

(** Modelled from the spec: [parseCoverage]: a format discriminant, 1
    or 2; format 1 is a list of glyph ids, format 2 a list of
    [{start, end, index}] range records; any other format fails. *)
Definition coverage : Decoder Coverage.t :=
  format ← parseUShort;
  if format =? 1 then
    glyphs ← parseList parseUShort;
    mret {| Coverage.format := 1; Coverage.glyphs := glyphs; Coverage.ranges := [] |}
  else if format =? 2 then
    ranges ← parseList
      (s ← parseUShort; e ← parseUShort; i ← parseUShort;
       mret {| Coverage.rr_start := s; Coverage.rr_end := e; Coverage.index := i |});
    mret {| Coverage.format := 2; Coverage.glyphs := []; Coverage.ranges := ranges |}
  else fail (Error "Coverage format must be 1 or 2.").

(** Modelled from the spec: [parseClassDef]: a format discriminant, 1
    or 2; format 1 is [startGlyph] and a list of class ids, format 2 a list
    of [{start, end, classId}] range records; any other format fails. *)
Definition classDef : Decoder ClassDef.t :=
  format ← parseUShort;
  if format =? 1 then
    startGlyph ← parseUShort;
    classes ← parseList parseUShort;
    mret {| ClassDef.format := 1; ClassDef.startGlyph := startGlyph;
            ClassDef.classes := classes; ClassDef.ranges := [] |}
  else if format =? 2 then
    ranges ← parseList
      (s ← parseUShort; e ← parseUShort; c ← parseUShort;
       mret {| ClassDef.rr_start := s; ClassDef.rr_end := e; ClassDef.classId := c |});
    mret {| ClassDef.format := 2; ClassDef.startGlyph := 0;
            ClassDef.classes := []; ClassDef.ranges := ranges |}
  else fail (Error "ClassDef format must be 1 or 2.").

End Parser.

(** ** The GDEF table (tables/gdef.js) *)

Module GDEF.
Import Parser.

Record AttachList : Type :=
  { al_coverage : option Coverage.t;
    attachPoints : list (option (list Z)) }.

Inductive CaretValue : Type :=
| Coordinate (coordinate : Z)
| PointIndex (pointindex : Z).

Record LigCaretList : Type :=
  { lcl_coverage : option Coverage.t;
    ligGlyphs : list (option (list (option CaretValue))) }.

(** The table [parseGDEFTable] builds. [markGlyphSets] is a property
    that the object has or has not ([None]); when it has it, its value is
    what the pointer decoded to, which may be absent ([Some None]). *)
Record t : Type :=
  { version : float;
    classDef : option ClassDef.t;
    attachList : option AttachList;
    ligCaretList : option LigCaretList;
    markAttachClassDef : option ClassDef.t;
    markGlyphSets : option (option (list (option Coverage.t))) }.

Definition parse_attachList : Decoder AttachList :=
  coverage ← parsePointer Parser.coverage;
  attachPoints ← parseList (pointer uShortList);
  mret {| al_coverage := coverage; attachPoints := attachPoints |}.

Definition caretValue : Decoder CaretValue :=
  format ← parseUShort;
  _ ← check_argument ((format =? 1) || (format =? 2) || (format =? 3))
        "Unsupported CaretValue table version.";
  if format =? 1 then
    c ← parseShort; mret (Coordinate c)
  else if format =? 2 then
    i ← parseShort; mret (PointIndex i)
  else
    (* format 3: Device / Variation Index tables unsupported *)
    c ← parseShort; mret (Coordinate c).

Definition ligGlyph : Decoder (list (option CaretValue)) :=
  parseList (pointer caretValue).

Definition parse_ligCaretList : Decoder LigCaretList :=
  coverage ← parsePointer Parser.coverage;
  ligGlyphs ← parseList (pointer ligGlyph);
  mret {| lcl_coverage := coverage; ligGlyphs := ligGlyphs |}.

Definition parse_markGlyphSets : Decoder (list (option Coverage.t)) :=
  _ ← parseUShort; (* Version *)
  parseList (pointer Parser.coverage).

(** The binary64 numbers that the literals [1], [1.2] and [1.3] of the
    source denote. *)
Definition v1_0 : float := 1%float.

#[warnings="-inexact-float"]
Definition v1_2 : float := 1.2%float.

#[warnings="-inexact-float"]
Definition v1_3 : float := 1.3%float.

(** The test on the version in [parseGDEFTable]:
    [tableVersion === 1 || tableVersion === 1.2 || tableVersion === 1.3]. *)
Definition supported (tableVersion : float) : bool :=
  PrimFloat.eqb tableVersion v1_0
  || PrimFloat.eqb tableVersion v1_2
  || PrimFloat.eqb tableVersion v1_3.

(** The header of the table, decoded at the cursor. *)
Definition header : Decoder t :=
  tableVersion ← parseVersion 1;
  _ ← check_argument (supported tableVersion) "Unsupported GDEF table version.";
  classDef ← parsePointer Parser.classDef;
  attachList ← parsePointer parse_attachList;
  ligCaretList ← parsePointer parse_ligCaretList;
  markAttachClassDef ← parsePointer Parser.classDef;
  let gdef :=
    {| version := tableVersion;
       classDef := classDef;
       attachList := attachList;
       ligCaretList := ligCaretList;
       markAttachClassDef := markAttachClassDef;
       markGlyphSets := None |} in
  if PrimFloat.leb v1_2 tableVersion then
    markGlyphSets ← parsePointer parse_markGlyphSets;
    mret {| version := version gdef;
            classDef := GDEF.classDef gdef;
            attachList := GDEF.attachList gdef;
            ligCaretList := GDEF.ligCaretList gdef;
            markAttachClassDef := GDEF.markAttachClassDef gdef;
            markGlyphSets := Some markGlyphSets |}
  else mret gdef.

(** [parseGDEFTable(data, start)]; [start || 0] is [0] when [start] is
    not given. *)
Definition parseGDEFTable (data : list Byte.byte) (start : option Z) : res t :=
  let start := default 0 start in
  let p := Parser.new data start in
  fst <$> header p.

End GDEF.

(** ** The vocabulary of the specification *)

Module Spec.

(** A list is ascending for [R] when [R] relates every element to the
    next one. *)
Fixpoint ascending_by {A} (R : A -> A -> bool) (l : list A) : bool :=
  match l with
  | [] => true
  | x :: rest =>
    match rest with
    | [] => true
    | y :: _ => R x y
    end && ascending_by R rest
  end.

(** An array of records sorted ascending by tag, and strictly so. *)
Definition sorted_by_tag {R} `{Tagged R} (arr : list R) : Prop :=
  ascending_by String.leb (tag <$> arr) = true.

Definition strictly_sorted_by_tag {R} `{Tagged R} (arr : list R) : Prop :=
  ascending_by String.ltb (tag <$> arr) = true.

(** A list of glyph ids that is strictly ascending: an ascending set
    without duplicates. *)
Definition strictly_ascending (glyphs : list Z) : Prop :=
  ascending_by Z.ltb glyphs = true.

(** Ranges that are ascending and do not overlap: no range is empty, and
    each ends before the next one starts. *)
Definition ranges_ascending {R} `{Ranged R} (ranges : list R) : Prop :=
  forallb (fun r => start r <=? end_ r) ranges = true
  /\ ascending_by (fun r r' => end_ r <? start r') ranges = true.

(** A range contains a glyph id. *)
Definition contains {R} `{Ranged R} (r : R) (g : Z) : Prop :=
  start r <= g <= end_ r.

(** The arrays a binary search with [>>> 1] is exact on. *)
Definition fits {A} (arr : list A) : Prop := len arr <= 2 ^ 31.

(** A Coverage table that represents the ascending, duplicate-free set
    [set] of glyph ids: in format 1 its glyph list is the set; in format 2
    its ranges are ascending, do not overlap, cover exactly the glyphs of
    the set, and the [index] of each is the position in the set of the
    first glyph of the range. *)
Definition represents (c : Coverage.t) (set : list Z) : Prop :=
  strictly_ascending set
  /\ ((Coverage.format c = 1 /\ Coverage.glyphs c = set)
      \/ (Coverage.format c = 2
          /\ ranges_ascending (Coverage.ranges c)
          /\ (forall g, g ∈ set <-> exists r, r ∈ Coverage.ranges c /\ contains r g)
          /\ (forall r, r ∈ Coverage.ranges c ->
                item set (Coverage.index r) = Some (start r)))).

(** The glyph ids of a list of ranges, range after range. *)
Definition glyphs_of (ranges : list Coverage.RangeRecord) : list Z :=
  ranges ≫= (fun r => seqZ (start r) (end_ r - start r + 1)).

(** ASCII lower case, and equality of strings up to the case of their
    letters ("case-insensitively equals"). *)
Definition lower (c : ascii) : ascii :=
  let n := nat_of_ascii c in
  if (65 <=? n)%nat && (n <=? 90)%nat then ascii_of_nat (n + 32) else c.

Fixpoint toLowerCase (s : string) : string :=
  match s with
  | EmptyString => EmptyString
  | String c rest => String (lower c) (toLowerCase rest)
  end.

Definition equals_ignoring_case (a b : string) : bool :=
  String.eqb (toLowerCase a) (toLowerCase b).

(** A layout table whose scripts, and the language systems of each
    script, are ascending by tag for the order [R]: sorted ascending for
    [String.leb], strictly so for [String.ltb]. *)
Definition tables_ascending {Subtable} (R : string -> string -> bool)
    (layout : Table Subtable) : Prop :=
  ascending_by R (tag <$> scripts layout) = true
  /\ forall r, r ∈ scripts layout ->
       ascending_by R (tag <$> langSysRecords (script r)) = true.

Definition table_sorted {Subtable} (layout : Table Subtable) : Prop :=
  tables_ascending String.leb layout.

Definition table_strictly_sorted {Subtable} (layout : Table Subtable) : Prop :=
  tables_ascending String.ltb layout.

Definition records_fit {Subtable} (layout : Table Subtable) : Prop :=
  forall r, r ∈ scripts layout -> fits (langSysRecords (script r)).

Definition table_fits {Subtable} (layout : Table Subtable) : Prop :=
  fits (scripts layout) /\ records_fit layout.

(** The lookup at index [i] of the lookup array is of the type asked for. *)
Definition of_type {Subtable} (allLookups : list (Lookup Subtable)) (type : Z)
    (i : Z) : bool :=
  match item allLookups i with
  | Some lookupTable => lookupType lookupTable =? type
  | None => false
  end.

(** The arrays a classification query searches are within the size on
    which the searches are exact; the other calls search the arrays of the
    layout table. *)
Definition query_fits (c : Layout.call) : Prop :=
  match c with
  | Layout.GetGlyphClass classDefTable _ => fits (ClassDef.ranges classDefTable)
  | Layout.GetCoverageIndex coverageTable _ =>
    fits (Coverage.glyphs coverageTable) /\ fits (Coverage.ranges coverageTable)
  | _ => True
  end.

End Spec.
Export Spec.

(** ** The loop the three searches share

    [searchTag], [binSearch] and [searchRange] run the same loop on the
    keys of their array (tags, glyph ids, range starts). [bisect] is that loop
    on the keys alone; the searches are related to it below, and their
    properties are proved once, on it. *)

Module Bisect.

Inductive probe : Type :=
| Hit (iMid : Z)
| Miss (iMin : Z).

Fixpoint bisect {K} (eqb ltb : K -> K -> bool) (fuel : nat) (keys : list K)
    (k : K) (iMin iMax : Z) : res probe :=
  match fuel with
  | O => OutOfFuel
  | S fuel' =>
    if iMin <=? iMax then
      let iMid := ushr1 (iMin + iMax) in
      match item keys iMid with
      | None => Throw TypeError
      | Some val =>
        if eqb val k then Ok (Hit iMid)
        else if ltb val k then bisect eqb ltb fuel' keys k (iMid + 1) iMax
        else bisect eqb ltb fuel' keys k iMin (iMid - 1)
      end
    else Ok (Miss iMin)
  end.

(** [a <= b], as the loop sees it: [b < a] is false. *)
Definition not_above {K} (ltb : K -> K -> bool) (a b : K) : bool :=
  negb (ltb b a).

(** What the loop establishes: a hit is a position of the key; a miss is
    the position that splits the keys below the key from those above. *)
Definition splits {K} (ltb : K -> K -> bool) (keys : list K) (k : K) (m : Z)
    : Prop :=
  0 <= m <= len keys
  /\ (forall j x, j < m -> item keys j = Some x -> ltb x k = true)
  /\ (forall j x, m <= j -> item keys j = Some x -> ltb k x = true).

Definition bisect_post {K} (ltb : K -> K -> bool) (keys : list K) (k : K)
    (iMin iMax : Z) (out : res probe) : Prop :=
  match out with
  | Ok (Hit i) => iMin <= i <= iMax /\ item keys i = Some k
  | Ok (Miss m) => splits ltb keys k m
  | Throw _ | OutOfFuel => False
  end.

End Bisect.
Export Bisect.

(** ** The tables of the examples *)

Module Examples.

(** A script record as [getScriptTable] creates it. *)
Definition a_script (tg : string) : ScriptRecord :=
  {| sr_tag := tg;
     script := {| defaultLangSys := Layout.new_langSys; langSysRecords := [] |} |}.

(** The format-2 Coverage table built from the ranges [{2,4}, {10,10}]. *)
Definition coverage_2_4_10 : Coverage.t :=
  {| Coverage.format := 2;
     Coverage.glyphs := [];
     Coverage.ranges :=
       [ {| Coverage.rr_start := 2; Coverage.rr_end := 4; Coverage.index := 0 |};
         {| Coverage.rr_start := 10; Coverage.rr_end := 10; Coverage.index := 3 |} ] |}.

(** The format-1 ClassDef table with [startGlyph = 5] and classes
    [1, 2, 0]. *)
Definition classDef_5 : ClassDef.t :=
  {| ClassDef.format := 1;
     ClassDef.startGlyph := 5;
     ClassDef.classes := [1; 2; 0];
     ClassDef.ranges := [] |}.

(** A format-2 ClassDef table: glyphs 3 to 5 are of class 1, glyph 9 is
    of class 2. *)
Definition classDef_ranges : ClassDef.t :=
  {| ClassDef.format := 2;
     ClassDef.startGlyph := 0;
     ClassDef.classes := [];
     ClassDef.ranges :=
       [ {| ClassDef.rr_start := 3; ClassDef.rr_end := 5; ClassDef.classId := 1 |};
         {| ClassDef.rr_start := 9; ClassDef.rr_end := 9; ClassDef.classId := 2 |} ] |}.

(** Tables of a format that is not documented. *)
Definition classDef_format_3 : ClassDef.t :=
  {| ClassDef.format := 3;
     ClassDef.startGlyph := 5;
     ClassDef.classes := [1; 2; 0];
     ClassDef.ranges := [] |}.

Definition coverage_format_3 : Coverage.t :=
  {| Coverage.format := 3; Coverage.glyphs := [2; 3; 4]; Coverage.ranges := [] |}.

(** A table with nothing in it, which is also what [createDefaultTable]
    gives in the examples, and a table with two scripts. The subtables are
    of no matter: their type is [unit]. *)
Definition empty_table : Table unit :=
  {| scripts := []; features := []; lookups := [] |}.

Definition two_scripts : Table unit :=
  {| scripts := [a_script "DFLT"; a_script "latn"]; features := []; lookups := [] |}.

(** The empty table after the script ['DFLT'] was created in it, and a
    table with one feature that refers to two lookups. *)
Definition dflt_only : Table unit :=
  {| scripts := [a_script "DFLT"]; features := []; lookups := [] |}.

Definition one_feature : Table unit :=
  {| scripts :=
       [ {| sr_tag := "DFLT";
            script :=
              {| defaultLangSys :=
                   {| reserved := 0; reqFeatureIndex := 0xFFFF; featureIndexes := [0] |};
                 langSysRecords := [] |} |} ];
     features :=
       [ {| fr_tag := "liga";
            feature := {| params := 0; lookupListIndexes := [1; 0] |} |} ];
     lookups :=
       [ {| lookupType := 4; lookupFlag := 0; subtables := [];
            markFilteringSet := None |};
         {| lookupType := 1; lookupFlag := 0; subtables := [];
            markFilteringSet := None |} ] |}.

(** The bytes of a GDEF table of version 1.3 (major 1, minor 3) whose
    five pointers are 0, and of a GDEF table of version 1.0 whose four
    pointers are 0. *)
Definition gdef_1_3_null : list Byte.byte :=
  [ Byte.x00; Byte.x01; Byte.x00; Byte.x03;
    Byte.x00; Byte.x00; Byte.x00; Byte.x00; Byte.x00; Byte.x00;
    Byte.x00; Byte.x00; Byte.x00; Byte.x00 ].

Definition gdef_1_0_null : list Byte.byte :=
  [ Byte.x00; Byte.x01; Byte.x00; Byte.x00;
    Byte.x00; Byte.x00; Byte.x00; Byte.x00; Byte.x00; Byte.x00;
    Byte.x00; Byte.x00 ].

(** The bytes of a GDEF table of version 2.0. *)
Definition gdef_2_0 : list Byte.byte :=
  [ Byte.x00; Byte.x02; Byte.x00; Byte.x00;
    Byte.x00; Byte.x00; Byte.x00; Byte.x00; Byte.x00; Byte.x00;
    Byte.x00; Byte.x00 ].

(** The Layout object of the GSUB table, and a font with a GSUB table. *)
Definition gsub : Layout.t := {| Layout.tableName := "GSUB" |}.

Definition font_with (layout : Table unit) : Layout.Font unit :=
  {| Layout.tables := {[ "GSUB"%string := layout ]} |}.

End Examples.
Export Examples.

(** ** How the methods change the table

    Every change the methods of the Layout class make to the font is one
    of the updates below, made in place to the table under the name of the
    Layout object. *)

Module Updates.
Section Updates.

Context {Subtable : Type}.

(** One update of the layout table: the table it is made to, and what is
    done to it. A script or a language system is spliced in; a feature is
    pushed, after the check on the alphabetical order, and its index, the
    length of the features before, is pushed to a language system; a lookup
    is pushed and its index, the length of the lookups before, is pushed to a
    feature. *)
Inductive update : Table Subtable -> (Table Subtable -> Table Subtable) -> Prop :=
| AddScript (layout : Table Subtable) (tg : string) (start : Z) :
    update layout
      (Layout.set_scripts (fun scripts =>
         splice_insert scripts start
           {| sr_tag := tg;
              script := {| defaultLangSys := Layout.new_langSys;
                           langSysRecords := [] |} |}))
| AddLangSys (layout : Table Subtable) (s : ScriptRef) (language : string)
    (start : Z) :
    update layout
      (Layout.at_script s (Layout.set_langSysRecords (fun records =>
         splice_insert records start
           {| lsr_tag := language; langSys := Layout.new_langSys |})))
| AddFeature (layout : Table Subtable) (l : LangSysRef) (tg : string) :
    Layout.alphabetical (features layout) tg = Ok true ->
    update layout
      (Layout.at_langSys l (fun ls =>
         {| reserved := reserved ls;
            reqFeatureIndex := reqFeatureIndex ls;
            featureIndexes := push (featureIndexes ls) (len (features layout)) |})
       ∘ Layout.set_features (fun fs =>
           push fs {| fr_tag := tg;
                      feature := {| params := 0; lookupListIndexes := [] |} |}))
| AddLookup (layout : Table Subtable) (f : FeatureRef) (type : Z) :
    update layout
      (Layout.at_feature f (fun ft =>
         {| params := params ft;
            lookupListIndexes :=
              push (Graph.lookupListIndexes ft) (len (lookups layout)) |})
       ∘ Layout.set_lookups (fun ls =>
           push ls {| lookupType := type;
                      lookupFlag := 0;
                      subtables := [];
                      markFilteringSet := None |})).

(** A font evolves into another by creating the table where there is
    none, and by updates of the table. *)
Inductive evolves (createDefaultTable : Table Subtable) (name : string)
    : Layout.Font Subtable -> Layout.Font Subtable -> Prop :=
| evolves_refl (font : Layout.Font Subtable) :
    evolves createDefaultTable name font font
| evolves_create (font font' : Layout.Font Subtable) :
    Layout.tables font !! name = None ->
    evolves createDefaultTable name
      {| Layout.tables := <[name := createDefaultTable]> (Layout.tables font) |} font' ->
    evolves createDefaultTable name font font'
| evolves_update (font font' : Layout.Font Subtable) (layout : Table Subtable)
    (f : Table Subtable -> Table Subtable) :
    Layout.tables font !! name = Some layout ->
    update layout f ->
    evolves createDefaultTable name
      {| Layout.tables := alter f name (Layout.tables font) |} font' ->
    evolves createDefaultTable name font font'.

(** The calls that ask for what is missing to be created. *)
Definition demands_creation (c : Layout.call) : bool :=
  match c with
  | Layout.GetTable create
  | Layout.GetScriptTable _ create
  | Layout.GetLangSysTable _ _ create
  | Layout.GetFeatureTable _ _ _ create
  | Layout.GetLookupTables _ _ _ _ create => create
  | _ => false
  end.

(** An index into an array is in range. *)
Definition in_range {A} (arr : list A) (i : Z) : bool :=
  (0 <=? i) && (i <? len arr).

(** The feature indexes of a language system are indexes of features of
    the table. *)
Definition langSys_indexed (layout : Table Subtable) (ls : LangSys) : bool :=
  forallb (in_range (features layout)) (featureIndexes ls).

(** A table whose indexes do not dangle: the feature indexes of every
    language system (the default one and the others of every script) are
    indexes of features of the table, and the lookup indexes of every feature
    are indexes of lookups of the table. *)
Definition well_indexed (layout : Table Subtable) : bool :=
  forallb (fun r =>
             langSys_indexed layout (defaultLangSys (script r))
             && forallb (fun record => langSys_indexed layout (langSys record))
                        (langSysRecords (script r)))
          (scripts layout)
  && forallb (fun fr => forallb (in_range (lookups layout))
                                (lookupListIndexes (feature fr)))
             (features layout).

(** A language system grows: its fields stay and feature indexes are
    added at the end. *)
Definition langSys_grows (ls ls' : LangSys) : Prop :=
  reserved ls' = reserved ls
  /\ reqFeatureIndex ls' = reqFeatureIndex ls
  /\ featureIndexes ls `prefix_of` featureIndexes ls'.

(** A script grows: its default language system grows, and each of its
    language systems is still there, under its tag, and has grown. *)
Definition script_grows (sc sc' : Script) : Prop :=
  langSys_grows (defaultLangSys sc) (defaultLangSys sc')
  /\ forall record, record ∈ langSysRecords sc ->
       exists record', record' ∈ langSysRecords sc'
                       /\ tag record' = tag record
                       /\ langSys_grows (langSys record) (langSys record').

(** A feature grows: its parameters stay and lookup indexes are added at
    the end. *)
Definition feature_grows (ft ft' : Feature) : Prop :=
  params ft' = params ft
  /\ lookupListIndexes ft `prefix_of` lookupListIndexes ft'.

(** A table grows: every lookup and every feature stays at its index,
    the lookups as they are and the features under their tag, grown; later
    ones are added at the end; every script is still there, under its tag,
    and has grown. *)
Definition grows (layout layout' : Table Subtable) : Prop :=
  lookups layout `prefix_of` lookups layout'
  /\ (forall i fr, item (features layout) i = Some fr ->
        exists fr', item (features layout') i = Some fr'
                    /\ tag fr' = tag fr
                    /\ feature_grows (feature fr) (feature fr'))
  /\ (forall r, r ∈ scripts layout ->
        exists r', r' ∈ scripts layout'
                   /\ tag r' = tag r
                   /\ script_grows (script r) (script r')).

(** Indexes were added at the end of [old], each of them at least [n]
    and below [n']: each is the index of an entry that was added to an array
    that had [n] entries and has [n'] now. *)
Definition added_fresh (n n' : Z) (old new : list Z) : Prop :=
  exists added, new = old ++ added /\ forall i, i ∈ added -> n <= i < n'.

(** The feature indexes added to the language systems of a script are
    indexes of features added to an array of [n] features that has [n']
    now. *)
Definition script_adds_fresh (n n' : Z) (sc sc' : Script) : Prop :=
  added_fresh n n' (featureIndexes (defaultLangSys sc))
              (featureIndexes (defaultLangSys sc'))
  /\ forall record, record ∈ langSysRecords sc ->
       exists record', record' ∈ langSysRecords sc'
                       /\ tag record' = tag record
                       /\ added_fresh n n' (featureIndexes (langSys record))
                                      (featureIndexes (langSys record')).

(** From [layout] to [layout'] the features and the lookups have not
    become fewer, and every index added to a feature or to a language system
    that was there is the index of a lookup or of a feature that was
    added. *)
Definition adds_fresh_indexes (layout layout' : Table Subtable) : Prop :=
  len (features layout) <= len (features layout')
  /\ len (lookups layout) <= len (lookups layout')
  /\ (forall i fr, item (features layout) i = Some fr ->
        exists fr', item (features layout') i = Some fr'
                    /\ added_fresh (len (lookups layout)) (len (lookups layout'))
                                   (lookupListIndexes (feature fr))
                                   (lookupListIndexes (feature fr')))
  /\ (forall r, r ∈ scripts layout ->
        exists r', r' ∈ scripts layout'
                   /\ tag r' = tag r
                   /\ script_adds_fresh (len (features layout))
                                        (len (features layout'))
                                        (script r) (script r')).

(** An array that can take one more record and still be searched
    exactly, and a table whose arrays of scripts and of language systems
    can. *)
Definition roomy {A} (arr : list A) : Prop := len arr < 2 ^ 31.

Definition table_roomy (layout : Table Subtable) : Prop :=
  roomy (scripts layout)
  /\ forall r, r ∈ scripts layout -> roomy (langSysRecords (script r)).

(** The tags of a table: the tag of each script with the tags of its
    language systems, in the order of the arrays. *)
Definition skeleton (layout : Table Subtable) : list (string * list string) :=
  (fun r => (tag r, tag <$> langSysRecords (script r))) <$> scripts layout.

(** [l] is a language system of the table under the tags [tg] and
    [language]: the default language system of a script tagged [tg] when
    [language] is ['dflt'] or ['DFLT'], and otherwise the language system of a
    record tagged [language] of such a script. *)
Definition langSys_named (layout : Table Subtable) (tg language : string)
    (l : LangSysRef) : Prop :=
  exists s r,
    item (scripts layout) s = Some r /\ tag r = tg
    /\ ((String.eqb language "dflt" || String.eqb language "DFLT" = true
         /\ l = DefaultLangSysOf s)
        \/ (String.eqb language "dflt" || String.eqb language "DFLT" = false
            /\ exists i record,
                 l = LangSysOf s i
                 /\ item (langSysRecords (script r)) i = Some record
                 /\ tag record = language)).

End Updates.
End Updates.
Export Updates.

(** * Properties *)

(** ** Arithmetic of the searches *)

Lemma ushr1_half (n : Z) : 0 <= n < 2 ^ 32 -> ushr1 n = n / 2.
Proof.
  intros Hn. unfold ushr1.
  rewrite Z.mod_small by lia.
  rewrite Z.shiftr_div_pow2 by lia. reflexivity.
Qed.

Lemma ushr1_mid (iMin iMax : Z) :
  0 <= iMin -> iMin <= iMax -> iMax < 2 ^ 31 ->
  iMin <= ushr1 (iMin + iMax) <= iMax.
Proof.
  intros H0 Hle Hmax.
  rewrite ushr1_half by lia.
  split.
  - apply Z.div_le_lower_bound; lia.
  - apply Z.div_le_upper_bound; lia.
Qed.

Lemma item_Some {A} (arr : list A) (i : Z) (x : A) :
  item arr i = Some x <-> 0 <= i /\ arr !! Z.to_nat i = Some x.
Proof.
  unfold item. destruct (Z.ltb_spec i 0); split.
  - discriminate.
  - intros [? _]. lia.
  - intros E. split; [lia | exact E].
  - intros [_ E]. exact E.
Qed.

Lemma item_nat {A} (arr : list A) (i : nat) : item arr (Z.of_nat i) = arr !! i.
Proof.
  unfold item. destruct (Z.ltb_spec (Z.of_nat i) 0); [lia|].
  rewrite Nat2Z.id. reflexivity.
Qed.

Lemma item_in_range {A} (arr : list A) (i : Z) :
  0 <= i < len arr -> exists x, item arr i = Some x.
Proof.
  intros Hi. unfold len in Hi.
  destruct (lookup_lt_is_Some_2 arr (Z.to_nat i)) as [x Hx]; [lia|].
  exists x. apply item_Some. split; [lia | exact Hx].
Qed.

(** ** The order of tags *)

Lemma str_ltb_lt (a b : string) : String.ltb a b = true <-> String.compare a b = Lt.
Proof.
  unfold String.ltb. destruct (String.compare a b); split; congruence.
Qed.

Lemma str_compare_refl (a : string) : String.compare a a = Eq.
Proof.
  induction a as [|c a IH]; simpl; [reflexivity|].
  unfold Ascii.compare. rewrite N.compare_refl. exact IH.
Qed.

Lemma str_compare_trans (a b c : string) :
  String.compare a b = Lt -> String.compare b c = Lt -> String.compare a c = Lt.
Proof.
  revert b c. induction a as [|x a IH]; intros [|y b] [|z c]; simpl;
    try congruence.
  unfold Ascii.compare.
  destruct (N.compare_spec (N_of_ascii x) (N_of_ascii y)) as [Exy|Lxy|Gxy];
    destruct (N.compare_spec (N_of_ascii y) (N_of_ascii z)) as [Eyz|Lyz|Gyz];
    try congruence; intros H1 H2.
  - rewrite Exy, Eyz, N.compare_refl. eapply IH; eassumption.
  - rewrite Exy. apply N.compare_lt_iff in Lyz. rewrite Lyz. reflexivity.
  - rewrite <- Eyz. apply N.compare_lt_iff in Lxy. rewrite Lxy. reflexivity.
  - assert (L : (N_of_ascii x < N_of_ascii z)%N) by lia.
    apply N.compare_lt_iff in L. rewrite L. reflexivity.
Qed.

Lemma str_ltb_trans (a b c : string) :
  String.ltb a b = true -> String.ltb b c = true -> String.ltb a c = true.
Proof. rewrite !str_ltb_lt. apply str_compare_trans. Qed.

Lemma str_ltb_irrefl (a : string) : String.ltb a a = false.
Proof. unfold String.ltb. rewrite str_compare_refl. reflexivity. Qed.

Lemma str_ltb_total (a b : string) :
  String.eqb a b = false -> String.ltb a b = false -> String.ltb b a = true.
Proof.
  intros Hne Hlt. apply String.eqb_neq in Hne.
  unfold String.ltb in *. rewrite String.compare_antisym.
  destruct (String.compare a b) eqn:E; simpl; try congruence.
  apply String.compare_eq_iff in E. contradiction.
Qed.

Lemma str_leb_ltb (a b : string) : String.leb a b = negb (String.ltb b a).
Proof.
  unfold String.leb, String.ltb. rewrite (String.compare_antisym a b).
  destruct (String.compare b a); reflexivity.
Qed.

(** ** Ascending lists *)

Lemma ascending_by_cons {A} (R : A -> A -> bool) (x : A) (l : list A) :
  ascending_by R (x :: l) = true ->
  ascending_by R l = true /\ (forall y, head l = Some y -> R x y = true).
Proof.
  simpl. destruct l as [|y l]; simpl.
  - intros _. split; [reflexivity | discriminate].
  - intros H. apply andb_true_iff in H as [Hxy Hl].
    split; [exact Hl | congruence].
Qed.

Lemma ascending_by_mono {A} (R R' : A -> A -> bool) (l : list A) :
  (forall a b, R a b = true -> R' a b = true) ->
  ascending_by R l = true -> ascending_by R' l = true.
Proof.
  intros Himp. induction l as [|x l IH]; [reflexivity|].
  intros H. simpl in *. destruct l as [|y l].
  - reflexivity.
  - apply andb_true_iff in H as [Hxy Hl].
    apply andb_true_iff. split; [apply Himp, Hxy | apply IH, Hl].
Qed.

Lemma ascending_by_fmap {A B} (f : A -> B) (R : B -> B -> bool) (l : list A) :
  ascending_by R (f <$> l) = ascending_by (fun a b => R (f a) (f b)) l.
Proof.
  induction l as [|x l IH]; [reflexivity|].
  simpl. destruct l as [|y l]; [reflexivity|].
  simpl in *. rewrite IH. reflexivity.
Qed.

(** In a list ascending for a transitive relation, the relation holds
    between any two positions in order. *)
Lemma ascending_by_lookup {A} (R : A -> A -> bool) (l : list A) :
  (forall a b c, R a b = true -> R b c = true -> R a c = true) ->
  ascending_by R l = true ->
  forall (i j : nat) (x y : A),
    (i < j)%nat -> l !! i = Some x -> l !! j = Some y -> R x y = true.
Proof.
  intros Htrans. induction l as [|a l IH]; intros Hasc i j x y Hij Hi Hj.
  - discriminate.
  - apply ascending_by_cons in Hasc as [Hl Hhead].
    destruct j as [|j]; [lia|]. simpl in Hj.
    destruct i as [|i]; simpl in Hi.
    + injection Hi as ->.
      destruct l as [|b l]; [discriminate|].
      specialize (Hhead b eq_refl).
      destruct j as [|j]; simpl in Hj.
      * congruence.
      * apply (Htrans _ b); [exact Hhead|].
        apply (IH Hl 0%nat (S j)); [lia | reflexivity | exact Hj].
    + apply (IH Hl i j); [lia | exact Hi | exact Hj].
Qed.

(** Putting an element between the part of an ascending list that is
    below it and the part that is above it keeps the list ascending. *)
Lemma ascending_by_insert {A} (R : A -> A -> bool) (l : list A) (k : nat) (a : A) :
  ascending_by R l = true ->
  (forall x, x ∈ take k l -> R x a = true) ->
  (forall y, y ∈ drop k l -> R a y = true) ->
  ascending_by R (take k l ++ a :: drop k l) = true.
Proof.
  revert k. induction l as [|x l IH]; intros k Hasc Hlo Hhi.
  - destruct k; reflexivity.
  - destruct k as [|k].
    + simpl. apply andb_true_iff. split; [|exact Hasc].
      apply Hhi. simpl. apply list_elem_of_here.
    + apply ascending_by_cons in Hasc as [Hl Hhead].
      assert (IH' : ascending_by R (take k l ++ a :: drop k l) = true).
      { apply IH; [exact Hl | |].
        - intros y Hy. apply Hlo. simpl. apply list_elem_of_further, Hy.
        - intros y Hy. apply Hhi. simpl. exact Hy. }
      simpl. simpl in IH'.
      destruct (take k l ++ a :: drop k l) as [|b rest] eqn:E.
      * reflexivity.
      * apply andb_true_iff. split; [|exact IH'].
        destruct k as [|k]; [|destruct l as [|c l]]; simpl in E.
        -- injection E as <- _. apply Hlo. simpl. apply list_elem_of_here.
        -- injection E as <- _. apply Hlo. simpl. apply list_elem_of_here.
        -- injection E as <- _. apply Hhead. reflexivity.
Qed.

(** ** The binary search on the keys *)

Section Order.

Context {K : Type} (eqb ltb : K -> K -> bool).
Hypothesis eqb_eq : forall a b, eqb a b = true <-> a = b.
Hypothesis ltb_irrefl : forall a, ltb a a = false.
Hypothesis ltb_trans :
  forall a b c, ltb a b = true -> ltb b c = true -> ltb a c = true.
Hypothesis ltb_total :
  forall a b, eqb a b = false -> ltb a b = false -> ltb b a = true.

Local Abbreviation not_above := (Bisect.not_above ltb).
Local Abbreviation splits := (Bisect.splits ltb).
Local Abbreviation bisect_post := (Bisect.bisect_post ltb).

Lemma ltb_asym (a b : K) : ltb a b = true -> ltb b a = false.
Proof.
  intros Hab. destruct (ltb b a) eqn:Hba; [|reflexivity].
  rewrite <- (ltb_irrefl a). symmetry. eapply ltb_trans; eassumption.
Qed.

Lemma le_lt_trans (x y k : K) :
  ltb y x = false -> ltb y k = true -> ltb x k = true.
Proof.
  intros Hle Hlt.
  destruct (eqb x y) eqn:E.
  - apply eqb_eq in E. subst. exact Hlt.
  - destruct (ltb x y) eqn:L.
    + eapply ltb_trans; eassumption.
    + rewrite (ltb_total x y E L) in Hle. discriminate.
Qed.

Lemma lt_le_trans (k x y : K) :
  ltb k x = true -> ltb y x = false -> ltb k y = true.
Proof.
  intros Hlt Hle.
  destruct (eqb x y) eqn:E.
  - apply eqb_eq in E. subst. exact Hlt.
  - destruct (ltb x y) eqn:L.
    + eapply ltb_trans; eassumption.
    + rewrite (ltb_total x y E L) in Hle. discriminate.
Qed.

Lemma not_above_trans (a b c : K) :
  not_above a b = true -> not_above b c = true -> not_above a c = true.
Proof.
  unfold not_above. rewrite !negb_true_iff. intros Hab Hbc.
  destruct (ltb c a) eqn:Hca; [|reflexivity].
  rewrite (lt_le_trans c a b Hca Hab) in Hbc. discriminate.
Qed.

Lemma strict_not_above (l : list K) :
  ascending_by ltb l = true -> ascending_by not_above l = true.
Proof.
  apply ascending_by_mono. intros a b Hab. unfold not_above.
  rewrite (ltb_asym a b Hab). reflexivity.
Qed.

Lemma ascending_le (keys : list K) (i j : Z) (x y : K) :
  ascending_by not_above keys = true ->
  i <= j -> item keys i = Some x -> item keys j = Some y -> ltb y x = false.
Proof.
  intros Hasc Hij Hi Hj.
  apply item_Some in Hi as [Hi0 Hi]. apply item_Some in Hj as [Hj0 Hj].
  destruct (Z.eq_dec i j) as [->|Hne].
  - assert (x = y) by congruence. subst. apply ltb_irrefl.
  - apply negb_true_iff.
    apply (ascending_by_lookup not_above keys not_above_trans Hasc
             (Z.to_nat i) (Z.to_nat j)); [lia | exact Hi | exact Hj].
Qed.

Lemma ascending_lt (keys : list K) (i j : Z) (x y : K) :
  ascending_by ltb keys = true ->
  i < j -> item keys i = Some x -> item keys j = Some y -> ltb x y = true.
Proof.
  intros Hasc Hij Hi Hj.
  apply item_Some in Hi as [Hi0 Hi]. apply item_Some in Hj as [Hj0 Hj].
  apply (ascending_by_lookup ltb keys ltb_trans Hasc
           (Z.to_nat i) (Z.to_nat j)); [lia | exact Hi | exact Hj].
Qed.

Lemma bisect_spec (fuel : nat) (keys : list K) (k : K) :
  ascending_by not_above keys = true ->
  fits keys ->
  forall iMin iMax,
    0 <= iMin -> iMax < len keys -> iMin <= iMax + 1 ->
    iMax - iMin + 1 < Z.of_nat fuel ->
    (forall j x, j < iMin -> item keys j = Some x -> ltb x k = true) ->
    (forall j x, iMax < j -> item keys j = Some x -> ltb k x = true) ->
    bisect_post keys k iMin iMax (bisect eqb ltb fuel keys k iMin iMax).
Proof.
  intros Hasc Hfits. unfold fits in Hfits.
  induction fuel as [|fuel IH]; intros iMin iMax Hmin Hmax Hgap Hfuel Hlo Hhi.
  - lia.
  - simpl. destruct (Z.leb_spec iMin iMax) as [Hle|Hgt].
    + pose proof (ushr1_mid iMin iMax Hmin Hle ltac:(lia)) as Hmid.
      set (iMid := ushr1 (iMin + iMax)) in *.
      destruct (item_in_range keys iMid ltac:(lia)) as [val Hval].
      rewrite Hval.
      destruct (eqb val k) eqn:E.
      * apply eqb_eq in E. subst val. simpl. split; [lia | exact Hval].
      * destruct (ltb val k) eqn:L.
        -- assert (P : bisect_post keys k (iMid + 1) iMax
                         (bisect eqb ltb fuel keys k (iMid + 1) iMax)).
           { apply IH; try lia; [|exact Hhi].
             intros j x Hj Hx.
             apply (le_lt_trans x val k); [|exact L].
             apply (ascending_le keys j iMid); [exact Hasc | lia | exact Hx | exact Hval]. }
           destruct (bisect eqb ltb fuel keys k (iMid + 1) iMax) as [[i|m]| |];
             simpl in *; [|exact P|exact P|exact P].
           destruct P as [Hi Hk]. split; [lia | exact Hk].
        -- pose proof (ltb_total val k E L) as G.
           assert (P : bisect_post keys k iMin (iMid - 1)
                         (bisect eqb ltb fuel keys k iMin (iMid - 1))).
           { apply IH; try lia; [exact Hlo|].
             intros j x Hj Hx.
             apply (lt_le_trans k val x); [exact G|].
             apply (ascending_le keys iMid j); [exact Hasc | lia | exact Hval | exact Hx]. }
           destruct (bisect eqb ltb fuel keys k iMin (iMid - 1)) as [[i|m]| |];
             simpl in *; [|exact P|exact P|exact P].
           destruct P as [Hi Hk]. split; [lia | exact Hk].
    + simpl. unfold Bisect.splits. repeat split; try lia.
      * exact Hlo.
      * intros j x Hj Hx. apply (Hhi j x); [lia | exact Hx].
Qed.

(** The search from the whole array. *)
Lemma bisect_whole (keys : list K) (k : K) :
  ascending_by not_above keys = true ->
  fits keys ->
  bisect_post keys k 0 (len keys - 1)
    (bisect eqb ltb (S (length keys)) keys k 0 (len keys - 1)).
Proof.
  intros Hasc Hfits. apply bisect_spec; try assumption; unfold len; try lia.
  - intros j x Hj Hx. apply item_Some in Hx. lia.
  - intros j x Hj Hx. apply item_Some in Hx as [Hj0 Hx].
    apply lookup_lt_Some in Hx. lia.
Qed.

(** A key that is in a strictly ascending array is hit where it is. *)
Lemma bisect_hit (keys : list K) (k : K) (i : Z) :
  ascending_by ltb keys = true ->
  fits keys ->
  item keys i = Some k ->
  bisect eqb ltb (S (length keys)) keys k 0 (len keys - 1) = Ok (Hit i).
Proof.
  intros Hasc Hfits Hi.
  pose proof (bisect_whole keys k (strict_not_above keys Hasc) Hfits) as P.
  destruct (bisect eqb ltb (S (length keys)) keys k 0 (len keys - 1))
    as [[i'|m]| |]; simpl in P; try contradiction.
  - destruct P as [_ Hi'].
    destruct (Z.lt_trichotomy i i') as [Hlt|[->|Hgt]]; [|reflexivity|].
    + pose proof (ascending_lt keys i i' k k Hasc Hlt Hi Hi') as C.
      rewrite ltb_irrefl in C. discriminate.
    + pose proof (ascending_lt keys i' i k k Hasc Hgt Hi' Hi) as C.
      rewrite ltb_irrefl in C. discriminate.
  - destruct P as (Hm & Hlo & Hhi).
    destruct (Z.lt_ge_cases i m) as [Hlt|Hge].
    + pose proof (Hlo i k Hlt Hi) as C. rewrite ltb_irrefl in C. discriminate.
    + pose proof (Hhi i k Hge Hi) as C. rewrite ltb_irrefl in C. discriminate.
Qed.

(** A key that is not in the array is missed, at the position that
    splits the array around it. *)
Lemma bisect_miss (keys : list K) (k : K) :
  ascending_by not_above keys = true ->
  fits keys ->
  k ∉ keys ->
  exists m, bisect eqb ltb (S (length keys)) keys k 0 (len keys - 1) = Ok (Miss m)
            /\ splits keys k m.
Proof.
  intros Hasc Hfits Hnot.
  pose proof (bisect_whole keys k Hasc Hfits) as P.
  destruct (bisect eqb ltb (S (length keys)) keys k 0 (len keys - 1))
    as [[i|m]| |]; simpl in P; try contradiction.
  - destruct P as [_ Hi]. apply item_Some in Hi as [_ Hi].
    exfalso. apply Hnot. eapply list_elem_of_lookup_2. exact Hi.
  - exists m. split; [reflexivity | exact P].
Qed.

End Order.

(** Splicing a key in where the search misses it keeps the keys ascending,
    for the order [ltb] itself and for every [R] that holds where [ltb]
    does. *)
Lemma splits_insert {K} (ltb R : K -> K -> bool) (keys : list K) (k : K) (m : Z) :
  (forall a b, ltb a b = true -> R a b = true) ->
  splits ltb keys k m ->
  ascending_by R keys = true ->
  ascending_by R (take (Z.to_nat m) keys ++ k :: drop (Z.to_nat m) keys) = true.
Proof.
  intros Himp (Hm & Hlo & Hhi) Hasc.
  apply ascending_by_insert; [exact Hasc | |].
  - intros x Hx. apply elem_of_take in Hx as (i & Hi & Hlt).
    apply Himp, (Hlo (Z.of_nat i)); [lia|].
    rewrite item_nat. exact Hi.
  - intros y Hy. apply list_elem_of_lookup in Hy as (i & Hi).
    rewrite lookup_drop in Hi.
    apply Himp, (Hhi (Z.of_nat (Z.to_nat m + i))); [lia|].
    rewrite item_nat. exact Hi.
Qed.

Lemma splice_pos_in_range {A} (arr : list A) (m : Z) :
  0 <= m <= len arr -> splice_pos arr m = m.
Proof.
  intros Hm. unfold splice_pos.
  destruct (Z.ltb_spec m 0); [lia|]. lia.
Qed.

Lemma item_fmap {A B} (f : A -> B) (arr : list A) (i : Z) :
  item (f <$> arr) i = f <$> item arr i.
Proof.
  unfold item. destruct (i <? 0); [reflexivity|]. apply list_lookup_fmap.
Qed.

Lemma len_fmap {A B} (f : A -> B) (arr : list A) : len (f <$> arr) = len arr.
Proof. unfold len. rewrite length_fmap. reflexivity. Qed.

(** ** searchTag *)

Section SearchTag.

Context {R : Type} `{Tagged R}.

Lemma searchTag_loop_bisect (fuel : nat) (arr : list R) (tg : string)
    (iMin iMax : Z) :
  searchTag_loop fuel arr tg iMin iMax =
  match bisect String.eqb String.ltb fuel (tag <$> arr) tg iMin iMax with
  | Ok (Hit i) => Ok i
  | Ok (Miss m) => Ok (- m - 1)
  | Throw e => Throw e
  | OutOfFuel => OutOfFuel
  end.
Proof.
  revert iMin iMax. induction fuel as [|fuel IH]; intros iMin iMax.
  - reflexivity.
  - simpl. destruct (iMin <=? iMax); [|reflexivity].
    rewrite item_fmap.
    destruct (item arr (ushr1 (iMin + iMax))) as [r|]; simpl; [|reflexivity].
    destruct (String.eqb (tag r) tg); [reflexivity|].
    destruct (String.ltb (tag r) tg); apply IH.
Qed.

Lemma sorted_by_tag_not_above (arr : list R) :
  sorted_by_tag arr -> ascending_by (not_above String.ltb) (tag <$> arr) = true.
Proof.
  apply ascending_by_mono. intros a b. rewrite str_leb_ltb. trivial.
Qed.

Lemma strictly_sorted_sorted (arr : list R) :
  strictly_sorted_by_tag arr -> sorted_by_tag arr.
Proof.
  apply ascending_by_mono. intros a b Hab. rewrite str_leb_ltb.
  rewrite (ltb_asym String.ltb str_ltb_irrefl str_ltb_trans a b Hab).
  reflexivity.
Qed.

(** What [searchTag] returns on a sorted array: the position of a
    record with the tag, or [-1 - m] for the position [m] that splits the
    tags. *)
Lemma searchTag_sorted (arr : list R) (tg : string) :
  sorted_by_tag arr -> fits arr ->
  exists pos, searchTag arr tg = Ok pos
    /\ ((0 <= pos < len arr /\ exists r, item arr pos = Some r /\ tag r = tg)
        \/ (pos < 0 /\ splits String.ltb (tag <$> arr) tg (-1 - pos))).
Proof.
  intros Hs Hfits. unfold searchTag. rewrite searchTag_loop_bisect.
  pose proof (bisect_whole String.eqb String.ltb String.eqb_eq str_ltb_irrefl
                str_ltb_trans str_ltb_total (tag <$> arr) tg
                (sorted_by_tag_not_above arr Hs)) as P.
  unfold fits in *. rewrite len_fmap, length_fmap in P. specialize (P Hfits).
  destruct (bisect String.eqb String.ltb (S (length arr)) (tag <$> arr) tg 0
              (len arr - 1)) as [[i|m]| |]; simpl in P; try contradiction.
  - exists i. split; [reflexivity|]. left.
    destruct P as [Hi Hk]. split; [lia|].
    rewrite item_fmap in Hk.
    destruct (item arr i) as [r|]; simpl in Hk; [|discriminate].
    exists r. split; [reflexivity | congruence].
  - exists (- m - 1). split; [reflexivity|]. right.
    destruct P as (Hm & Hlo & Hhi). split; [lia|].
    replace (-1 - (- m - 1)) with m by lia.
    repeat split; try assumption; lia.
Qed.

Lemma searchTag_present (arr : list R) (tg : string) (i : nat) (r : R) :
  strictly_sorted_by_tag arr -> fits arr ->
  arr !! i = Some r -> tag r = tg ->
  searchTag arr tg = Ok (Z.of_nat i).
Proof.
  intros Hs Hfits Hi Htag. unfold searchTag. rewrite searchTag_loop_bisect.
  pose proof (bisect_hit String.eqb String.ltb String.eqb_eq str_ltb_irrefl
                str_ltb_trans str_ltb_total (tag <$> arr) tg (Z.of_nat i) Hs) as P.
  unfold fits in *. rewrite len_fmap, length_fmap in P.
  rewrite P; [reflexivity | exact Hfits |].
  rewrite item_nat, list_lookup_fmap, Hi. simpl. congruence.
Qed.

(** Splicing a record in at the position a miss gives. *)
Lemma splice_sorted (arr : list R) (x : R) (m : Z) :
  splits String.ltb (tag <$> arr) (tag x) m ->
  (sorted_by_tag arr -> sorted_by_tag (splice_insert arr m x))
  /\ (strictly_sorted_by_tag arr -> strictly_sorted_by_tag (splice_insert arr m x)).
Proof.
  intros Hsp.
  assert (Hm : 0 <= m <= len arr).
  { destruct Hsp as [Hm _]. rewrite len_fmap in Hm. exact Hm. }
  unfold sorted_by_tag, strictly_sorted_by_tag, splice_insert.
  rewrite (splice_pos_in_range arr m Hm).
  rewrite fmap_app, fmap_cons, fmap_take, fmap_drop.
  split; intros Hs.
  - apply (splits_insert String.ltb); [|exact Hsp|exact Hs].
    intros a b Hab. rewrite str_leb_ltb.
    rewrite (ltb_asym String.ltb str_ltb_irrefl str_ltb_trans a b Hab).
    reflexivity.
  - apply (splits_insert String.ltb); [|exact Hsp|exact Hs]. trivial.
Qed.

End SearchTag.

(** C4: for every array of records sorted strictly ascending by tag and
    every tag, [searchTag] returns the index of the record that has the tag
    when there is one; otherwise it returns the negative value
    [-(insertionIndex) - 1], where splicing a record with that tag in at
    [insertionIndex] keeps the array sorted ascending by tag (strictly so).
    The arrays are those on which [>>> 1] halves exactly, of at most 2^31
    records. *)
Theorem searchTag_index_or_insertion_point {R : Type} `{Tagged R}
    (arr : list R) (tg : string) :
  strictly_sorted_by_tag arr ->
  fits arr ->
  (forall (i : nat) (r : R),
      arr !! i = Some r -> tag r = tg -> searchTag arr tg = Ok (Z.of_nat i))
  /\ ((forall r, r ∈ arr -> tag r <> tg) ->
      exists insertionIndex : Z,
        0 <= insertionIndex <= len arr
        /\ searchTag arr tg = Ok (- insertionIndex - 1)
        /\ forall x : R, tag x = tg ->
             sorted_by_tag (splice_insert arr insertionIndex x)
             /\ strictly_sorted_by_tag (splice_insert arr insertionIndex x)).
Proof.
  intros Hs Hfits. split.
  - intros i r Hi Htag. eapply searchTag_present; eassumption.
  - intros Habsent.
    destruct (searchTag_sorted arr tg (strictly_sorted_sorted arr Hs) Hfits)
      as (pos & Hpos & [(Hin & r & Hr & Htag) | (Hneg & Hsp)]).
    + exfalso. apply (Habsent r); [|exact Htag].
      apply item_Some in Hr as [_ Hr]. eapply list_elem_of_lookup_2, Hr.
    + exists (-1 - pos). split; [|split].
      * destruct Hsp as [Hm _]. rewrite len_fmap in Hm. exact Hm.
      * rewrite Hpos. f_equal. lia.
      * intros x Hx. rewrite <- Hx in Hsp.
        destruct (splice_sorted arr x (-1 - pos) Hsp) as [Hw Hstrict].
        split; [apply Hw, strictly_sorted_sorted, Hs | apply Hstrict, Hs].
Qed.

Lemma searchTag_index_or_insertion_point_witness :
  searchTag [a_script "DFLT"; a_script "latn"] "latn" = Ok 1
  /\ exists insertionIndex : Z,
       searchTag [a_script "DFLT"; a_script "latn"] "cyrl" = Ok (- insertionIndex - 1)
       /\ strictly_sorted_by_tag
            (splice_insert [a_script "DFLT"; a_script "latn"] insertionIndex
               (a_script "cyrl")).
Proof.
  assert (Hs : strictly_sorted_by_tag [a_script "DFLT"; a_script "latn"])
    by reflexivity.
  assert (Hfits : fits [a_script "DFLT"; a_script "latn"])
    by (vm_compute; discriminate).
  split.
  - apply (proj1 (searchTag_index_or_insertion_point _ "latn" Hs Hfits)
             1%nat (a_script "latn")); reflexivity.
  - destruct (proj2 (searchTag_index_or_insertion_point _ "cyrl" Hs Hfits))
      as (ins & _ & Hret & Hsplice).
    + intros r Hr.
      apply list_elem_of_In in Hr. simpl in Hr.
      destruct Hr as [<-|[<-|[]]]; discriminate.
    + exists ins. split; [exact Hret|]. apply (Hsplice (a_script "cyrl")). reflexivity.
Defined.

(** ** binSearch and searchRange *)

Lemma Z_ltb_trans (a b c : Z) : (a <? b) = true -> (b <? c) = true -> (a <? c) = true.
Proof. rewrite !Z.ltb_lt. lia. Qed.

Lemma Z_ltb_total (a b : Z) : (a =? b) = false -> (a <? b) = false -> (b <? a) = true.
Proof. rewrite Z.eqb_neq, Z.ltb_ge, Z.ltb_lt. lia. Qed.

Lemma binSearch_loop_bisect (fuel : nat) (arr : list Z) (value iMin iMax : Z)
    (p : probe) :
  bisect Z.eqb Z.ltb fuel arr value iMin iMax = Ok p ->
  binSearch_loop fuel arr value iMin iMax
  = Ok (match p with Hit i => i | Miss m => - m - 1 end).
Proof.
  revert iMin iMax. induction fuel as [|fuel IH]; intros iMin iMax; simpl.
  - discriminate.
  - destruct (iMin <=? iMax).
    + destruct (item arr (ushr1 (iMin + iMax))) as [val|]; [|discriminate].
      destruct (val =? value).
      * intros [= <-]. reflexivity.
      * destruct (val <? value); apply IH.
    + intros [= <-]. reflexivity.
Qed.

(** The glyph list of a format-1 Coverage table: a glyph is found where it
    is, a glyph that is not listed is not found. *)
Lemma binSearch_present (arr : list Z) (value : Z) (i : nat) :
  strictly_ascending arr -> fits arr -> arr !! i = Some value ->
  binSearch arr value = Ok (Z.of_nat i).
Proof.
  intros Hs Hfits Hi. unfold binSearch.
  apply (binSearch_loop_bisect _ _ _ _ _ (Hit (Z.of_nat i))).
  apply (bisect_hit Z.eqb Z.ltb Z.eqb_eq Z.ltb_irrefl Z_ltb_trans Z_ltb_total);
    [exact Hs | exact Hfits |].
  rewrite item_nat. exact Hi.
Qed.

Lemma binSearch_absent (arr : list Z) (value : Z) :
  strictly_ascending arr -> fits arr -> value ∉ arr ->
  exists m, 0 <= m /\ binSearch arr value = Ok (- m - 1).
Proof.
  intros Hs Hfits Hnot. unfold binSearch.
  destruct (bisect_miss Z.eqb Z.ltb Z.eqb_eq Z.ltb_irrefl Z_ltb_trans Z_ltb_total
              arr value
              (strict_not_above Z.ltb Z.ltb_irrefl Z_ltb_trans arr Hs) Hfits Hnot)
    as (m & Hb & Hm & _).
  exists m. split; [lia|].
  apply (binSearch_loop_bisect _ _ _ _ _ (Miss m)). exact Hb.
Qed.

Section SearchRange.

Context {R : Type} `{Ranged R}.

Lemma searchRange_loop_bisect (fuel : nat) (ranges : list R)
    (value iMin iMax : Z) (p : probe) :
  bisect Z.eqb Z.ltb fuel (start <$> ranges) value iMin iMax = Ok p ->
  match p with
  | Hit i => exists r, item ranges i = Some r /\ start r = value
                       /\ searchRange_loop fuel ranges value iMin iMax = Ok (inl r)
  | Miss m => searchRange_loop fuel ranges value iMin iMax = Ok (inr m)
  end.
Proof.
  revert iMin iMax. induction fuel as [|fuel IH]; intros iMin iMax; simpl.
  - discriminate.
  - destruct (iMin <=? iMax).
    + rewrite item_fmap.
      destruct (item ranges (ushr1 (iMin + iMax))) as [r|] eqn:Hr;
        simpl; [|discriminate].
      destruct (start r =? value) eqn:E.
      * intros [= <-]. exists r. apply Z.eqb_eq in E. auto.
      * destruct (start r <? value); apply IH.
    + intros [= <-]. reflexivity.
Qed.

(** In ascending ranges, a range that comes earlier ends before a later
    one starts, and no range is empty. *)
Lemma ranges_ascending_lookup (ranges : list R) (i j : nat) (r r' : R) :
  ranges_ascending ranges ->
  ranges !! i = Some r -> ranges !! j = Some r' ->
  start r <= end_ r /\ ((i < j)%nat -> end_ r < start r').
Proof.
  intros [Hne Hasc] Hi Hj.
  assert (Hall : forall k x, ranges !! k = Some x -> start x <= end_ x).
  { intros k x Hk. rewrite forallb_forall in Hne.
    apply Z.leb_le, Hne, list_elem_of_In. eapply list_elem_of_lookup_2, Hk. }
  split; [eapply Hall, Hi|]. intros Hij.
  set (strong := fun a b : R =>
         (end_ a <? start b) && (start a <=? end_ a) && (start b <=? end_ b)).
  assert (Hstrong : ascending_by strong ranges = true).
  { clear Hi Hj Hij. induction ranges as [|a l IH]; [reflexivity|].
    simpl in *. destruct l as [|b l]; [reflexivity|].
    apply andb_true_iff in Hasc as [Hab Hl].
    apply andb_true_iff. split.
    - unfold strong. rewrite Hab. simpl.
      apply andb_true_iff.
      split; apply Z.leb_le; [apply (Hall 0%nat) | apply (Hall 1%nat)]; reflexivity.
    - apply IH; [| exact Hl |].
      + simpl in Hne. apply andb_true_iff in Hne as [_ Hne]. exact Hne.
      + intros k x Hk. apply (Hall (S k)). exact Hk. }
  assert (Htrans : forall a b c, strong a b = true -> strong b c = true ->
                                 strong a c = true).
  { unfold strong. intros a b c.
    rewrite !andb_true_iff, !Z.ltb_lt, !Z.leb_le. lia. }
  pose proof (ascending_by_lookup strong ranges Htrans Hstrong i j r r' Hij Hi Hj) as S.
  unfold strong in S. rewrite !andb_true_iff, Z.ltb_lt in S. tauto.
Qed.

Lemma ranges_starts_ascending (ranges : list R) :
  ranges_ascending ranges -> ascending_by Z.ltb (start <$> ranges) = true.
Proof.
  intros [Hne Hasc]. rewrite ascending_by_fmap.
  induction ranges as [|a l IH]; [reflexivity|].
  simpl in *. apply andb_true_iff in Hne as [Ha Hne].
  destruct l as [|b l]; [reflexivity|].
  apply andb_true_iff in Hasc as [Hab Hl].
  apply andb_true_iff. split; [|apply IH; assumption].
  apply Z.leb_le in Ha. apply Z.ltb_lt in Hab. apply Z.ltb_lt. lia.
Qed.

(** A glyph is in one range at most. *)
Lemma contains_unique (ranges : list R) (i j : nat) (r r' : R) (g : Z) :
  ranges_ascending ranges ->
  ranges !! i = Some r -> ranges !! j = Some r' ->
  contains r g -> contains r' g -> i = j.
Proof.
  intros Hasc Hi Hj Hr Hr'. unfold contains in *.
  destruct (ranges_ascending_lookup ranges i j r r' Hasc Hi Hj) as [_ Hij].
  destruct (ranges_ascending_lookup ranges j i r' r Hasc Hj Hi) as [_ Hji].
  destruct (Nat.lt_trichotomy i j) as [Hlt|[Heq|Hgt]]; [|exact Heq|].
  - specialize (Hij Hlt). lia.
  - specialize (Hji Hgt). lia.
Qed.

(** What [searchRange] returns on ascending ranges: the range that
    contains the glyph, or one of its two ways to say that there is none. *)
Lemma searchRange_spec (ranges : list R) (g : Z) :
  ranges_ascending ranges -> fits ranges ->
  exists out, searchRange ranges g = Ok out
    /\ match out with
       | Range r => exists i : nat, ranges !! i = Some r /\ contains r g
       | Zero | Nothing => forall r, r ∈ ranges -> ~ contains r g
       end.
Proof.
  intros Hasc Hfits.
  pose proof (bisect_whole Z.eqb Z.ltb Z.eqb_eq Z.ltb_irrefl Z_ltb_trans Z_ltb_total
                (start <$> ranges) g
                (strict_not_above Z.ltb Z.ltb_irrefl Z_ltb_trans _
                   (ranges_starts_ascending ranges Hasc))) as P.
  unfold fits in *. rewrite len_fmap, length_fmap in P. specialize (P Hfits).
  unfold searchRange.
  destruct (bisect Z.eqb Z.ltb (S (length ranges)) (start <$> ranges) g 0
              (len ranges - 1)) as [[i|m]| |] eqn:Hb; simpl in P; try contradiction.
  - apply searchRange_loop_bisect in Hb as (r & Hr & Hstart & Hloop).
    rewrite Hloop. simpl. exists (Range r). split; [reflexivity|].
    apply item_Some in Hr as [Hi0 Hr]. exists (Z.to_nat i). split; [exact Hr|].
    destruct (ranges_ascending_lookup ranges _ _ r r Hasc Hr Hr) as [Hne _].
    unfold contains. lia.
  - apply searchRange_loop_bisect in Hb. rewrite Hb. simpl.
    destruct P as (Hm & Hlo & Hhi). rewrite len_fmap in Hm.
    assert (Hbelow : forall (j : nat) r, ranges !! j = Some r -> contains r g ->
                                         Z.of_nat j < m).
    { intros j r Hj Hc. destruct (Z.lt_ge_cases (Z.of_nat j) m) as [|Hge]; [assumption|].
      specialize (Hhi (Z.of_nat j) (start r) Hge).
      rewrite item_fmap, item_nat, Hj in Hhi. specialize (Hhi eq_refl).
      apply Z.ltb_lt in Hhi. unfold contains in Hc. lia. }
    destruct (Z.gtb_spec m 0) as [Hpos|Hzero].
    + destruct (item_in_range ranges (m - 1) ltac:(lia)) as [r' Hr'].
      rewrite Hr'. apply item_Some in Hr' as [_ Hr'].
      specialize (Hlo (m - 1) (start r') ltac:(lia)).
      rewrite item_fmap in Hlo. unfold item in Hlo.
      destruct (Z.ltb_spec (m - 1) 0); [lia|]. rewrite Hr' in Hlo.
      specialize (Hlo eq_refl). apply Z.ltb_lt in Hlo.
      destruct (Z.gtb_spec g (end_ r')) as [Hout|Hin].
      * exists Zero. split; [reflexivity|].
        intros r Hr Hc. apply list_elem_of_lookup_1 in Hr as [j Hj].
        pose proof (Hbelow j r Hj Hc) as Hjm.
        destruct (ranges_ascending_lookup ranges j (Z.to_nat (m - 1)) r r' Hasc Hj Hr')
          as [_ Hlt].
        destruct (Nat.eq_dec j (Z.to_nat (m - 1))) as [->|Hne].
        -- assert (r = r') by congruence. subst. unfold contains in Hc. lia.
        -- specialize (Hlt ltac:(lia)). unfold contains in Hc. lia.
      * exists (Range r'). split; [reflexivity|].
        exists (Z.to_nat (m - 1)). split; [exact Hr'|]. unfold contains. lia.
    + exists Nothing. split; [reflexivity|].
      intros r Hr Hc. apply list_elem_of_lookup_1 in Hr as [j Hj].
      pose proof (Hbelow j r Hj Hc). lia.
Qed.

(** The range that contains the glyph is the one returned. *)
Lemma searchRange_contains (ranges : list R) (g : Z) (r : R) :
  ranges_ascending ranges -> fits ranges ->
  r ∈ ranges -> contains r g -> searchRange ranges g = Ok (Range r).
Proof.
  intros Hasc Hfits Hr Hc.
  destruct (searchRange_spec ranges g Hasc Hfits) as (out & Hout & Hpost).
  rewrite Hout. destruct out as [r'| |].
  - destruct Hpost as (i & Hi & Hc').
    apply list_elem_of_lookup_1 in Hr as [j Hj].
    pose proof (contains_unique ranges i j r' r g Hasc Hi Hj Hc' Hc). subst.
    congruence.
  - exfalso. eapply Hpost; eassumption.
  - exfalso. eapply Hpost; eassumption.
Qed.

End SearchRange.

(** ** Coverage tables *)

Lemma ascending_by_adjacent {A} (R : A -> A -> bool) (l : list A) :
  (forall (i : nat) x y, l !! i = Some x -> l !! S i = Some y -> R x y = true) ->
  ascending_by R l = true.
Proof.
  induction l as [|a l IH]; intros Hadj; [reflexivity|].
  simpl. destruct l as [|b l]; [reflexivity|].
  apply andb_true_iff. split.
  - apply (Hadj 0%nat); reflexivity.
  - apply IH. intros i x y Hx Hy. apply (Hadj (S i)); assumption.
Qed.

Lemma ascending_by_app {A} (R : A -> A -> bool) (l1 l2 : list A) :
  ascending_by R l1 = true -> ascending_by R l2 = true ->
  (forall x y, x ∈ l1 -> y ∈ l2 -> R x y = true) ->
  ascending_by R (l1 ++ l2) = true.
Proof.
  intros H1 H2 Hcross. induction l1 as [|a l1 IH]; [exact H2|].
  apply ascending_by_cons in H1 as [H1 Hhead].
  assert (IH' : ascending_by R (l1 ++ l2) = true).
  { apply IH; [exact H1|]. intros x y Hx Hy.
    apply Hcross; [apply list_elem_of_further, Hx | exact Hy]. }
  simpl. destruct (l1 ++ l2) as [|b rest] eqn:E; [reflexivity|].
  apply andb_true_iff. split; [|exact IH'].
  destruct l1 as [|c l1]; simpl in E.
  - apply Hcross; [apply list_elem_of_here|]. rewrite E. apply list_elem_of_here.
  - injection E as <- _. apply Hhead. reflexivity.
Qed.

Lemma strictly_ascending_lookup (l : list Z) (i j : nat) (x y : Z) :
  strictly_ascending l -> (i < j)%nat -> l !! i = Some x -> l !! j = Some y -> x < y.
Proof.
  intros Hs Hij Hi Hj. apply Z.ltb_lt.
  exact (ascending_by_lookup Z.ltb l Z_ltb_trans Hs i j x y Hij Hi Hj).
Qed.

(** A glyph has one position in a strictly ascending list. *)
Lemma strictly_ascending_position (l : list Z) (i j : nat) (x : Z) :
  strictly_ascending l -> l !! i = Some x -> l !! j = Some x -> i = j.
Proof.
  intros Hs Hi Hj.
  destruct (Nat.lt_trichotomy i j) as [Hlt|[Heq|Hgt]]; [|exact Heq|].
  - pose proof (strictly_ascending_lookup l i j x x Hs Hlt Hi Hj). lia.
  - pose proof (strictly_ascending_lookup l j i x x Hs Hgt Hj Hi). lia.
Qed.

(** Two strictly ascending lists with the same elements are the same
    list. *)
Lemma strictly_ascending_ext (l1 l2 : list Z) :
  strictly_ascending l1 -> strictly_ascending l2 ->
  (forall x, x ∈ l1 <-> x ∈ l2) -> l1 = l2.
Proof.
  assert (Hmin : forall a l z, strictly_ascending (a :: l) -> z ∈ l -> a < z).
  { intros a l z Hs Hz. apply list_elem_of_lookup_1 in Hz as [j Hj].
    apply (strictly_ascending_lookup (a :: l) 0 (S j)); [exact Hs | lia | reflexivity | exact Hj]. }
  revert l2. induction l1 as [|x l1 IH]; intros [|y l2] Hs1 Hs2 Hext.
  - reflexivity.
  - exfalso. apply (not_elem_of_nil y), Hext, list_elem_of_here.
  - exfalso. apply (not_elem_of_nil x), Hext, list_elem_of_here.
  - assert (x = y).
    { pose proof (proj1 (Hext x) (list_elem_of_here _ _)) as Hx.
      pose proof (proj2 (Hext y) (list_elem_of_here _ _)) as Hy.
      apply elem_of_cons in Hx as [Hx|Hx]; [exact Hx|].
      apply elem_of_cons in Hy as [Hy|Hy]; [congruence|].
      pose proof (Hmin _ _ _ Hs2 Hx). pose proof (Hmin _ _ _ Hs1 Hy). lia. }
    subst y. f_equal. apply IH.
    + apply ascending_by_cons in Hs1 as [Hs1 _]. exact Hs1.
    + apply ascending_by_cons in Hs2 as [Hs2 _]. exact Hs2.
    + intros z. split; intros Hz.
      * pose proof (proj1 (Hext z) (list_elem_of_further _ _ _ Hz)) as Hz'.
        apply elem_of_cons in Hz' as [->|Hz']; [|exact Hz'].
        pose proof (Hmin _ _ _ Hs1 Hz). lia.
      * pose proof (proj2 (Hext z) (list_elem_of_further _ _ _ Hz)) as Hz'.
        apply elem_of_cons in Hz' as [->|Hz']; [|exact Hz'].
        pose proof (Hmin _ _ _ Hs2 Hz). lia.
Qed.

Lemma seqZ_ascending (m n : Z) : strictly_ascending (seqZ m n).
Proof.
  apply ascending_by_adjacent. intros i x y Hx Hy.
  apply lookup_seqZ in Hx as [-> _]. apply lookup_seqZ in Hy as [-> _].
  apply Z.ltb_lt. lia.
Qed.

(** The loops of [expandCoverage] push the glyphs of each range in turn. *)
Lemma push_from_seqZ (n : nat) (j : Z) (glyphs : list Z) :
  push_from j n glyphs = glyphs ++ seqZ j (Z.of_nat n).
Proof.
  revert j glyphs. induction n as [|n IH]; intros j glyphs.
  - simpl. rewrite seqZ_nil by lia. rewrite app_nil_r. reflexivity.
  - simpl push_from. rewrite IH. unfold push. rewrite <- app_assoc. f_equal.
    rewrite (seqZ_cons j (Z.of_nat (S n))) by lia. simpl. f_equal. f_equal. lia.
Qed.

Lemma push_range_seqZ (glyphs : list Z) (r : Coverage.RangeRecord) :
  push_range glyphs r = glyphs ++ seqZ (start r) (end_ r - start r + 1).
Proof.
  unfold push_range. rewrite push_from_seqZ. f_equal.
  destruct (Z.le_gt_cases 0 (end_ r - start r + 1)).
  - rewrite Z2Nat.id by assumption. reflexivity.
  - rewrite Z2Nat.nonpos by lia. rewrite !seqZ_nil by lia. reflexivity.
Qed.

Lemma fold_push_range (ranges : list Coverage.RangeRecord) (glyphs : list Z) :
  fold_left push_range ranges glyphs = glyphs ++ glyphs_of ranges.
Proof.
  revert glyphs. induction ranges as [|r ranges IH]; intros glyphs.
  - simpl. rewrite app_nil_r. reflexivity.
  - simpl fold_left. rewrite IH, push_range_seqZ, <- app_assoc. reflexivity.
Qed.

Lemma expandCoverage_ranges (c : Coverage.t) :
  Coverage.format c <> 1 -> expandCoverage c = glyphs_of (Coverage.ranges c).
Proof.
  intros Hf. unfold expandCoverage.
  destruct (Z.eqb_spec (Coverage.format c) 1); [contradiction|].
  apply fold_push_range.
Qed.

Lemma elem_of_glyphs_of (ranges : list Coverage.RangeRecord) (g : Z) :
  g ∈ glyphs_of ranges <-> exists r, r ∈ ranges /\ contains r g.
Proof.
  unfold glyphs_of. rewrite list_elem_of_bind. unfold contains.
  split; intros (r & H1 & H2); exists r.
  - apply elem_of_seqZ in H1. split; [exact H2 | lia].
  - split; [apply elem_of_seqZ; lia | exact H1].
Qed.

Lemma ranges_ascending_tail (r : Coverage.RangeRecord) (ranges : list Coverage.RangeRecord) :
  ranges_ascending (r :: ranges) -> ranges_ascending ranges.
Proof.
  intros [Hne Hasc]. split.
  - simpl in Hne. apply andb_true_iff in Hne as [_ Hne]. exact Hne.
  - apply ascending_by_cons in Hasc as [Hasc _]. exact Hasc.
Qed.

(** The glyphs of ascending ranges are strictly ascending. *)
Lemma glyphs_of_ascending (ranges : list Coverage.RangeRecord) :
  ranges_ascending ranges -> strictly_ascending (glyphs_of ranges).
Proof.
  induction ranges as [|r ranges IH]; intros Hasc; [reflexivity|].
  change (glyphs_of (r :: ranges))
    with (seqZ (start r) (end_ r - start r + 1) ++ glyphs_of ranges).
  apply ascending_by_app.
  - apply seqZ_ascending.
  - apply IH. eapply ranges_ascending_tail, Hasc.
  - intros x y Hx Hy. apply elem_of_seqZ in Hx.
    apply elem_of_glyphs_of in Hy as (r' & Hr' & Hc).
    apply list_elem_of_lookup_1 in Hr' as [j Hj].
    destruct (ranges_ascending_lookup (r :: ranges) 0 (S j) r r' Hasc eq_refl Hj)
      as [_ Hlt].
    specialize (Hlt ltac:(lia)). unfold contains in Hc. apply Z.ltb_lt. lia.
Qed.

(** Where a covered glyph stands among the glyphs of the ranges. *)
Lemma glyphs_of_position (ranges : list Coverage.RangeRecord) (i : nat)
    (r : Coverage.RangeRecord) (g : Z) :
  ranges !! i = Some r -> contains r g ->
  glyphs_of ranges !! (length (glyphs_of (take i ranges)) + Z.to_nat (g - start r))%nat
  = Some g.
Proof.
  revert i. induction ranges as [|r0 ranges IH]; intros i Hi Hc; [discriminate|].
  change (glyphs_of (r0 :: ranges))
    with (seqZ (start r0) (end_ r0 - start r0 + 1) ++ glyphs_of ranges).
  destruct i as [|i]; simpl in Hi.
  - injection Hi as ->. unfold contains in Hc.
    replace (length (glyphs_of (take 0 (r :: ranges)))) with 0%nat by reflexivity.
    rewrite lookup_app_l by (rewrite length_seqZ; lia).
    apply lookup_seqZ. lia.
  - change (glyphs_of (take (S i) (r0 :: ranges)))
      with (seqZ (start r0) (end_ r0 - start r0 + 1) ++ glyphs_of (take i ranges)).
    rewrite length_app, <- Nat.add_assoc.
    rewrite lookup_app_r by lia.
    rewrite Nat.add_comm, Nat.add_sub.
    apply IH; assumption.
Qed.

Lemma getCoverageIndex_in_range (c : Coverage.t) (r : Coverage.RangeRecord) (g : Z) :
  Coverage.format c = 2 ->
  ranges_ascending (Coverage.ranges c) -> fits (Coverage.ranges c) ->
  r ∈ Coverage.ranges c -> contains r g ->
  getCoverageIndex c g = Ok (Some (Coverage.index r + (g - start r))).
Proof.
  intros Hf Hasc Hfits Hr Hc. unfold getCoverageIndex. rewrite Hf. simpl.
  rewrite (searchRange_contains _ g r Hasc Hfits Hr Hc). simpl.
  do 2 f_equal. lia.
Qed.

Lemma getCoverageIndex_outside (c : Coverage.t) (g : Z) :
  Coverage.format c = 2 ->
  ranges_ascending (Coverage.ranges c) -> fits (Coverage.ranges c) ->
  g ∉ glyphs_of (Coverage.ranges c) ->
  getCoverageIndex c g = Ok (Some (-1)).
Proof.
  intros Hf Hasc Hfits Hout. unfold getCoverageIndex. rewrite Hf. simpl.
  destruct (searchRange_spec (Coverage.ranges c) g Hasc Hfits) as (out & -> & Hpost).
  destruct out as [r| |]; simpl; try reflexivity.
  destruct Hpost as (i & Hi & Hc). exfalso. apply Hout.
  apply elem_of_glyphs_of. exists r. split; [|exact Hc].
  eapply list_elem_of_lookup_2, Hi.
Qed.

(** With the [index] of each range the position of its first glyph, the
    coverage index of a covered glyph is its position. *)
Lemma getCoverageIndex_ranges_position (c : Coverage.t) (k : nat) (g : Z) :
  Coverage.format c = 2 ->
  ranges_ascending (Coverage.ranges c) -> fits (Coverage.ranges c) ->
  (forall r, r ∈ Coverage.ranges c ->
     item (glyphs_of (Coverage.ranges c)) (Coverage.index r) = Some (start r)) ->
  glyphs_of (Coverage.ranges c) !! k = Some g ->
  getCoverageIndex c g = Ok (Some (Z.of_nat k)).
Proof.
  intros Hf Hasc Hfits Hidx Hk.
  pose proof (glyphs_of_ascending _ Hasc) as Hs.
  assert (Hg : g ∈ glyphs_of (Coverage.ranges c)) by (eapply list_elem_of_lookup_2, Hk).
  apply elem_of_glyphs_of in Hg as (r & Hr & Hc).
  rewrite (getCoverageIndex_in_range c r g Hf Hasc Hfits Hr Hc).
  pose proof (Hidx r Hr) as Hfirst. apply item_Some in Hfirst as [Hi0 Hfirst].
  apply list_elem_of_lookup_1 in Hr as [i Hi].
  assert (Hc0 : contains r (start r)).
  { unfold contains in *. lia. }
  pose proof (glyphs_of_position _ i r (start r) Hi Hc0) as P0.
  pose proof (glyphs_of_position _ i r g Hi Hc) as P.
  pose proof (strictly_ascending_position _ _ _ _ Hs Hfirst P0) as E0.
  pose proof (strictly_ascending_position _ _ _ _ Hs Hk P) as E.
  unfold contains in Hc. do 2 f_equal. lia.
Qed.

(** C5: for every Coverage table in format 1 or format 2 that represents
    a known ascending duplicate-free set of glyph ids, [getCoverageIndex]
    gives the position in the set of every covered glyph, and -1 for every
    glyph outside of the set; in format 2 the value for a covered glyph is
    [range.index + (g - range.start)] for the range that contains it. The
    arrays are of at most 2^31 entries. *)
Theorem getCoverageIndex_position (c : Coverage.t) (set : list Z) :
  represents c set ->
  fits (Coverage.glyphs c) ->
  fits (Coverage.ranges c) ->
  (forall (k : nat) (g : Z),
      set !! k = Some g -> getCoverageIndex c g = Ok (Some (Z.of_nat k)))
  /\ (forall g : Z, g ∉ set -> getCoverageIndex c g = Ok (Some (-1)))
  /\ (Coverage.format c = 2 ->
      forall (r : Coverage.RangeRecord) (g : Z),
        r ∈ Coverage.ranges c -> contains r g ->
        getCoverageIndex c g = Ok (Some (Coverage.index r + (g - start r)))).
Proof.
  intros [Hs [[Hf Hset] | (Hf & Hasc & Hmem & Hidx)]] Hfg Hfr.
  - subst set. repeat split.
    + intros k g Hk. unfold getCoverageIndex. rewrite Hf. simpl.
      rewrite (binSearch_present _ g k Hs Hfg Hk). simpl.
      destruct (Z.geb_spec (Z.of_nat k) 0); [reflexivity | lia].
    + intros g Hout. unfold getCoverageIndex. rewrite Hf. simpl.
      destruct (binSearch_absent _ g Hs Hfg Hout) as (m & Hm & ->). simpl.
      destruct (Z.geb_spec (- m - 1) 0); [lia | reflexivity].
    + intros Hf2. congruence.
  - assert (set = glyphs_of (Coverage.ranges c)) as ->.
    { apply strictly_ascending_ext; [exact Hs | apply glyphs_of_ascending, Hasc |].
      intros x. rewrite elem_of_glyphs_of. apply Hmem. }
    repeat split.
    + intros k g Hk. apply getCoverageIndex_ranges_position; assumption.
    + intros g Hout. apply getCoverageIndex_outside; assumption.
    + intros _ r g Hr Hc. apply getCoverageIndex_in_range; assumption.
Qed.

Lemma coverage_2_4_10_represents : represents coverage_2_4_10 [2; 3; 4; 10].
Proof.
  split; [reflexivity|]. right. split; [reflexivity|].
  split; [split; reflexivity|]. split.
  - intros g.
    change ([2; 3; 4; 10]) with (glyphs_of (Coverage.ranges coverage_2_4_10)).
    apply elem_of_glyphs_of.
  - intros r Hr. apply list_elem_of_In in Hr. simpl in Hr.
    destruct Hr as [<-|[<-|[]]]; reflexivity.
Qed.

Lemma getCoverageIndex_position_witness :
  getCoverageIndex coverage_2_4_10 10 = Ok (Some 3)
  /\ getCoverageIndex coverage_2_4_10 7 = Ok (Some (-1)).
Proof.
  destruct (getCoverageIndex_position coverage_2_4_10 [2; 3; 4; 10]
              coverage_2_4_10_represents
              ltac:(vm_compute; discriminate) ltac:(vm_compute; discriminate))
    as (Hin & Hout & _).
  split.
  - apply (Hin 3%nat 10). reflexivity.
  - apply Hout. intros Hin7. apply list_elem_of_In in Hin7. simpl in Hin7.
    intuition discriminate.
Defined.

(** C6: for every format-2 Coverage table whose ranges are ascending and
    do not overlap, and whose [index] fields are the coverage indexes of the
    first glyphs of the ranges (the position of the first glyph of each range
    in [glyphs_of], the glyph ids of the ranges, range after range),
    [expandCoverage] gives the full sequence of the covered glyph ids, which
    is [glyphs_of] the ranges and is every ascending set the table
    represents, ascending and without duplicates, and [getCoverageIndex] of
    the glyph at position [k] of that sequence is [k]; for the ranges
    [{2,4}, {10,10}] the sequence is [2, 3, 4, 10]. *)
Theorem expandCoverage_getCoverageIndex_roundtrip :
  (forall c : Coverage.t,
      Coverage.format c = 2 ->
      ranges_ascending (Coverage.ranges c) ->
      fits (Coverage.ranges c) ->
      (forall r, r ∈ Coverage.ranges c ->
         item (glyphs_of (Coverage.ranges c)) (Coverage.index r) = Some (start r)) ->
      expandCoverage c = glyphs_of (Coverage.ranges c)
      /\ strictly_ascending (expandCoverage c)
      /\ (forall g : Z,
            g ∈ expandCoverage c <-> exists r, r ∈ Coverage.ranges c /\ contains r g)
      /\ (forall (k : nat) (g : Z),
            expandCoverage c !! k = Some g ->
            getCoverageIndex c g = Ok (Some (Z.of_nat k)))
      /\ (forall set : list Z, represents c set -> expandCoverage c = set))
  /\ expandCoverage coverage_2_4_10 = [2; 3; 4; 10].
Proof.
  split; [|reflexivity].
  intros c Hf Hasc Hfits Hidx.
  rewrite expandCoverage_ranges by lia.
  split; [reflexivity|].
  split; [apply glyphs_of_ascending, Hasc|].
  split; [intros g; apply elem_of_glyphs_of|].
  split; [intros k g Hk; apply getCoverageIndex_ranges_position; assumption|].
  intros set [Hset [[Hf1 _] | (_ & _ & Hmem & _)]]; [lia|].
  apply strictly_ascending_ext; [apply glyphs_of_ascending, Hasc | exact Hset|].
  intros x. rewrite elem_of_glyphs_of, Hmem. reflexivity.
Qed.

Lemma expandCoverage_getCoverageIndex_roundtrip_witness :
  strictly_ascending (expandCoverage coverage_2_4_10)
  /\ getCoverageIndex coverage_2_4_10 2 = Ok (Some 0)
  /\ getCoverageIndex coverage_2_4_10 3 = Ok (Some 1)
  /\ getCoverageIndex coverage_2_4_10 4 = Ok (Some 2)
  /\ getCoverageIndex coverage_2_4_10 10 = Ok (Some 3).
Proof.
  destruct (proj1 expandCoverage_getCoverageIndex_roundtrip coverage_2_4_10)
    as (_ & Hs & _ & Hk & _).
  - reflexivity.
  - split; reflexivity.
  - vm_compute. discriminate.
  - intros r Hr. apply list_elem_of_In in Hr. simpl in Hr.
    destruct Hr as [<-|[<-|[]]]; reflexivity.
  - split; [exact Hs|].
    split; [apply (Hk 0%nat); reflexivity|].
    split; [apply (Hk 1%nat); reflexivity|].
    split; [apply (Hk 2%nat); reflexivity | apply (Hk 3%nat); reflexivity].
Defined.

(** ** ClassDef tables *)

(** C7: in format 1, [getGlyphClass] returns the class stored at position
    [g - startGlyph] when [startGlyph <= g < startGlyph + classes.length],
    and 0 otherwise; in format 2, it returns the [classId] of the range,
    among ascending ranges that do not overlap, that contains [g], and 0 when
    no range does. For [startGlyph = 5] and classes [1, 2, 0], the glyphs 5,
    6, 7 are of class 1, 2, 0 and the glyphs 4 and 8 of class 0. *)
Theorem getGlyphClass_classifies :
  (forall (t : ClassDef.t) (g : Z),
      ClassDef.format t = 1 ->
      (ClassDef.startGlyph t <= g
         < ClassDef.startGlyph t + len (ClassDef.classes t) ->
       exists class : Z,
         ClassDef.classes t !! Z.to_nat (g - ClassDef.startGlyph t) = Some class
         /\ getGlyphClass t g = Ok (Some class))
      /\ (~ (ClassDef.startGlyph t <= g
               < ClassDef.startGlyph t + len (ClassDef.classes t)) ->
          getGlyphClass t g = Ok (Some 0)))
  /\ (forall (t : ClassDef.t) (g : Z),
        ClassDef.format t = 2 ->
        ranges_ascending (ClassDef.ranges t) ->
        fits (ClassDef.ranges t) ->
        (forall r, r ∈ ClassDef.ranges t -> contains r g ->
           getGlyphClass t g = Ok (Some (ClassDef.classId r)))
        /\ ((forall r, r ∈ ClassDef.ranges t -> ~ contains r g) ->
            getGlyphClass t g = Ok (Some 0)))
  /\ getGlyphClass classDef_5 <$> [5; 6; 7; 4; 8]
     = [Ok (Some 1); Ok (Some 2); Ok (Some 0); Ok (Some 0); Ok (Some 0)].
Proof.
  split; [|split; [|reflexivity]].
  - intros t g Hf. unfold getGlyphClass. rewrite Hf. simpl. split.
    + intros Hin.
      destruct (Z.leb_spec (ClassDef.startGlyph t) g); [|lia].
      destruct (Z.ltb_spec g (ClassDef.startGlyph t + len (ClassDef.classes t)));
        [|lia].
      simpl.
      destruct (item_in_range (ClassDef.classes t) (g - ClassDef.startGlyph t)
                  ltac:(lia)) as [class Hclass].
      exists class. rewrite Hclass. split; [|reflexivity].
      apply item_Some in Hclass. tauto.
    + intros Hout.
      destruct (Z.leb_spec (ClassDef.startGlyph t) g); [|reflexivity].
      destruct (Z.ltb_spec g (ClassDef.startGlyph t + len (ClassDef.classes t)));
        [lia | reflexivity].
  - intros t g Hf Hasc Hfits. unfold getGlyphClass. rewrite Hf. simpl. split.
    + intros r Hr Hc.
      rewrite (searchRange_contains _ g r Hasc Hfits Hr Hc). reflexivity.
    + intros Hnone.
      destruct (searchRange_spec (ClassDef.ranges t) g Hasc Hfits)
        as (out & -> & Hpost).
      destruct out as [r| |]; simpl; try reflexivity.
      destruct Hpost as (i & Hi & Hc). exfalso.
      apply (Hnone r); [eapply list_elem_of_lookup_2, Hi | exact Hc].
Qed.

Lemma getGlyphClass_classifies_witness :
  getGlyphClass classDef_5 6 = Ok (Some 2)
  /\ getGlyphClass classDef_5 8 = Ok (Some 0)
  /\ getGlyphClass classDef_ranges 4 = Ok (Some 1)
  /\ getGlyphClass classDef_ranges 7 = Ok (Some 0).
Proof.
  destruct getGlyphClass_classifies as (H1 & H2 & _).
  destruct (H1 classDef_5 6 eq_refl) as [Hin _].
  destruct (H1 classDef_5 8 eq_refl) as [_ Hout].
  destruct (H2 classDef_ranges 4 eq_refl) as [Hr _];
    [split; reflexivity | vm_compute; discriminate |].
  destruct (H2 classDef_ranges 7 eq_refl) as [_ Hnone];
    [split; reflexivity | vm_compute; discriminate |].
  split; [|split; [|split]].
  - destruct Hin as (class & Hclass & Hret); [vm_compute; intuition discriminate|].
    rewrite Hret. simpl in Hclass. congruence.
  - apply Hout. vm_compute. intros [_ C]. discriminate C.
  - apply (Hr {| ClassDef.rr_start := 3; ClassDef.rr_end := 5; ClassDef.classId := 1 |}).
    + apply list_elem_of_here.
    + vm_compute. intuition discriminate.
  - apply Hnone. intros r Hr' Hc.
    apply list_elem_of_In in Hr'. simpl in Hr'. unfold contains in Hc.
    destruct Hr' as [<-|[<-|[]]]; simpl in Hc; lia.
Defined.

(** C10: the classification queries are not total over undocumented
    formats: for every ClassDef table whose format is neither 1 nor 2,
    [getGlyphClass] returns [undefined] (not 0, and no error), and for every
    Coverage table whose format is neither 1 nor 2, [getCoverageIndex]
    returns [undefined] (not -1, and no error). *)
Theorem undocumented_format_gives_undefined :
  (forall (classDefTable : ClassDef.t) (glyphIndex : Z),
      ClassDef.format classDefTable <> 1 ->
      ClassDef.format classDefTable <> 2 ->
      getGlyphClass classDefTable glyphIndex = Ok None)
  /\ (forall (coverageTable : Coverage.t) (glyphIndex : Z),
        Coverage.format coverageTable <> 1 ->
        Coverage.format coverageTable <> 2 ->
        getCoverageIndex coverageTable glyphIndex = Ok None).
Proof.
  split.
  - intros t g H1 H2. unfold getGlyphClass.
    destruct (Z.eqb_spec (ClassDef.format t) 1); [contradiction|].
    destruct (Z.eqb_spec (ClassDef.format t) 2); [contradiction|].
    reflexivity.
  - intros c g H1 H2. unfold getCoverageIndex.
    destruct (Z.eqb_spec (Coverage.format c) 1); [contradiction|].
    destruct (Z.eqb_spec (Coverage.format c) 2); [contradiction|].
    reflexivity.
Qed.

Lemma undocumented_format_gives_undefined_witness :
  getGlyphClass classDef_format_3 6 = Ok None
  /\ getCoverageIndex coverage_format_3 3 = Ok None.
Proof.
  split.
  - apply (proj1 undocumented_format_gives_undefined classDef_format_3 6);
      simpl; lia.
  - apply (proj2 undocumented_format_gives_undefined coverage_format_3 3);
      simpl; lia.
Defined.

(** ** Arrays changed in place *)

Lemma elem_of_splice_insert {A} (arr : list A) (m : Z) (a x : A) :
  x ∈ splice_insert arr m a <-> x = a \/ x ∈ arr.
Proof.
  unfold splice_insert. cbv zeta.
  rewrite elem_of_app, elem_of_cons.
  pose proof (elem_of_app (take (Z.to_nat (splice_pos arr m)) arr)
                (drop (Z.to_nat (splice_pos arr m)) arr) x) as E.
  rewrite take_drop in E. tauto.
Qed.

Lemma splice_pos_bounds {A} (arr : list A) (m : Z) :
  0 <= splice_pos arr m <= len arr.
Proof. unfold splice_pos, len. destruct (Z.ltb_spec m 0); lia. Qed.

(** The record spliced in stands where [splice_pos] says. *)
Lemma item_splice_insert {A} (arr : list A) (m : Z) (a : A) :
  item (splice_insert arr m a) (splice_pos arr m) = Some a.
Proof.
  pose proof (splice_pos_bounds arr m) as Hb. unfold len in Hb.
  apply item_Some. split; [lia|]. unfold splice_insert. cbv zeta.
  rewrite lookup_app_r by (rewrite length_take; lia).
  rewrite length_take.
  replace (Z.to_nat (splice_pos arr m) - Z.to_nat (splice_pos arr m) `min` length arr)%nat
    with 0%nat by lia.
  reflexivity.
Qed.

Lemma fmap_alter_at {A B} (g : A -> B) (f : A -> A) (i : Z) (arr : list A) :
  (forall a, g (f a) = g a) -> g <$> Layout.alter_at i f arr = g <$> arr.
Proof.
  intros Hgf. unfold Layout.alter_at. destruct (i <? 0); [reflexivity|].
  apply list_eq. intros j. rewrite !list_lookup_fmap, list_lookup_alter.
  destruct (decide (Z.to_nat i = j)) as [<-|]; [|reflexivity].
  destruct (arr !! Z.to_nat i); simpl; [|reflexivity]. rewrite Hgf. reflexivity.
Qed.

Lemma elem_of_alter_at {A} (f : A -> A) (i : Z) (arr : list A) (x : A) :
  x ∈ Layout.alter_at i f arr ->
  x ∈ arr \/ exists a, item arr i = Some a /\ x = f a.
Proof.
  unfold Layout.alter_at, item. destruct (i <? 0); [tauto|].
  intros Hx. apply list_elem_of_lookup_1 in Hx as [j Hj].
  rewrite list_lookup_alter in Hj.
  destruct (decide (Z.to_nat i = j)) as [<-|].
  - destruct (arr !! Z.to_nat i) as [a|]; simpl in Hj; [|discriminate].
    right. exists a. split; [reflexivity | congruence].
  - left. eapply list_elem_of_lookup_2, Hj.
Qed.

Lemma item_alter_at {A} (f : A -> A) (i : Z) (arr : list A) :
  item (Layout.alter_at i f arr) i = f <$> item arr i.
Proof.
  unfold Layout.alter_at, item. destruct (i <? 0) eqn:E; [reflexivity|].
  rewrite list_lookup_alter.
  destruct (decide (Z.to_nat i = Z.to_nat i)); [reflexivity | contradiction].
Qed.

Lemma item_elem_of {A} (arr : list A) (i : Z) (x : A) :
  item arr i = Some x -> x ∈ arr.
Proof. intros Hx. apply item_Some in Hx as [_ Hx]. eapply list_elem_of_lookup_2, Hx. Qed.

(** ** The methods of Layout keep the tables ascending *)

(** Closes the conjuncts of a case once its witnesses are given. *)
Ltac conclude :=
  repeat match goal with |- _ /\ _ => split end;
  try reflexivity; try assumption; try discriminate.

Section Ascending.

Context {Subtable : Type} (createDefaultTable : Table Subtable) (this : Layout.t).
Context (R : string -> string -> bool).
Hypothesis R_lower : forall a b, String.ltb a b = true -> R a b = true.
Hypothesis R_upper : forall a b, R a b = true -> String.leb a b = true.

Local Abbreviation name := (Layout.tableName this).

Lemma ascending_R_sorted {T : Type} `{Tagged T} (arr : list T) :
  ascending_by R (tag <$> arr) = true -> sorted_by_tag arr.
Proof. apply ascending_by_mono, R_upper. Qed.

Lemma splice_ascending {T : Type} `{Tagged T} (arr : list T) (x : T) (m : Z) :
  splits String.ltb (tag <$> arr) (tag x) m ->
  ascending_by R (tag <$> arr) = true ->
  ascending_by R (tag <$> splice_insert arr m x) = true.
Proof.
  intros Hsp Hasc.
  assert (Hm : 0 <= m <= len arr).
  { destruct Hsp as [Hm _]. rewrite len_fmap in Hm. exact Hm. }
  unfold splice_insert. rewrite (splice_pos_in_range arr m Hm).
  rewrite fmap_app, fmap_cons, fmap_take, fmap_drop.
  apply (splits_insert String.ltb); assumption.
Qed.

(** A change of the script at [s] that keeps the tags of its language
    systems ascending keeps the table ascending. *)
Lemma at_script_ascending (s : ScriptRef) (h : Script -> Script)
    (layout : Table Subtable) :
  (forall r, item (scripts layout) s = Some r ->
     ascending_by R (tag <$> langSysRecords (script r)) = true ->
     ascending_by R (tag <$> langSysRecords (h (script r))) = true) ->
  tables_ascending R layout ->
  tables_ascending R (Layout.at_script s h layout).
Proof.
  intros Hh [Hs Hrec]. split; simpl.
  - rewrite fmap_alter_at; [exact Hs | reflexivity].
  - intros r' Hr'. apply elem_of_alter_at in Hr' as [Hr'|(r & Hr & ->)].
    + apply Hrec, Hr'.
    + simpl. apply Hh; [exact Hr|]. apply Hrec. eapply item_elem_of, Hr.
Qed.

Lemma at_langSys_ascending (l : LangSysRef) (f : LangSys -> LangSys)
    (layout : Table Subtable) :
  tables_ascending R layout ->
  tables_ascending R (Layout.at_langSys l f layout).
Proof.
  intros Hasc. destruct l as [s|s i]; simpl; apply at_script_ascending; try exact Hasc.
  - intros r _ Hr. exact Hr.
  - intros r _ Hr. simpl. rewrite fmap_alter_at; [exact Hr | reflexivity].
Qed.

(** [getScriptTable] *)
Lemma getScriptTable_ascending (font : Layout.Font Subtable)
    (layout : Table Subtable) (script : string) (create : bool) :
  Layout.tables font !! name = Some layout ->
  tables_ascending R layout -> table_fits layout ->
  exists res font' layout',
    Layout.getScriptTable createDefaultTable this script create font = (res, font')
    /\ Layout.tables font' !! name = Some layout'
    /\ tables_ascending R layout' /\ records_fit layout'
    /\ res <> OutOfFuel.
Proof.
  intros HL [Hs Hrec] [Hfit Hrfit].
  destruct (searchTag_sorted (scripts layout) script (ascending_R_sorted _ Hs) Hfit)
    as (pos & Hpos & Hcase).
  unfold Layout.getScriptTable, mbind, Layout.M_bind, Layout.getTable.
  rewrite HL. unfold Layout.lift. rewrite Hpos.
  destruct Hcase as [(Hin & r & Hr & Htag) | (Hneg & Hsp)].
  - destruct (Z.geb_spec pos 0); [|lia]. rewrite Hr. simpl.
    exists (Ok (Some pos)), font, layout. repeat split; try assumption. discriminate.
  - destruct (Z.geb_spec pos 0); [lia|]. destruct create; simpl.
    + eexists _, _, _. split; [reflexivity|]. simpl.
      rewrite lookup_alter_eq, HL. simpl. split; [reflexivity|].
      split; [split|split]; simpl.
      * apply splice_ascending; assumption.
      * intros r Hr. apply elem_of_splice_insert in Hr as [->|Hr]; [reflexivity|].
        apply Hrec, Hr.
      * intros r Hr. apply elem_of_splice_insert in Hr as [->|Hr].
        -- vm_compute. discriminate.
        -- apply Hrfit, Hr.
      * discriminate.
    + exists (Ok None), font, layout. repeat split; try assumption. discriminate.
Qed.

(** [getLangSysTable] *)
Lemma getLangSysTable_ascending (font : Layout.Font Subtable)
    (layout : Table Subtable) (script language : string) (create : bool) :
  Layout.tables font !! name = Some layout ->
  tables_ascending R layout -> table_fits layout ->
  exists res font' layout',
    Layout.getLangSysTable createDefaultTable this script language create font
    = (res, font')
    /\ Layout.tables font' !! name = Some layout'
    /\ tables_ascending R layout'
    /\ res <> OutOfFuel.
Proof.
  intros HL Hasc Hfits.
  destruct (getScriptTable_ascending font layout script create HL Hasc Hfits)
    as (res1 & font1 & layout1 & Hget & HL1 & Hasc1 & Hrfit1 & Hres1).
  unfold Layout.getLangSysTable, mbind, Layout.M_bind. rewrite Hget.
  destruct res1 as [[s|]|e|]; [| | |contradiction].
  2:{ exists (Ok None), font1, layout1. conclude. }
  2:{ exists (Throw e), font1, layout1. conclude. }
  destruct (String.eqb language "dflt" || String.eqb language "DFLT").
  { eexists _, font1, layout1. conclude. }
  unfold Layout.the_table. rewrite HL1.
  unfold Layout.script_at.
  destruct (item (scripts layout1) s) as [r|] eqn:Hr; simpl.
  2:{ exists (Throw TypeError), font1, layout1. conclude. }
  pose proof (item_elem_of _ _ _ Hr) as Hin.
  pose proof Hasc1 as [Hs1 Hrec1].
  destruct (searchTag_sorted (langSysRecords (Graph.script r)) language
              (ascending_R_sorted _ (Hrec1 r Hin)) (Hrfit1 r Hin))
    as (pos & Hpos & Hcase).
  unfold Layout.lift. rewrite Hpos.
  destruct Hcase as [(Hpin & rec & Hrec & Htag) | (Hneg & Hsp)].
  - destruct (Z.geb_spec pos 0); [|lia]. rewrite Hrec. simpl.
    eexists _, font1, layout1. conclude.
  - destruct (Z.geb_spec pos 0); [lia|]. destruct create; simpl.
    + eexists _, _, _. split; [reflexivity|]. simpl.
      rewrite lookup_alter_eq, HL1. simpl. split; [reflexivity|].
      split; [|discriminate].
      apply at_script_ascending; [|assumption].
      intros r' Hr' Hrasc. simpl.
      assert (r' = r) by congruence. subst r'.
      apply splice_ascending; assumption.
    + exists (Ok None), font1, layout1. conclude.
Qed.

Lemma findFeature_fuel (allFeatures : list FeatureRecord) (featIndexes : list Z)
    (feature : string) :
  Layout.findFeature allFeatures featIndexes feature <> OutOfFuel.
Proof.
  induction featIndexes as [|i rest IH]; simpl; [discriminate|].
  destruct (item allFeatures i) as [fr|]; [|discriminate].
  destruct (String.eqb (tag fr) feature); [discriminate | exact IH].
Qed.

Lemma alphabetical_fuel (allFeatures : list FeatureRecord) (feature : string) :
  Layout.alphabetical allFeatures feature <> OutOfFuel.
Proof.
  unfold Layout.alphabetical. destruct (len allFeatures =? 0); [discriminate|].
  destruct (item allFeatures (len allFeatures - 1)); discriminate.
Qed.

Lemma collectLookups_fuel (allLookups : list (Lookup Subtable))
    (lookupListIndexes : list Z) (type : Z) (tables : list LookupRef) :
  Layout.collectLookups allLookups lookupListIndexes type tables <> OutOfFuel.
Proof.
  revert tables. induction lookupListIndexes as [|i rest IH]; intros tables; simpl;
    [discriminate|].
  destruct (item allLookups i); [apply IH | discriminate].
Qed.

(** [getFeatureTable] *)
Lemma getFeatureTable_ascending (font : Layout.Font Subtable)
    (layout : Table Subtable) (script language feature : string) (create : bool) :
  Layout.tables font !! name = Some layout ->
  tables_ascending R layout -> table_fits layout ->
  exists res font' layout',
    Layout.getFeatureTable createDefaultTable this script language feature create font
    = (res, font')
    /\ Layout.tables font' !! name = Some layout'
    /\ tables_ascending R layout'
    /\ res <> OutOfFuel.
Proof.
  intros HL Hasc Hfits.
  destruct (getLangSysTable_ascending font layout script language create HL Hasc Hfits)
    as (res1 & font1 & layout1 & Hget & HL1 & Hasc1 & Hres1).
  unfold Layout.getFeatureTable, mbind, Layout.M_bind. rewrite Hget.
  destruct res1 as [[l|]|e|]; [| | |contradiction].
  2:{ exists (Ok None), font1, layout1. conclude. }
  2:{ exists (Throw e), font1, layout1. conclude. }
  unfold Layout.the_table. rewrite HL1.
  destruct (Layout.langSys_at layout1 l) as [ls|]; simpl.
  2:{ exists (Throw TypeError), font1, layout1. conclude. }
  unfold Layout.lift.
  pose proof (findFeature_fuel (features layout1) (featureIndexes ls) feature) as Hff.
  destruct (Layout.findFeature (features layout1) (featureIndexes ls) feature)
    as [[i|]|e|]; [| | |contradiction].
  { eexists _, font1, layout1. conclude. }
  2:{ exists (Throw e), font1, layout1. conclude. }
  destruct create; [|exists (Ok None), font1, layout1; conclude].
  pose proof (alphabetical_fuel (features layout1) feature) as Hal.
  destruct (Layout.alphabetical (features layout1) feature) as [[|]|e|];
    [| | |contradiction]; simpl.
  - eexists _, _, _. split; [reflexivity|]. simpl.
    rewrite !lookup_alter_eq, HL1. simpl. split; [reflexivity|].
    split; [|discriminate].
    apply at_langSys_ascending. exact Hasc1.
  - eexists _, font1, layout1. conclude.
  - exists (Throw e), font1, layout1. conclude.
Qed.

(** [getLookupTables] *)
Lemma getLookupTables_ascending (font : Layout.Font Subtable)
    (layout : Table Subtable) (script language feature : string) (type : Z)
    (create : bool) :
  Layout.tables font !! name = Some layout ->
  tables_ascending R layout -> table_fits layout ->
  exists res font' layout',
    Layout.getLookupTables createDefaultTable this script language feature type
      create font = (res, font')
    /\ Layout.tables font' !! name = Some layout'
    /\ tables_ascending R layout'
    /\ res <> OutOfFuel.
Proof.
  intros HL Hasc Hfits.
  destruct (getFeatureTable_ascending font layout script language feature create
              HL Hasc Hfits)
    as (res1 & font1 & layout1 & Hget & HL1 & Hasc1 & Hres1).
  unfold Layout.getLookupTables, mbind, Layout.M_bind. rewrite Hget.
  destruct res1 as [[f|]|e|]; [| | |contradiction].
  2:{ eexists _, font1, layout1. conclude. }
  2:{ exists (Throw e), font1, layout1. conclude. }
  unfold Layout.the_table. rewrite HL1.
  destruct (Layout.feature_at layout1 f) as [ft|]; simpl.
  2:{ exists (Throw TypeError), font1, layout1. conclude. }
  unfold Layout.lift.
  pose proof (collectLookups_fuel (lookups layout1) (lookupListIndexes ft) type [])
    as Hcl.
  destruct (Layout.collectLookups (lookups layout1) (lookupListIndexes ft) type [])
    as [tables|e|]; [| |contradiction].
  2:{ exists (Throw e), font1, layout1. conclude. }
  destruct (_ && create); simpl.
  - eexists _, _, _. split; [reflexivity|]. simpl.
    rewrite !lookup_alter_eq, HL1. simpl. split; [reflexivity|].
    split; [exact Hasc1 | discriminate].
  - eexists _, font1, layout1. conclude.
Qed.

End Ascending.

(** ** The searches return *)

Lemma bisect_total {K} (eqb ltb : K -> K -> bool) (fuel : nat) (keys : list K)
    (k : K) :
  fits keys ->
  forall iMin iMax,
    0 <= iMin -> iMax < len keys -> iMin <= iMax + 1 ->
    iMax - iMin + 1 < Z.of_nat fuel ->
    exists p, bisect eqb ltb fuel keys k iMin iMax = Ok p.
Proof.
  intros Hfits. unfold fits in Hfits.
  induction fuel as [|fuel IH]; intros iMin iMax Hmin Hmax Hgap Hfuel; [lia|].
  simpl. destruct (Z.leb_spec iMin iMax) as [Hle|Hgt]; [|eauto].
  pose proof (ushr1_mid iMin iMax Hmin Hle ltac:(lia)) as Hmid.
  destruct (item_in_range keys (ushr1 (iMin + iMax)) ltac:(lia)) as [val ->].
  destruct (eqb val k); [eauto|].
  destruct (ltb val k); apply IH; lia.
Qed.

Lemma searchRange_fuel {R} `{Ranged R} (ranges : list R) (value : Z) :
  fits ranges -> searchRange ranges value <> OutOfFuel.
Proof.
  intros Hfits. unfold searchRange.
  destruct (bisect_total Z.eqb Z.ltb (S (length ranges)) (start <$> ranges) value)
    with (iMin := 0) (iMax := len ranges - 1) as [p Hp].
  - unfold fits in *. rewrite len_fmap. exact Hfits.
  - lia.
  - rewrite len_fmap. lia.
  - unfold len. lia.
  - unfold len. lia.
  - apply searchRange_loop_bisect in Hp. destruct p as [i|m].
    + destruct Hp as (r & _ & _ & ->). discriminate.
    + rewrite Hp. simpl. destruct (m >? 0); [|discriminate].
      destruct (item ranges (m - 1)) as [r|]; [|discriminate].
      destruct (value >? end_ r); discriminate.
Qed.

Lemma binSearch_fuel (arr : list Z) (value : Z) :
  fits arr -> binSearch arr value <> OutOfFuel.
Proof.
  intros Hfits. unfold binSearch.
  destruct (bisect_total Z.eqb Z.ltb (S (length arr)) arr value Hfits)
    with (iMin := 0) (iMax := len arr - 1) as [p Hp];
    [lia | lia | unfold len; lia | unfold len; lia |].
  rewrite (binSearch_loop_bisect _ _ _ _ _ p Hp). discriminate.
Qed.

Lemma getGlyphClass_fuel (classDefTable : ClassDef.t) (glyphIndex : Z) :
  fits (ClassDef.ranges classDefTable) ->
  getGlyphClass classDefTable glyphIndex <> OutOfFuel.
Proof.
  intros Hfits. unfold getGlyphClass.
  destruct (ClassDef.format classDefTable =? 1).
  { destruct (_ && _); discriminate. }
  destruct (ClassDef.format classDefTable =? 2); [|discriminate].
  pose proof (searchRange_fuel (ClassDef.ranges classDefTable) glyphIndex Hfits) as Hs.
  destruct (searchRange (ClassDef.ranges classDefTable) glyphIndex) as [[r| |]|e|];
    simpl; try discriminate. contradiction.
Qed.

Lemma getCoverageIndex_fuel (coverageTable : Coverage.t) (glyphIndex : Z) :
  fits (Coverage.glyphs coverageTable) -> fits (Coverage.ranges coverageTable) ->
  getCoverageIndex coverageTable glyphIndex <> OutOfFuel.
Proof.
  intros Hg Hr. unfold getCoverageIndex.
  destruct (Coverage.format coverageTable =? 1).
  { pose proof (binSearch_fuel (Coverage.glyphs coverageTable) glyphIndex Hg) as Hb.
    destruct (binSearch (Coverage.glyphs coverageTable) glyphIndex);
      simpl; try discriminate. contradiction. }
  destruct (Coverage.format coverageTable =? 2); [|discriminate].
  pose proof (searchRange_fuel (Coverage.ranges coverageTable) glyphIndex Hr) as Hs.
  destruct (searchRange (Coverage.ranges coverageTable) glyphIndex) as [[r| |]|e|];
    simpl; try discriminate. contradiction.
Qed.

(** ** Every call keeps the tables ascending *)

Section Calls.

Context {Subtable : Type} (createDefaultTable : Table Subtable) (this : Layout.t).
Context (R : string -> string -> bool).
Hypothesis R_lower : forall a b, String.ltb a b = true -> R a b = true.
Hypothesis R_upper : forall a b, R a b = true -> String.leb a b = true.

Lemma forget_outcome {A} (m : Layout.M Subtable A) (font font' : Layout.Font Subtable)
    (res : res A) :
  m font = (res, font') ->
  exists res', Layout.forget m font = (res', font')
               /\ (res <> OutOfFuel -> res' <> OutOfFuel).
Proof.
  intros Hm. unfold Layout.forget, mbind, Layout.M_bind. rewrite Hm.
  destruct res; eexists; (split; [reflexivity|]); intros; try discriminate.
  contradiction.
Qed.

Lemma run_ascending (c : Layout.call) (font : Layout.Font Subtable)
    (layout : Table Subtable) :
  Layout.tables font !! Layout.tableName this = Some layout ->
  tables_ascending R layout -> table_fits layout -> query_fits c ->
  exists res font' layout',
    Layout.run createDefaultTable this c font = (res, font')
    /\ Layout.tables font' !! Layout.tableName this = Some layout'
    /\ tables_ascending R layout'
    /\ res <> OutOfFuel.
Proof.
  intros HL Hasc Hfits Hq.
  assert (Hstay : forall A (m : Layout.M Subtable A) (r : res A),
             m font = (r, font) -> r <> OutOfFuel ->
             exists res font' layout',
               Layout.forget m font = (res, font')
               /\ Layout.tables font' !! Layout.tableName this = Some layout'
               /\ tables_ascending R layout' /\ res <> OutOfFuel).
  { intros A m r Hm Hr. destruct (forget_outcome m font font r Hm) as (res' & Hf & Hres).
    exists res', font, layout. conclude. apply Hres, Hr. }
  assert (Hmove : forall A (m : Layout.M Subtable A),
             (exists r font' layout', m font = (r, font')
                /\ Layout.tables font' !! Layout.tableName this = Some layout'
                /\ tables_ascending R layout' /\ r <> OutOfFuel) ->
             exists res font' layout',
               Layout.forget m font = (res, font')
               /\ Layout.tables font' !! Layout.tableName this = Some layout'
               /\ tables_ascending R layout' /\ res <> OutOfFuel).
  { intros A m (r & font' & layout' & Hm & HL' & Hasc' & Hr).
    destruct (forget_outcome m font font' r Hm) as (res' & Hf & Hres).
    exists res', font', layout'. conclude. apply Hres, Hr. }
  destruct c as [cr | | | sc cr | sc lang cr | sc lang feat cr | sc lang feat ty cr
                 | classDefTable glyphIndex | coverageTable glyphIndex
                 | coverageTable]; simpl.
  - apply (Hstay _ _ (Ok (Some layout))); [|discriminate].
    unfold Layout.getTable. rewrite HL. reflexivity.
  - apply (Hstay _ _ (Ok (tag <$> scripts layout))); [|discriminate].
    unfold Layout.getScriptNames, mbind, Layout.M_bind, Layout.getTable.
    rewrite HL. reflexivity.
  - apply (Hstay _ _ (Ok (Layout.getDefaultScriptName_loop (scripts layout) false)));
      [|discriminate].
    unfold Layout.getDefaultScriptName, mbind, Layout.M_bind, Layout.getTable.
    rewrite HL. reflexivity.
  - apply Hmove.
    destruct (getScriptTable_ascending createDefaultTable this R R_lower R_upper
                font layout sc cr HL Hasc Hfits)
      as (r & font' & layout' & H1 & H2 & H3 & _ & H4).
    exists r, font', layout'. conclude.
  - apply Hmove. eapply getLangSysTable_ascending; eassumption.
  - apply Hmove. eapply getFeatureTable_ascending; eassumption.
  - apply Hmove. eapply getLookupTables_ascending; eassumption.
  - apply (Hstay _ _ (getGlyphClass classDefTable glyphIndex)); [reflexivity|].
    apply getGlyphClass_fuel, Hq.
  - apply (Hstay _ _ (getCoverageIndex coverageTable glyphIndex)); [reflexivity|].
    destruct Hq. apply getCoverageIndex_fuel; assumption.
  - apply (Hstay _ _ (Ok (expandCoverage coverageTable))); [reflexivity|discriminate].
Qed.

End Calls.

(** ** The create paths *)

Section CreatePaths.

Context {Subtable : Type} (createDefaultTable : Table Subtable) (this : Layout.t).

(** [getScriptTable] with [create] set, for a script that is not there:
    the fresh record is spliced in at the insertion point of [searchTag]. *)
Lemma getScriptTable_create (font : Layout.Font Subtable) (layout : Table Subtable)
    (tg : string) :
  Layout.tables font !! Layout.tableName this = Some layout ->
  sorted_by_tag (scripts layout) -> fits (scripts layout) ->
  (forall r, r ∈ scripts layout -> tag r <> tg) ->
  exists insertionIndex : Z,
    0 <= insertionIndex <= len (scripts layout)
    /\ searchTag (scripts layout) tg = Ok (- insertionIndex - 1)
    /\ Layout.getScriptTable createDefaultTable this tg true font
       = (Ok (Some insertionIndex),
          {| Layout.tables :=
               alter (Layout.set_scripts (fun scripts =>
                        splice_insert scripts insertionIndex
                          {| sr_tag := tg;
                             script :=
                               {| defaultLangSys :=
                                    {| reserved := 0;
                                       reqFeatureIndex := 0xFFFF;
                                       featureIndexes := [] |};
                                  langSysRecords := [] |} |}))
                     (Layout.tableName this) (Layout.tables font) |}).
Proof.
  intros HL Hs Hfit Habsent.
  destruct (searchTag_sorted (scripts layout) tg Hs Hfit)
    as (pos & Hpos & [(Hin & r & Hr & Htag) | (Hneg & Hsp)]).
  { exfalso. apply (Habsent r); [eapply item_elem_of, Hr | exact Htag]. }
  assert (Hm : 0 <= -1 - pos <= len (scripts layout)).
  { destruct Hsp as [Hm _]. rewrite len_fmap in Hm. exact Hm. }
  exists (-1 - pos). split; [exact Hm|]. split; [rewrite Hpos; f_equal; lia|].
  unfold Layout.getScriptTable, mbind, Layout.M_bind, Layout.getTable.
  rewrite HL. unfold Layout.lift. rewrite Hpos.
  destruct (Z.geb_spec pos 0); [lia|]. simpl.
  rewrite (splice_pos_in_range _ _ Hm). reflexivity.
Qed.

(** [getLangSysTable] with [create] set, for a language system that is
    not there in a script that is. *)
Lemma getLangSysTable_create (font : Layout.Font Subtable) (layout : Table Subtable)
    (tg language : string) (s : ScriptRef) (r : ScriptRecord) :
  Layout.tables font !! Layout.tableName this = Some layout ->
  Layout.getScriptTable createDefaultTable this tg true font = (Ok (Some s), font) ->
  item (scripts layout) s = Some r ->
  sorted_by_tag (langSysRecords (script r)) -> fits (langSysRecords (script r)) ->
  language <> "dflt"%string -> language <> "DFLT"%string ->
  (forall record, record ∈ langSysRecords (script r) -> tag record <> language) ->
  exists insertionIndex : Z,
    0 <= insertionIndex <= len (langSysRecords (script r))
    /\ searchTag (langSysRecords (script r)) language = Ok (- insertionIndex - 1)
    /\ Layout.getLangSysTable createDefaultTable this tg language true font
       = (Ok (Some (LangSysOf s insertionIndex)),
          {| Layout.tables :=
               alter (Layout.at_script s (Layout.set_langSysRecords (fun records =>
                        splice_insert records insertionIndex
                          {| lsr_tag := language;
                             langSys :=
                               {| reserved := 0;
                                  reqFeatureIndex := 0xFFFF;
                                  featureIndexes := [] |} |})))
                     (Layout.tableName this) (Layout.tables font) |}).
Proof.
  intros HL Hget Hr Hs Hfit Hd1 Hd2 Habsent.
  destruct (searchTag_sorted (langSysRecords (script r)) language Hs Hfit)
    as (pos & Hpos & [(Hin & rec & Hrec & Htag) | (Hneg & Hsp)]).
  { exfalso. apply (Habsent rec); [eapply item_elem_of, Hrec | exact Htag]. }
  assert (Hm : 0 <= -1 - pos <= len (langSysRecords (script r))).
  { destruct Hsp as [Hm _]. rewrite len_fmap in Hm. exact Hm. }
  exists (-1 - pos). split; [exact Hm|]. split; [rewrite Hpos; f_equal; lia|].
  unfold Layout.getLangSysTable, mbind, Layout.M_bind. rewrite Hget.
  apply String.eqb_neq in Hd1, Hd2. rewrite Hd1, Hd2. simpl.
  unfold Layout.the_table. rewrite HL. unfold Layout.script_at. rewrite Hr. simpl.
  unfold Layout.lift. rewrite Hpos.
  destruct (Z.geb_spec pos 0); [lia|]. simpl.
  rewrite (splice_pos_in_range _ _ Hm). reflexivity.
Qed.

End CreatePaths.

(** C2: for every layout table whose scripts array and whose
    langSysRecords arrays are sorted ascending by tag, every operation of the
    Layout engine leaves the scripts array and every langSysRecords array
    sorted ascending by tag (and strictly so when they were), and returns or
    throws; the create paths of [getScriptTable] and [getLangSysTable] splice
    a freshly default-initialized record
    ([{reserved: 0, reqFeatureIndex: 0xFFFF, featureIndexes: []}]) in at the
    insertion point decoded from the negative return of [searchTag]. The
    arrays searched are of at most 2^31 records. *)
Theorem layout_operations_keep_tables_sorted {Subtable : Type}
    (createDefaultTable : Table Subtable) (this : Layout.t)
    (font : Layout.Font Subtable) (layout : Table Subtable) :
  Layout.tables font !! Layout.tableName this = Some layout ->
  table_sorted layout ->
  table_fits layout ->
  (forall c : Layout.call,
      query_fits c ->
      exists res font' layout',
        Layout.run createDefaultTable this c font = (res, font')
        /\ res <> OutOfFuel
        /\ Layout.tables font' !! Layout.tableName this = Some layout'
        /\ table_sorted layout'
        /\ (table_strictly_sorted layout -> table_strictly_sorted layout'))
  /\ (forall tg : string,
        (forall r, r ∈ scripts layout -> tag r <> tg) ->
        exists insertionIndex : Z,
          searchTag (scripts layout) tg = Ok (- insertionIndex - 1)
          /\ Layout.getScriptTable createDefaultTable this tg true font
             = (Ok (Some insertionIndex),
                {| Layout.tables :=
                     alter (Layout.set_scripts (fun scripts =>
                              splice_insert scripts insertionIndex
                                {| sr_tag := tg;
                                   script :=
                                     {| defaultLangSys :=
                                          {| reserved := 0;
                                             reqFeatureIndex := 0xFFFF;
                                             featureIndexes := [] |};
                                        langSysRecords := [] |} |}))
                           (Layout.tableName this) (Layout.tables font) |}))
  /\ (forall (tg language : string) (s : ScriptRef) (r : ScriptRecord),
        Layout.getScriptTable createDefaultTable this tg true font
        = (Ok (Some s), font) ->
        item (scripts layout) s = Some r ->
        language <> "dflt"%string -> language <> "DFLT"%string ->
        (forall record, record ∈ langSysRecords (script r) -> tag record <> language) ->
        exists insertionIndex : Z,
          searchTag (langSysRecords (script r)) language = Ok (- insertionIndex - 1)
          /\ Layout.getLangSysTable createDefaultTable this tg language true font
             = (Ok (Some (LangSysOf s insertionIndex)),
                {| Layout.tables :=
                     alter (Layout.at_script s (Layout.set_langSysRecords
                              (fun records =>
                                 splice_insert records insertionIndex
                                   {| lsr_tag := language;
                                      langSys :=
                                        {| reserved := 0;
                                           reqFeatureIndex := 0xFFFF;
                                           featureIndexes := [] |} |})))
                           (Layout.tableName this) (Layout.tables font) |})).
Proof.
  intros HL Hsorted Hfits. split; [|split].
  - intros c Hq.
    destruct (run_ascending createDefaultTable this String.leb
                (fun a b Hab => eq_trans (str_leb_ltb a b)
                   (f_equal negb (ltb_asym String.ltb str_ltb_irrefl str_ltb_trans
                                    a b Hab)))
                (fun a b Hab => Hab) c font layout HL Hsorted Hfits Hq)
      as (res & font' & layout' & Hrun & HL' & Hsorted' & Hres).
    exists res, font', layout'. conclude.
    intros Hstrict.
    destruct (run_ascending createDefaultTable this String.ltb
                (fun a b Hab => Hab)
                (fun a b Hab => eq_trans (str_leb_ltb a b)
                   (f_equal negb (ltb_asym String.ltb str_ltb_irrefl str_ltb_trans
                                    a b Hab)))
                c font layout HL Hstrict Hfits Hq)
      as (res2 & font2 & layout2 & Hrun2 & HL2 & Hstrict2 & _).
    rewrite Hrun in Hrun2. injection Hrun2 as _ <-.
    rewrite HL' in HL2. injection HL2 as <-. exact Hstrict2.
  - intros tg Habsent.
    destruct Hsorted as [Hs _]. destruct Hfits as [Hfit _].
    destruct (getScriptTable_create createDefaultTable this font layout tg
                HL Hs Hfit Habsent) as (ins & _ & Hpos & Hget).
    exists ins. split; assumption.
  - intros tg language s r Hget Hr Hd1 Hd2 Habsent.
    destruct Hsorted as [_ Hrec]. destruct Hfits as [_ Hrfit].
    pose proof (item_elem_of _ _ _ Hr) as Hin.
    destruct (getLangSysTable_create createDefaultTable this font layout tg language
                s r HL Hget Hr (Hrec r Hin) (Hrfit r Hin) Hd1 Hd2 Habsent)
      as (ins & _ & Hpos & Hrun).
    exists ins. split; assumption.
Qed.

Lemma two_scripts_sorted : table_sorted two_scripts /\ table_fits two_scripts.
Proof.
  split; split.
  - reflexivity.
  - intros r Hr. apply list_elem_of_In in Hr. simpl in Hr.
    destruct Hr as [<-|[<-|[]]]; reflexivity.
  - vm_compute. discriminate.
  - intros r Hr. apply list_elem_of_In in Hr. simpl in Hr.
    destruct Hr as [<-|[<-|[]]]; vm_compute; discriminate.
Qed.

Lemma layout_operations_keep_tables_sorted_witness :
  exists res font' layout',
    Layout.run empty_table gsub (Layout.GetLangSysTable "cyrl" "SRB " true)
      (font_with two_scripts) = (res, font')
    /\ res <> OutOfFuel
    /\ Layout.tables font' !! Layout.tableName gsub = Some layout'
    /\ table_sorted layout'
    /\ (table_strictly_sorted two_scripts -> table_strictly_sorted layout').
Proof.
  apply (proj1 (layout_operations_keep_tables_sorted empty_table gsub
                  (font_with two_scripts) two_scripts
                  (lookup_singleton_eq _ _)
                  (proj1 two_scripts_sorted) (proj2 two_scripts_sorted))).
  exact I.
Defined.

(** ** Reading back what was changed in place *)

Lemma script_at_at_script {Subtable} (layout : Table Subtable) (s : ScriptRef)
    (h : Script -> Script) :
  Layout.script_at (Layout.at_script s h layout) s = h <$> Layout.script_at layout s.
Proof.
  unfold Layout.script_at, Layout.at_script. simpl. rewrite item_alter_at.
  destruct (item (scripts layout) s); reflexivity.
Qed.

(** An update of a language system in place is read back through the
    same reference. *)
Lemma langSys_at_at_langSys {Subtable} (layout : Table Subtable) (l : LangSysRef)
    (f : LangSys -> LangSys) (ls : LangSys) :
  Layout.langSys_at layout l = Some ls ->
  Layout.langSys_at (Layout.at_langSys l f layout) l = Some (f ls).
Proof.
  destruct l as [s|s i]; simpl; rewrite script_at_at_script;
    destruct (Layout.script_at layout s) as [sc|]; simpl; try discriminate.
  - intros [= <-]. reflexivity.
  - rewrite item_alter_at. destruct (item (langSysRecords sc) i) as [rec|]; simpl;
      [|discriminate].
    intros [= <-]. reflexivity.
Qed.

Lemma features_at_langSys {Subtable} (layout : Table Subtable) (l : LangSysRef)
    (f : LangSys -> LangSys) :
  features (Layout.at_langSys l f layout) = features layout.
Proof. destruct l; reflexivity. Qed.

Lemma item_last {A} (arr : list A) :
  item arr (len arr - 1) = last arr.
Proof.
  rewrite last_lookup. unfold item, len.
  destruct arr as [|a arr]; [reflexivity|].
  destruct (Z.ltb_spec (Z.of_nat (length (a :: arr)) - 1) 0); [simpl in *; lia|].
  f_equal. simpl. lia.
Qed.

Lemma item_push {A} (arr : list A) (x : A) : item (push arr x) (len arr) = Some x.
Proof.
  unfold push, len. rewrite item_nat. apply list_lookup_middle. reflexivity.
Qed.

(** ** The references handed out are valid

    What [getScriptTable], [getLangSysTable] and [getFeatureTable] return is
    a part of the table as it stands in the font when they return. *)

Section Valid.
Context {Subtable : Type} (createDefaultTable : Table Subtable) (this : Layout.t).

Lemma getTable_some (create : bool) (font font0 : Layout.Font Subtable)
    (layout : Table Subtable) :
  Layout.getTable createDefaultTable this create font = (Ok (Some layout), font0) ->
  Layout.tables font0 !! Layout.tableName this = Some layout.
Proof.
  unfold Layout.getTable.
  destruct (Layout.tables font !! Layout.tableName this) as [l|] eqn:HL.
  - intros [= <- <-]. exact HL.
  - destruct create; [|discriminate].
    intros [= <- <-]. simpl. apply lookup_insert_eq.
Qed.

Lemma getScriptTable_valid (tg : string) (create : bool)
    (font font1 : Layout.Font Subtable) (s : ScriptRef) :
  Layout.getScriptTable createDefaultTable this tg create font = (Ok (Some s), font1) ->
  exists layout1 scriptTable,
    Layout.tables font1 !! Layout.tableName this = Some layout1
    /\ Layout.script_at layout1 s = Some scriptTable.
Proof.
  unfold Layout.getScriptTable, mbind, Layout.M_bind.
  destruct (Layout.getTable createDefaultTable this create font)
    as [[[layout|]|e|] font0] eqn:Hgt; try discriminate.
  apply getTable_some in Hgt.
  unfold Layout.lift.
  destruct (searchTag (scripts layout) tg) as [pos| |]; try discriminate.
  destruct (pos >=? 0).
  - destruct (item (scripts layout) pos) as [r|] eqn:Hr; simpl; [|discriminate].
    intros [= <- <-]. exists layout, (script r). split; [exact Hgt|].
    unfold Layout.script_at. rewrite Hr. reflexivity.
  - destruct create; simpl; [|discriminate].
    intros [= <- <-]. eexists _, _. simpl. rewrite lookup_alter_eq, Hgt. simpl.
    split; [reflexivity|].
    unfold Layout.script_at. simpl. rewrite item_splice_insert. reflexivity.
Qed.

Lemma getLangSysTable_valid (tg language : string) (create : bool)
    (font font1 : Layout.Font Subtable) (l : LangSysRef) :
  Layout.getLangSysTable createDefaultTable this tg language create font
  = (Ok (Some l), font1) ->
  exists layout1 langSysTable,
    Layout.tables font1 !! Layout.tableName this = Some layout1
    /\ Layout.langSys_at layout1 l = Some langSysTable.
Proof.
  unfold Layout.getLangSysTable, mbind, Layout.M_bind.
  destruct (Layout.getScriptTable createDefaultTable this tg create font)
    as [[[s|]|e|] font0] eqn:Hgs; try discriminate.
  apply getScriptTable_valid in Hgs as (layout0 & sc & HL0 & Hsc).
  destruct (String.eqb language "dflt" || String.eqb language "DFLT").
  { intros [= <- <-]. exists layout0, (defaultLangSys sc). split; [exact HL0|].
    simpl. rewrite Hsc. reflexivity. }
  unfold Layout.the_table. rewrite HL0, Hsc. simpl. unfold Layout.lift.
  destruct (searchTag (langSysRecords sc) language) as [pos| |]; try discriminate.
  destruct (pos >=? 0).
  - destruct (item (langSysRecords sc) pos) as [rec|] eqn:Hrec; simpl; [|discriminate].
    intros [= <- <-]. exists layout0, (langSys rec). split; [exact HL0|].
    simpl. rewrite Hsc. simpl. rewrite Hrec. reflexivity.
  - destruct create; simpl; [|discriminate].
    intros [= <- <-]. eexists _, _. simpl. rewrite lookup_alter_eq, HL0. simpl.
    split; [reflexivity|].
    rewrite script_at_at_script, Hsc. simpl.
    rewrite item_splice_insert. reflexivity.
Qed.

Lemma findFeature_valid (allFeatures : list FeatureRecord) (featIndexes : list Z)
    (feature : string) (i : FeatureRef) :
  Layout.findFeature allFeatures featIndexes feature = Ok (Some i) ->
  exists r, item allFeatures i = Some r /\ tag r = feature /\ i ∈ featIndexes.
Proof.
  induction featIndexes as [|j rest IH]; simpl; [discriminate|].
  destruct (item allFeatures j) as [r|] eqn:Hj; [|discriminate].
  destruct (String.eqb_spec (tag r) feature) as [Htag|_].
  - intros [= <-]. exists r. repeat split; [exact Hj | exact Htag | apply list_elem_of_here].
  - intros Hrest. destruct (IH Hrest) as (r' & H1 & H2 & H3).
    exists r'. repeat split; [exact H1 | exact H2 | apply list_elem_of_further, H3].
Qed.

Lemma getFeatureTable_valid (tg language feature : string) (create : bool)
    (font font1 : Layout.Font Subtable) (f : FeatureRef) :
  Layout.getFeatureTable createDefaultTable this tg language feature create font
  = (Ok (Some f), font1) ->
  exists layout1 featureTable,
    Layout.tables font1 !! Layout.tableName this = Some layout1
    /\ Layout.feature_at layout1 f = Some featureTable.
Proof.
  unfold Layout.getFeatureTable, mbind, Layout.M_bind.
  destruct (Layout.getLangSysTable createDefaultTable this tg language create font)
    as [[[l|]|e|] font0] eqn:Hgl; try discriminate.
  apply getLangSysTable_valid in Hgl as (layout0 & ls & HL0 & Hls).
  unfold Layout.the_table. rewrite HL0, Hls. simpl. unfold Layout.lift.
  destruct (Layout.findFeature (features layout0) (featureIndexes ls) feature)
    as [[i|]| |] eqn:Hfind; try discriminate.
  - intros [= <- <-]. apply findFeature_valid in Hfind as (r & Hr & _ & _).
    exists layout0, (Graph.feature r). split; [exact HL0|].
    unfold Layout.feature_at. rewrite Hr. reflexivity.
  - destruct create; [|discriminate].
    destruct (Layout.alphabetical (features layout0) feature) as [[|]| |];
      try discriminate.
    simpl. intros [= <- <-]. eexists _, _. simpl.
    rewrite !lookup_alter_eq, HL0. simpl. split; [reflexivity|].
    unfold Layout.feature_at. rewrite features_at_langSys. simpl.
    rewrite item_push. reflexivity.
Qed.

End Valid.

(** ** The default language system *)

(** C8, as the code has it: for every script whose script table exists
    (or is created) and every language string that is exactly ['dflt'] or
    ['DFLT'], [getLangSysTable] returns the [defaultLangSys] of the script
    table directly, in the font as [getScriptTable] left it: no tag is looked
    up in [langSysRecords], and none is spliced in. *)
Theorem getLangSysTable_default {Subtable : Type}
    (createDefaultTable : Table Subtable) (this : Layout.t)
    (tg language : string) (create : bool)
    (font font' : Layout.Font Subtable) (s : ScriptRef) :
  language = "dflt"%string \/ language = "DFLT"%string ->
  Layout.getScriptTable createDefaultTable this tg create font = (Ok (Some s), font') ->
  Layout.getLangSysTable createDefaultTable this tg language create font
  = (Ok (Some (DefaultLangSysOf s)), font')
  /\ exists (layout' : Table Subtable) (scriptTable : Script),
       Layout.tables font' !! Layout.tableName this = Some layout'
       /\ Layout.script_at layout' s = Some scriptTable
       /\ Layout.langSys_at layout' (DefaultLangSysOf s)
          = Some (defaultLangSys scriptTable).
Proof.
  intros Hlang Hget. split.
  - unfold Layout.getLangSysTable, mbind, Layout.M_bind. rewrite Hget.
    destruct Hlang as [-> | ->]; reflexivity.
  - destruct (getScriptTable_valid createDefaultTable this tg create font font' s Hget)
      as (layout' & scriptTable & HL' & Hsc).
    exists layout', scriptTable. split; [exact HL'|]. split; [exact Hsc|].
    simpl. rewrite Hsc. reflexivity.
Qed.

Lemma getLangSysTable_default_witness :
  Layout.getLangSysTable empty_table gsub "latn" "DFLT" false (font_with two_scripts)
  = (Ok (Some (DefaultLangSysOf 1)), font_with two_scripts).
Proof.
  apply (getLangSysTable_default empty_table gsub "latn" "DFLT" false
           (font_with two_scripts) (font_with two_scripts) 1).
  - right. reflexivity.
  - reflexivity.
Defined.

(** The claim as the specification words it, for every language that
    equals ['dflt'] up to case, fails: with ['Dflt'] the script table of
    ['DFLT'] is found, and the tag is looked up in its [langSysRecords], where
    it is not. *)
Lemma getLangSysTable_mixed_case_counterexample :
  ~ (forall (tg language : string) (create : bool)
            (font font' : Layout.Font unit) (s : ScriptRef),
        equals_ignoring_case language "dflt" = true ->
        Layout.getScriptTable empty_table gsub tg create font = (Ok (Some s), font') ->
        Layout.getLangSysTable empty_table gsub tg language create font
        = (Ok (Some (DefaultLangSysOf s)), font')).
Proof.
  intros Hclaim.
  specialize (Hclaim "DFLT"%string "Dflt"%string false
                (font_with two_scripts) (font_with two_scripts) 0
                eq_refl eq_refl).
  vm_compute in Hclaim. discriminate Hclaim.
Qed.

(** ** Appending a feature *)

(** C1: for every state of the global feature array and every call
    [getFeatureTable(script, language, feature, create=true)] that does not
    find a record with the requested tag among the feature indexes of the
    language system: if the feature array is empty or the new tag is >= the
    tag of its last element, a new feature record is appended at the end of
    the feature array, its index is appended to the feature indexes of the
    language system, and the new feature is returned; if the new tag is < the
    tag of the last element, the call throws and appends nothing. Appending
    ['aalt'] then ['liga'] to an empty feature array succeeds; appending
    ['aalt'] when ['liga'] is last fails. *)
Theorem getFeatureTable_appends_in_order :
  (forall (Subtable : Type) (createDefaultTable : Table Subtable) (this : Layout.t)
          (tg language feature : string) (font font1 : Layout.Font Subtable)
          (l : LangSysRef),
      Layout.getLangSysTable createDefaultTable this tg language true font
      = (Ok (Some l), font1) ->
      exists (layout1 : Table Subtable) (langSysTable : LangSys),
        Layout.tables font1 !! Layout.tableName this = Some layout1
        /\ Layout.langSys_at layout1 l = Some langSysTable
        /\ (Layout.findFeature (features layout1) (featureIndexes langSysTable)
              feature = Ok None ->
            ((features layout1 = []
              \/ exists lastRecord, last (features layout1) = Some lastRecord
                                    /\ String.leb (tag lastRecord) feature = true) ->
             exists font2 layout2,
               Layout.getFeatureTable createDefaultTable this tg language feature
                 true font = (Ok (Some (len (features layout1))), font2)
               /\ Layout.tables font2 !! Layout.tableName this = Some layout2
               /\ features layout2
                  = features layout1
                    ++ [{| fr_tag := feature;
                           feature := {| params := 0; lookupListIndexes := [] |} |}]
               /\ Layout.feature_at layout2 (len (features layout1))
                  = Some {| params := 0; lookupListIndexes := [] |}
               /\ Layout.langSys_at layout2 l
                  = Some {| reserved := reserved langSysTable;
                            reqFeatureIndex := reqFeatureIndex langSysTable;
                            featureIndexes :=
                              featureIndexes langSysTable
                              ++ [len (features layout1)] |})
            /\ ((exists lastRecord, last (features layout1) = Some lastRecord
                                    /\ String.ltb feature (tag lastRecord) = true) ->
                Layout.getFeatureTable createDefaultTable this tg language feature
                  true font
                = (Throw (Error "Features must be added in alphabetical order."),
                   font1))))
  /\ (let aalt := Layout.getFeatureTable empty_table gsub "DFLT" "dflt" "aalt" true
                    (font_with empty_table) in
      let liga := Layout.getFeatureTable empty_table gsub "DFLT" "dflt" "liga" true
                    (snd aalt) in
      fst aalt = Ok (Some 0) /\ fst liga = Ok (Some 1)
      /\ (fun layout => tag <$> features layout)
           <$> Layout.tables (snd liga) !! "GSUB"%string
         = Some ["aalt"; "liga"]%string)
  /\ (let liga := Layout.getFeatureTable empty_table gsub "DFLT" "dflt" "liga" true
                    (font_with empty_table) in
      let aalt := Layout.getFeatureTable empty_table gsub "DFLT" "dflt" "aalt" true
                    (snd liga) in
      fst liga = Ok (Some 0)
      /\ aalt = (Throw (Error "Features must be added in alphabetical order."),
                 snd liga)).
Proof.
  split; [|split; [vm_compute; auto | vm_compute; auto]].
  intros Subtable cdt this tg language feature font font1 l Hget.
  destruct (getLangSysTable_valid cdt this tg language true font font1 l Hget)
    as (layout1 & ls & HL1 & Hls).
  exists layout1, ls. split; [exact HL1|]. split; [exact Hls|].
  intros Hfind.
  unfold Layout.getFeatureTable, mbind, Layout.M_bind. rewrite Hget.
  unfold Layout.the_table. rewrite HL1, Hls. simpl.
  unfold Layout.lift. rewrite Hfind.
  unfold Layout.alphabetical. rewrite item_last.
  split.
  - intros Hordered.
    assert (Hassert :
              (if len (features layout1) =? 0 then Ok true
               else match last (features layout1) with
                    | Some lastRecord => Ok (negb (String.ltb feature (tag lastRecord)))
                    | None => Throw TypeError
                    end) = Ok true).
    { destruct Hordered as [Hnil | (lastRecord & Hlast & Hle)].
      - rewrite Hnil. reflexivity.
      - destruct (len (features layout1) =? 0); [reflexivity|].
        rewrite Hlast. rewrite str_leb_ltb in Hle. rewrite Hle. reflexivity. }
    rewrite Hassert. simpl.
    eexists _, _. split; [reflexivity|]. simpl.
    rewrite !lookup_alter_eq, HL1. simpl. split; [reflexivity|].
    split; [apply features_at_langSys|]. split.
    + unfold Layout.feature_at. rewrite features_at_langSys. simpl.
      rewrite item_push. reflexivity.
    + erewrite langSys_at_at_langSys; [reflexivity | exact Hls].
  - intros (lastRecord & Hlast & Hlt).
    destruct (Z.eqb_spec (len (features layout1)) 0) as [Hzero|_].
    + unfold len in Hzero. destruct (features layout1); [discriminate | simpl in *; lia].
    + rewrite Hlast, Hlt. reflexivity.
Qed.

Lemma getFeatureTable_appends_in_order_witness :
  exists font2 layout2,
    Layout.getFeatureTable empty_table gsub "DFLT" "dflt" "aalt" true
      (font_with empty_table) = (Ok (Some 0), font2)
    /\ Layout.tables font2 !! "GSUB"%string = Some layout2
    /\ features layout2
       = [{| fr_tag := "aalt";
             feature := {| params := 0; lookupListIndexes := [] |} |}].
Proof.
  destruct (proj1 getFeatureTable_appends_in_order unit empty_table gsub
              "DFLT"%string "dflt"%string "aalt"%string
              (font_with empty_table) (font_with dflt_only)
              (DefaultLangSysOf 0) eq_refl)
    as (layout1 & ls & HL1 & Hls & Happend).
  injection HL1 as <-. injection Hls as <-.
  destruct (Happend eq_refl) as [Hordered _].
  destruct Hordered as (font2 & layout2 & Hget & HL2 & Hfeatures & _).
  - left. reflexivity.
  - exists font2, layout2. auto.
Defined.

(** ** Lookup tables *)

Lemma collectLookups_filter {Subtable} (allLookups : list (Lookup Subtable))
    (lookupListIndexes : list Z) (type : Z) (tables : list LookupRef) :
  (forall i, i ∈ lookupListIndexes -> is_Some (item allLookups i)) ->
  Layout.collectLookups allLookups lookupListIndexes type tables
  = Ok (tables ++ List.filter (of_type allLookups type) lookupListIndexes).
Proof.
  revert tables. induction lookupListIndexes as [|i rest IH]; intros tables Hvalid.
  - simpl. rewrite app_nil_r. reflexivity.
  - simpl. unfold of_type at 1.
    destruct (Hvalid i (list_elem_of_here _ _)) as [lookupTable Hi]. rewrite Hi.
    rewrite IH by (intros j Hj; apply Hvalid, list_elem_of_further, Hj).
    destruct (lookupType lookupTable =? type); [|reflexivity].
    unfold push. rewrite <- app_assoc. reflexivity.
Qed.

(** With [create] set, the script, the language system and the feature
    are resolved, or the call throws: none of them is absent. *)
Lemma getScriptTable_create_resolves {Subtable} (createDefaultTable : Table Subtable)
    (this : Layout.t) (tg : string) (font font1 : Layout.Font Subtable) :
  Layout.getScriptTable createDefaultTable this tg true font <> (Ok None, font1).
Proof.
  unfold Layout.getScriptTable, mbind, Layout.M_bind, Layout.getTable, Layout.lift.
  destruct (Layout.tables font !! Layout.tableName this) as [layout|].
  - destruct (searchTag (scripts layout) tg) as [pos| |]; try discriminate.
    destruct (pos >=? 0); [|discriminate].
    destruct (item (scripts layout) pos); discriminate.
  - destruct (searchTag (scripts createDefaultTable) tg) as [pos| |]; try discriminate.
    destruct (pos >=? 0); [|discriminate].
    destruct (item (scripts createDefaultTable) pos); discriminate.
Qed.

Lemma getLangSysTable_create_resolves {Subtable} (createDefaultTable : Table Subtable)
    (this : Layout.t) (tg language : string) (font font1 : Layout.Font Subtable) :
  Layout.getLangSysTable createDefaultTable this tg language true font
  <> (Ok None, font1).
Proof.
  unfold Layout.getLangSysTable, mbind, Layout.M_bind.
  pose proof (getScriptTable_create_resolves createDefaultTable this tg font) as Hs.
  destruct (Layout.getScriptTable createDefaultTable this tg true font)
    as [[[s|]|e|] font0]; try discriminate.
  2:{ exfalso. apply (Hs font0). reflexivity. }
  destruct (String.eqb language "dflt" || String.eqb language "DFLT");
    [discriminate|].
  unfold Layout.the_table, Layout.lift.
  destruct (Layout.tables font0 !! Layout.tableName this) as [layout|];
    [|discriminate].
  destruct (Layout.script_at layout s) as [sc|]; simpl; [|discriminate].
  destruct (searchTag (langSysRecords sc) language) as [pos| |]; try discriminate.
  destruct (pos >=? 0); [|discriminate].
  destruct (item (langSysRecords sc) pos); discriminate.
Qed.

Lemma getFeatureTable_create_resolves {Subtable} (createDefaultTable : Table Subtable)
    (this : Layout.t) (tg language feature : string)
    (font font1 : Layout.Font Subtable) :
  Layout.getFeatureTable createDefaultTable this tg language feature true font
  <> (Ok None, font1).
Proof.
  unfold Layout.getFeatureTable, mbind, Layout.M_bind.
  pose proof (getLangSysTable_create_resolves createDefaultTable this tg language font)
    as Hl.
  destruct (Layout.getLangSysTable createDefaultTable this tg language true font)
    as [[[l|]|e|] font0]; try discriminate.
  2:{ exfalso. apply (Hl font0). reflexivity. }
  unfold Layout.the_table, Layout.lift.
  destruct (Layout.tables font0 !! Layout.tableName this) as [layout|];
    [|discriminate].
  destruct (Layout.langSys_at layout l) as [ls|]; simpl; [|discriminate].
  destruct (Layout.findFeature (features layout) (featureIndexes ls) feature)
    as [[i|]| |]; try discriminate.
  destruct (Layout.alphabetical (features layout) feature) as [[|]| |];
    discriminate.
Qed.

(** ** The GDEF table *)

(** A pointer field whose offset is 0 decodes to absent, and the cursor
    moves past the field. *)
Lemma parsePointer_null {A} (description : Parser.Decoder A) (p : Parser.t) :
  Parser.getUShort (Parser.data p) (Parser.offset p + Parser.relativeOffset p) = Ok 0 ->
  Parser.parsePointer description p = Ok (None, Parser.advance 2 p).
Proof.
  intros Hzero. unfold Parser.parsePointer, Parser.parseUShort, mbind, res_bind.
  rewrite Hzero. reflexivity.
Qed.

Lemma parseVersion_cursor (minorBase : float) (p p1 : Parser.t) (v : float) :
  Parser.parseVersion minorBase p = Ok (v, p1) -> p1 = Parser.advance 4 p.
Proof.
  unfold Parser.parseVersion, mbind, res_bind, JS.bind.
  destruct (Parser.getUShort _ _); try discriminate.
  destruct (Parser.getUShort _ _); try discriminate.
  intros [= _ <-]. reflexivity.
Qed.

Lemma parsePointer_cursor {A} (description : Parser.Decoder A) (p p1 : Parser.t)
    (v : option A) :
  Parser.parsePointer description p = Ok (v, p1) -> p1 = Parser.advance 2 p.
Proof.
  unfold Parser.parsePointer, Parser.parseUShort, mbind, res_bind, JS.bind.
  destruct (Parser.getUShort _ _) as [structOffset| |]; try discriminate.
  destruct (structOffset =? 0); [intros [= _ <-]; reflexivity|].
  destruct (description _) as [[x p']| |]; try discriminate.
  intros [= _ <-]. reflexivity.
Qed.

(** What a parse of the header that succeeds has read. *)
Lemma header_success (p0 : Parser.t) (gdef : GDEF.t) (p' : Parser.t) :
  GDEF.header p0 = Ok (gdef, p') ->
  Parser.parseVersion 1 p0 = Ok (GDEF.version gdef, Parser.advance 4 p0)
  /\ GDEF.supported (GDEF.version gdef) = true
  /\ (exists p2 p3 p4 p5,
       Parser.parsePointer Parser.classDef (Parser.advance 4 p0)
       = Ok (GDEF.classDef gdef, p2)
       /\ Parser.parsePointer GDEF.parse_attachList p2 = Ok (GDEF.attachList gdef, p3)
       /\ Parser.parsePointer GDEF.parse_ligCaretList p3
          = Ok (GDEF.ligCaretList gdef, p4)
       /\ Parser.parsePointer Parser.classDef p4 = Ok (GDEF.markAttachClassDef gdef, p5)
       /\ if PrimFloat.leb GDEF.v1_2 (GDEF.version gdef)
          then exists m p6,
                 Parser.parsePointer GDEF.parse_markGlyphSets p5 = Ok (m, p6)
                 /\ GDEF.markGlyphSets gdef = Some m
          else GDEF.markGlyphSets gdef = None).
Proof.
  unfold GDEF.header, mbind, Parser.Decoder_bind.
  destruct (Parser.parseVersion 1 p0) as [[v p1]| |] eqn:Hv; try discriminate.
  pose proof (parseVersion_cursor _ _ _ _ Hv) as ->.
  unfold Parser.check_argument.
  destruct (GDEF.supported v) eqn:Hsup; [|discriminate]. simpl.
  destruct (Parser.parsePointer Parser.classDef _) as [[c p2]| |] eqn:Hc;
    try discriminate.
  destruct (Parser.parsePointer GDEF.parse_attachList p2) as [[a p3]| |] eqn:Ha;
    try discriminate.
  destruct (Parser.parsePointer GDEF.parse_ligCaretList p3) as [[l p4]| |] eqn:Hl;
    try discriminate.
  destruct (Parser.parsePointer Parser.classDef p4) as [[m p5]| |] eqn:Hm;
    try discriminate.
  destruct (PrimFloat.leb GDEF.v1_2 v) eqn:Hge.
  - destruct (Parser.parsePointer GDEF.parse_markGlyphSets p5) as [[g p6]| |] eqn:Hg;
      try discriminate.
    intros [= <- <-]. simpl. rewrite Hge.
    split; [reflexivity|]. split; [exact Hsup|].
    exists p2, p3, p4, p5. repeat split; try assumption. exists g, p6. auto.
  - intros [= <- <-]. simpl. rewrite Hge.
    split; [reflexivity|]. split; [exact Hsup|].
    exists p2, p3, p4, p5. repeat split; try assumption.
Qed.

Lemma parseGDEFTable_header (data : list Byte.byte) (start : option Z) (gdef : GDEF.t) :
  GDEF.parseGDEFTable data start = Ok gdef ->
  exists p', GDEF.header (Parser.new data (default 0 start)) = Ok (gdef, p').
Proof.
  unfold GDEF.parseGDEFTable, fmap, res_fmap, JS.bind.
  destruct (GDEF.header _) as [[g p']| |]; try discriminate.
  intros [= <-]. exists p'. reflexivity.
Qed.

(** C3: [parseGDEFTable] fails for every table version other than 1.0,
    1.2 and 1.3; it decodes the four pointer fields [classDef], [attachList],
    [ligCaretList], [markAttachClassDef] unconditionally, and the fifth
    pointer field [markGlyphSets] exactly when the version is >= 1.2; a
    pointer field whose stored 16-bit offset is 0 decodes to absent; so a
    GDEF of version 1.3 whose pointers are all 0 gives a table whose five
    fields are all absent, and a GDEF of version 1.0 gives a table with no
    [markGlyphSets] field at all. *)
Theorem parseGDEFTable_versions_and_pointers :
  (forall (data : list Byte.byte) (start : option Z) (v : float) (p1 : Parser.t),
      Parser.parseVersion 1 (Parser.new data (default 0 start)) = Ok (v, p1) ->
      PrimFloat.eqb v GDEF.v1_0 = false ->
      PrimFloat.eqb v GDEF.v1_2 = false ->
      PrimFloat.eqb v GDEF.v1_3 = false ->
      GDEF.parseGDEFTable data start
      = Throw (Error "Unsupported GDEF table version."))
  /\ (forall (data : list Byte.byte) (start : option Z) (gdef : GDEF.t),
        GDEF.parseGDEFTable data start = Ok gdef ->
        let p0 := Parser.new data (default 0 start) in
        Parser.parseVersion 1 p0 = Ok (GDEF.version gdef, Parser.advance 4 p0)
        /\ (PrimFloat.eqb (GDEF.version gdef) GDEF.v1_0 = true
            \/ PrimFloat.eqb (GDEF.version gdef) GDEF.v1_2 = true
            \/ PrimFloat.eqb (GDEF.version gdef) GDEF.v1_3 = true)
        /\ Parser.parsePointer Parser.classDef (Parser.advance 4 p0)
           = Ok (GDEF.classDef gdef, Parser.advance 6 p0)
        /\ Parser.parsePointer GDEF.parse_attachList (Parser.advance 6 p0)
           = Ok (GDEF.attachList gdef, Parser.advance 8 p0)
        /\ Parser.parsePointer GDEF.parse_ligCaretList (Parser.advance 8 p0)
           = Ok (GDEF.ligCaretList gdef, Parser.advance 10 p0)
        /\ Parser.parsePointer Parser.classDef (Parser.advance 10 p0)
           = Ok (GDEF.markAttachClassDef gdef, Parser.advance 12 p0)
        /\ (if PrimFloat.leb GDEF.v1_2 (GDEF.version gdef)
            then exists m,
                   Parser.parsePointer GDEF.parse_markGlyphSets (Parser.advance 12 p0)
                   = Ok (m, Parser.advance 14 p0)
                   /\ GDEF.markGlyphSets gdef = Some m
            else GDEF.markGlyphSets gdef = None))
  /\ (forall (A : Type) (description : Parser.Decoder A) (p : Parser.t),
        Parser.getUShort (Parser.data p) (Parser.offset p + Parser.relativeOffset p)
        = Ok 0 ->
        Parser.parsePointer description p = Ok (None, Parser.advance 2 p))
  /\ (forall (data : list Byte.byte) (start : option Z) (p1 : Parser.t),
        Parser.parseVersion 1 (Parser.new data (default 0 start)) = Ok (GDEF.v1_3, p1) ->
        (forall k, 0 <= k < 5 ->
           Parser.getUShort data (default 0 start + 4 + 2 * k) = Ok 0) ->
        GDEF.parseGDEFTable data start
        = Ok {| GDEF.version := GDEF.v1_3;
                GDEF.classDef := None;
                GDEF.attachList := None;
                GDEF.ligCaretList := None;
                GDEF.markAttachClassDef := None;
                GDEF.markGlyphSets := Some None |})
  /\ (forall (data : list Byte.byte) (start : option Z) (gdef : GDEF.t),
        GDEF.parseGDEFTable data start = Ok gdef ->
        (GDEF.version gdef = GDEF.v1_0 -> GDEF.markGlyphSets gdef = None)
        /\ (GDEF.version gdef = GDEF.v1_2 \/ GDEF.version gdef = GDEF.v1_3 ->
            exists m, GDEF.markGlyphSets gdef = Some m))
  /\ GDEF.parseGDEFTable gdef_1_3_null None
     = Ok {| GDEF.version := GDEF.v1_3;
             GDEF.classDef := None;
             GDEF.attachList := None;
             GDEF.ligCaretList := None;
             GDEF.markAttachClassDef := None;
             GDEF.markGlyphSets := Some None |}
  /\ GDEF.parseGDEFTable gdef_1_0_null None
     = Ok {| GDEF.version := GDEF.v1_0;
             GDEF.classDef := None;
             GDEF.attachList := None;
             GDEF.ligCaretList := None;
             GDEF.markAttachClassDef := None;
             GDEF.markGlyphSets := None |}
  /\ GDEF.parseGDEFTable gdef_2_0 None
     = Throw (Error "Unsupported GDEF table version.").
Proof.
  split; [|split; [|split; [|split; [|split; [|split; [|split]]]]]].
  - intros data start v p1 Hv H0 H2 H3.
    unfold GDEF.parseGDEFTable, GDEF.header, mbind, Parser.Decoder_bind.
    rewrite Hv. unfold GDEF.supported. rewrite H0, H2, H3. reflexivity.
  - intros data start gdef Hparse p0.
    apply parseGDEFTable_header in Hparse as [p' Hheader].
    apply header_success in Hheader
      as (Hv & Hsup & p2 & p3 & p4 & p5 & Hc & Ha & Hl & Hm & Hg).
    pose proof (parsePointer_cursor _ _ _ _ Hc) as E2. subst p2.
    pose proof (parsePointer_cursor _ _ _ _ Ha) as E3. subst p3.
    pose proof (parsePointer_cursor _ _ _ _ Hl) as E4. subst p4.
    pose proof (parsePointer_cursor _ _ _ _ Hm) as E5. subst p5.
    split; [exact Hv|]. split.
    { unfold GDEF.supported in Hsup.
      apply orb_true_iff in Hsup as [Hsup|Hsup]; [|auto].
      apply orb_true_iff in Hsup as [Hsup|Hsup]; auto. }
    split; [exact Hc|]. split; [exact Ha|]. split; [exact Hl|]. split; [exact Hm|].
    destruct (PrimFloat.leb GDEF.v1_2 (GDEF.version gdef)); [|exact Hg].
    destruct Hg as (m & p6 & Hg & Hfield).
    pose proof (parsePointer_cursor _ _ _ _ Hg) as E6. subst p6.
    exists m. split; [exact Hg | exact Hfield].
  - intros A description p. apply parsePointer_null.
  - intros data start p1 Hv Hzero.
    pose proof (parseVersion_cursor _ _ _ _ Hv) as ->.
    unfold GDEF.parseGDEFTable, GDEF.header, mbind, Parser.Decoder_bind.
    rewrite Hv. simpl.
    assert (Hnull : forall A (d : Parser.Decoder A) k, 0 <= k < 5 ->
              Parser.parsePointer d
                {| Parser.data := data; Parser.offset := default 0 start;
                   Parser.relativeOffset := 4 + 2 * k |}
              = Ok (None, {| Parser.data := data; Parser.offset := default 0 start;
                             Parser.relativeOffset := 4 + 2 * k + 2 |})).
    { intros A d k Hk. rewrite parsePointer_null; [reflexivity|]. simpl.
      rewrite Z.add_assoc. apply Hzero, Hk. }
    change (Parser.advance 4 (Parser.new data (default 0 start)))
      with {| Parser.data := data; Parser.offset := default 0 start;
              Parser.relativeOffset := 4 + 2 * 0 |}.
    rewrite Hnull by lia. rewrite (Hnull _ _ 1) by lia.
    rewrite (Hnull _ _ 2) by lia. rewrite (Hnull _ _ 3) by lia.
    rewrite (Hnull _ _ 4) by lia. reflexivity.
  - intros data start gdef Hparse.
    apply parseGDEFTable_header in Hparse as [p' Hheader].
    apply header_success in Hheader
      as (Hv & Hsup & p2 & p3 & p4 & p5 & Hc & Ha & Hl & Hm & Hg).
    split.
    + intros Hversion. rewrite Hversion in Hg. exact Hg.
    + intros [Hversion|Hversion]; rewrite Hversion in Hg;
        destruct Hg as (m & p6 & Hp6 & Hfield); exists m; exact Hfield.
  - reflexivity.
  - reflexivity.
  - reflexivity.
Qed.

Lemma parseGDEFTable_versions_and_pointers_witness :
  GDEF.parseGDEFTable gdef_2_0 None = Throw (Error "Unsupported GDEF table version.")
  /\ GDEF.parseGDEFTable gdef_1_3_null None
     = Ok {| GDEF.version := GDEF.v1_3;
             GDEF.classDef := None;
             GDEF.attachList := None;
             GDEF.ligCaretList := None;
             GDEF.markAttachClassDef := None;
             GDEF.markGlyphSets := Some None |}.
Proof.
  destruct parseGDEFTable_versions_and_pointers as (Hfail & _ & _ & Hnull & _).
  split.
  - apply (Hfail gdef_2_0 None 2%float (Parser.advance 4 (Parser.new gdef_2_0 0)));
      reflexivity.
  - apply (Hnull gdef_1_3_null None (Parser.advance 4 (Parser.new gdef_1_3_null 0)));
      [reflexivity|].
    intros k Hk.
    assert (Hcases : k = 0 \/ k = 1 \/ k = 2 \/ k = 3 \/ k = 4) by lia.
    destruct Hcases as [->|[->|[->|[->| ->]]]]; reflexivity.
Defined.

(** ** Tables decoded from a buffer

    The lists the decoder reads have a 16-bit count: the Coverage and
    ClassDef tables it produces are of a documented format and within the
    size on which the searches are exact. *)

Lemma getUShort_range (data : list Byte.byte) (i v : Z) :
  Parser.getUShort data i = Ok v -> 0 <= v < 2 ^ 16.
Proof.
  unfold Parser.getUShort, Parser.byte_at.
  destruct (item data i) as [hi|]; simpl; [|discriminate].
  destruct (item data (i + 1)) as [lo|]; simpl; [|discriminate].
  intros [= <-].
  pose proof (Byte.to_N_bounded hi). pose proof (Byte.to_N_bounded lo).
  change (2 ^ 16) with 65536. lia.
Qed.

Lemma parseItems_length {A} (count : nat) (itemCallback : Parser.Decoder A)
    (p p' : Parser.t) (l : list A) :
  Parser.parseItems count itemCallback p = Ok (l, p') -> length l = count.
Proof.
  revert p l. induction count as [|count IH]; intros p l; simpl.
  - intros [= <- _]. reflexivity.
  - unfold mbind, Parser.Decoder_bind.
    destruct (itemCallback p) as [[x p1]| |]; try discriminate.
    destruct (Parser.parseItems count itemCallback p1) as [[rest p2]| |] eqn:E;
      try discriminate.
    intros [= <- <-]. simpl. f_equal. eapply IH, E.
Qed.

Lemma parseList_fits {A} (itemCallback : Parser.Decoder A) (p p' : Parser.t)
    (l : list A) :
  Parser.parseList itemCallback p = Ok (l, p') -> fits l.
Proof.
  unfold Parser.parseList, mbind, Parser.Decoder_bind, Parser.parseUShort.
  unfold mbind, res_bind, JS.bind.
  destruct (Parser.getUShort _ _) as [count| |] eqn:Hcount; try discriminate.
  intros Hitems. apply parseItems_length in Hitems.
  apply getUShort_range in Hcount.
  unfold fits, len. rewrite Hitems.
  change (2 ^ 16) with 65536 in Hcount. change (2 ^ 31) with 2147483648. lia.
Qed.

Lemma coverage_decoded (p p' : Parser.t) (c : Coverage.t) :
  Parser.coverage p = Ok (c, p') ->
  (Coverage.format c = 1 \/ Coverage.format c = 2)
  /\ fits (Coverage.glyphs c) /\ fits (Coverage.ranges c).
Proof.
  assert (Hnil : forall A, fits (@nil A)) by (intros A; vm_compute; discriminate).
  unfold Parser.coverage, mbind, Parser.Decoder_bind.
  destruct (Parser.parseUShort p) as [[format p1]| |]; try discriminate.
  destruct (format =? 1).
  - destruct (Parser.parseList Parser.parseUShort p1) as [[glyphs p2]| |] eqn:E;
      try discriminate.
    intros [= <- _]. simpl. split; [auto|]. split; [eapply parseList_fits, E | apply Hnil].
  - destruct (format =? 2); [|discriminate].
    destruct (Parser.parseList _ p1) as [[ranges p2]| |] eqn:E; try discriminate.
    intros [= <- _]. simpl. split; [auto|]. split; [apply Hnil | eapply parseList_fits, E].
Qed.

Lemma classDef_decoded (p p' : Parser.t) (t : ClassDef.t) :
  Parser.classDef p = Ok (t, p') ->
  (ClassDef.format t = 1 \/ ClassDef.format t = 2) /\ fits (ClassDef.ranges t).
Proof.
  assert (Hnil : forall A, fits (@nil A)) by (intros A; vm_compute; discriminate).
  unfold Parser.classDef, mbind, Parser.Decoder_bind.
  destruct (Parser.parseUShort p) as [[format p1]| |]; try discriminate.
  destruct (format =? 1).
  - destruct (Parser.parseUShort p1) as [[startGlyph p2]| |]; try discriminate.
    destruct (Parser.parseList Parser.parseUShort p2) as [[classes p3]| |];
      try discriminate.
    intros [= <- _]. simpl. split; [auto | apply Hnil].
  - destruct (format =? 2); [|discriminate].
    destruct (Parser.parseList _ p1) as [[ranges p2]| |] eqn:E; try discriminate.
    intros [= <- _]. simpl. split; [auto | eapply parseList_fits, E].
Qed.

(** The two readings of the minor version: in units of 0x1000, as in the
    example of the specification, and in units of 1, as gdef.js asks. *)
Lemma parseVersion_units :
  fst <$> Parser.parseVersion 0x1000
            (Parser.new [Byte.x00; Byte.x01; Byte.x20; Byte.x00] 0) = Ok GDEF.v1_2
  /\ fst <$> Parser.parseVersion 1
               (Parser.new [Byte.x00; Byte.x01; Byte.x00; Byte.x02] 0) = Ok GDEF.v1_2
  /\ fst <$> Parser.parseVersion 1
               (Parser.new [Byte.x00; Byte.x01; Byte.x00; Byte.x03] 0) = Ok GDEF.v1_3.
Proof. repeat split. Qed.

(** * Further properties of the code *)

(** ** The searches on arrays in any order *)

(** A hit of the loop is a position that holds the key, whatever the
    order of the keys. *)
Lemma bisect_hit_sound {K} (eqb ltb : K -> K -> bool) (fuel : nat) (keys : list K)
    (k : K) (iMin iMax i : Z) :
  bisect eqb ltb fuel keys k iMin iMax = Ok (Hit i) ->
  exists val, item keys i = Some val /\ eqb val k = true.
Proof.
  revert iMin iMax. induction fuel as [|fuel IH]; intros iMin iMax; simpl;
    [discriminate|].
  destruct (iMin <=? iMax); [|discriminate].
  destruct (item keys (ushr1 (iMin + iMax))) as [val|] eqn:Hval; [|discriminate].
  destruct (eqb val k) eqn:E.
  - intros [= <-]. exists val. split; assumption.
  - destruct (ltb val k); apply IH.
Qed.

(** A miss leaves the loop between the bounds it was entered with. *)
Lemma bisect_miss_bounds {K} (eqb ltb : K -> K -> bool) (fuel : nat)
    (keys : list K) (k : K) :
  fits keys ->
  forall iMin iMax m,
    0 <= iMin -> iMax < len keys -> iMin <= iMax + 1 ->
    bisect eqb ltb fuel keys k iMin iMax = Ok (Miss m) ->
    iMin <= m <= iMax + 1.
Proof.
  intros Hfits. unfold fits in Hfits.
  induction fuel as [|fuel IH]; intros iMin iMax m Hmin Hmax Hgap; simpl;
    [discriminate|].
  destruct (Z.leb_spec iMin iMax) as [Hle|Hgt]; [|intros [= <-]; lia].
  pose proof (ushr1_mid iMin iMax Hmin Hle ltac:(lia)) as Hmid.
  destruct (item keys (ushr1 (iMin + iMax))) as [val|]; [|discriminate].
  destruct (eqb val k); [discriminate|].
  destruct (ltb val k); intros Hb; apply IH in Hb; lia.
Qed.

(** [searchTag] on an array in any order. *)
Lemma searchTag_any_order {R : Type} `{Tagged R} (arr : list R) (tg : string) :
  fits arr ->
  exists pos : Z,
    searchTag arr tg = Ok pos
    /\ ((0 <= pos /\ exists r, item arr pos = Some r /\ tag r = tg)
        \/ (pos < 0 /\ 0 <= -1 - pos <= len arr)).
Proof.
  intros Hfits.
  assert (Hfits' : fits (tag <$> arr)).
  { unfold fits in *. rewrite len_fmap. exact Hfits. }
  destruct (bisect_total String.eqb String.ltb (S (length arr)) (tag <$> arr) tg
              Hfits' 0 (len arr - 1)) as [p Hp];
    [lia | rewrite len_fmap; lia | unfold len; lia | unfold len; lia |].
  unfold searchTag. rewrite searchTag_loop_bisect, Hp.
  destruct p as [i|m].
  - exists i. split; [reflexivity|]. left.
    destruct (bisect_hit_sound _ _ _ _ _ _ _ _ Hp) as (val & Hval & E).
    apply String.eqb_eq in E. subst val.
    rewrite item_fmap in Hval.
    destruct (item arr i) as [r|] eqn:Hr; simpl in Hval; [|discriminate].
    split; [apply item_Some in Hr; tauto|].
    exists r. split; [reflexivity | congruence].
  - exists (- m - 1). split; [reflexivity|]. right.
    apply (bisect_miss_bounds _ _ _ _ _ Hfits') in Hp;
      [| lia | rewrite len_fmap; lia | unfold len; lia].
    unfold len in *. lia.
Qed.

(** [binSearch] on an array in any order. *)
Lemma binSearch_any_order (arr : list Z) (value : Z) :
  fits arr ->
  exists pos : Z,
    binSearch arr value = Ok pos
    /\ ((0 <= pos /\ item arr pos = Some value)
        \/ (pos < 0 /\ 0 <= -1 - pos <= len arr)).
Proof.
  intros Hfits.
  destruct (bisect_total Z.eqb Z.ltb (S (length arr)) arr value Hfits 0
              (len arr - 1)) as [p Hp];
    [lia | lia | unfold len; lia | unfold len; lia |].
  unfold binSearch. rewrite (binSearch_loop_bisect _ _ _ _ _ p Hp).
  destruct p as [i|m].
  - exists i. split; [reflexivity|]. left.
    destruct (bisect_hit_sound _ _ _ _ _ _ _ _ Hp) as (val & Hval & E).
    apply Z.eqb_eq in E. subst val.
    split; [apply item_Some in Hval; tauto | exact Hval].
  - exists (- m - 1). split; [reflexivity|]. right.
    apply (bisect_miss_bounds _ _ _ _ _ Hfits) in Hp;
      [| lia | lia | unfold len; lia].
    unfold len in *. lia.
Qed.

(** [searchRange] on ranges in any order returns. *)
Lemma searchRange_any_order {R : Type} `{Ranged R} (ranges : list R) (value : Z) :
  fits ranges -> exists out, searchRange ranges value = Ok out.
Proof.
  intros Hfits.
  assert (Hfits' : fits (start <$> ranges)).
  { unfold fits in *. rewrite len_fmap. exact Hfits. }
  destruct (bisect_total Z.eqb Z.ltb (S (length ranges)) (start <$> ranges) value
              Hfits' 0 (len ranges - 1)) as [p Hp];
    [lia | rewrite len_fmap; lia | unfold len; lia | unfold len; lia |].
  unfold searchRange.
  pose proof (searchRange_loop_bisect _ _ _ _ _ _ Hp) as Hloop.
  destruct p as [i|m].
  - destruct Hloop as (r & _ & _ & ->). simpl. eauto.
  - rewrite Hloop. simpl.
    apply (bisect_miss_bounds _ _ _ _ _ Hfits') in Hp;
      [| lia | rewrite len_fmap; lia | unfold len; lia].
    destruct (Z.gtb_spec m 0); [|eauto].
    destruct (item_in_range ranges (m - 1)) as [r ->]; [unfold len in *; lia|].
    destruct (value >? end_ r); eauto.
Qed.

(** X1: on every array of at most 2^31 entries, sorted or not,
    [searchTag] and [binSearch] return and do not throw; a result that is
    not negative is the index of an entry with the tag (the value) searched
    for; a negative result [pos] decodes to a position [-1 - pos] at which
    [splice] can insert, between 0 and the length of the array. *)
Theorem searches_are_safe_in_any_order :
  (forall (R : Type) (T : Tagged R) (arr : list R) (tg : string),
      fits arr ->
      exists pos : Z,
        searchTag arr tg = Ok pos
        /\ ((0 <= pos /\ exists r, item arr pos = Some r /\ tag r = tg)
            \/ (pos < 0 /\ 0 <= -1 - pos <= len arr)))
  /\ (forall (arr : list Z) (value : Z),
        fits arr ->
        exists pos : Z,
          binSearch arr value = Ok pos
          /\ ((0 <= pos /\ item arr pos = Some value)
              \/ (pos < 0 /\ 0 <= -1 - pos <= len arr))).
Proof.
  split.
  - intros R T arr tg Hfits. apply searchTag_any_order, Hfits.
  - intros arr value Hfits. apply binSearch_any_order, Hfits.
Qed.

Lemma searches_are_safe_in_any_order_witness :
  (exists pos : Z,
      searchTag [a_script "latn"; a_script "DFLT"; a_script "cyrl"] "latn" = Ok pos
      /\ ((0 <= pos
           /\ exists r, item [a_script "latn"; a_script "DFLT"; a_script "cyrl"] pos
                        = Some r /\ tag r = "latn"%string)
          \/ (pos < 0 /\ 0 <= -1 - pos <= 3)))
  /\ (exists pos : Z,
        binSearch [9; 2; 7] 2 = Ok pos
        /\ ((0 <= pos /\ item [9; 2; 7] pos = Some 2)
            \/ (pos < 0 /\ 0 <= -1 - pos <= 3))).
Proof.
  split.
  - apply (proj1 searches_are_safe_in_any_order ScriptRecord _
             [a_script "latn"; a_script "DFLT"; a_script "cyrl"] "latn"%string).
    vm_compute. discriminate.
  - apply (proj2 searches_are_safe_in_any_order [9; 2; 7] 2).
    vm_compute. discriminate.
Defined.

(** ** binSearch on ascending arrays *)

(** X2: on every strictly ascending array of numbers (of at most 2^31
    entries), [binSearch] returns the index of the value when it is in the
    array, and otherwise [-(insertionIndex) - 1], where all entries before
    [insertionIndex] are below the value and all entries from it on are
    above: inserting the value there keeps the array strictly ascending. *)
Theorem binSearch_index_or_insertion_point (arr : list Z) (value : Z) :
  strictly_ascending arr ->
  fits arr ->
  (forall i : nat, arr !! i = Some value -> binSearch arr value = Ok (Z.of_nat i))
  /\ (value ∉ arr ->
      exists insertionIndex : Z,
        0 <= insertionIndex <= len arr
        /\ binSearch arr value = Ok (- insertionIndex - 1)
        /\ (forall j x, j < insertionIndex -> item arr j = Some x -> x < value)
        /\ (forall j x, insertionIndex <= j -> item arr j = Some x -> value < x)
        /\ strictly_ascending (splice_insert arr insertionIndex value)).
Proof.
  intros Hs Hfits. split.
  - intros i Hi. apply binSearch_present; assumption.
  - intros Hout.
    destruct (bisect_miss Z.eqb Z.ltb Z.eqb_eq Z.ltb_irrefl Z_ltb_trans Z_ltb_total
                arr value
                (strict_not_above Z.ltb Z.ltb_irrefl Z_ltb_trans arr Hs) Hfits Hout)
      as (m & Hb & Hsp).
    pose proof Hsp as (Hm & Hlo & Hhi).
    exists m. split; [exact Hm|]. split.
    { unfold binSearch. apply (binSearch_loop_bisect _ _ _ _ _ (Miss m)). exact Hb. }
    split; [|split].
    + intros j x Hj Hx. apply Z.ltb_lt. eapply Hlo; eassumption.
    + intros j x Hj Hx. apply Z.ltb_lt. eapply Hhi; eassumption.
    + unfold strictly_ascending, splice_insert.
      rewrite (splice_pos_in_range arr m Hm).
      apply (splits_insert Z.ltb); [trivial | exact Hsp | exact Hs].
Qed.

Lemma binSearch_index_or_insertion_point_witness :
  binSearch [2; 3; 4; 10] 4 = Ok 2
  /\ exists insertionIndex : Z,
       binSearch [2; 3; 4; 10] 7 = Ok (- insertionIndex - 1)
       /\ strictly_ascending (splice_insert [2; 3; 4; 10] insertionIndex 7).
Proof.
  assert (Hs : strictly_ascending [2; 3; 4; 10]) by reflexivity.
  assert (Hfits : fits [2; 3; 4; 10]) by (vm_compute; discriminate).
  destruct (binSearch_index_or_insertion_point [2; 3; 4; 10] 4 Hs Hfits) as [Hin _].
  destruct (binSearch_index_or_insertion_point [2; 3; 4; 10] 7 Hs Hfits) as [_ Hout].
  split.
  - apply (Hin 2%nat). reflexivity.
  - destruct Hout as (m & _ & Hret & _ & _ & Hasc).
    + intros H7. apply list_elem_of_In in H7. simpl in H7. intuition discriminate.
    + exists m. split; assumption.
Defined.

(** ** The three answers of searchRange *)

Section SearchRangeOutcomes.

Context {R : Type} `{Ranged R}.

(** The two ways of [searchRange] to find nothing tell where the value
    lies: after the start of some range for [0], before the start of every
    range for [undefined]. *)
Lemma searchRange_without_range (ranges : list R) (value : Z) :
  ranges_ascending ranges -> fits ranges ->
  (searchRange ranges value = Ok Zero ->
   exists r, r ∈ ranges /\ start r <= value)
  /\ (searchRange ranges value = Ok Nothing ->
      forall r, r ∈ ranges -> value < start r).
Proof.
  intros Hasc Hfits.
  pose proof (bisect_whole Z.eqb Z.ltb Z.eqb_eq Z.ltb_irrefl Z_ltb_trans Z_ltb_total
                (start <$> ranges) value
                (strict_not_above Z.ltb Z.ltb_irrefl Z_ltb_trans _
                   (ranges_starts_ascending ranges Hasc))) as P.
  unfold fits in *. rewrite len_fmap, length_fmap in P. specialize (P Hfits).
  unfold searchRange.
  destruct (bisect Z.eqb Z.ltb (S (length ranges)) (start <$> ranges) value 0
              (len ranges - 1)) as [[i|m]| |] eqn:Hb; simpl in P; try contradiction.
  - apply searchRange_loop_bisect in Hb as (r & Hr & Hstart & Hloop).
    rewrite Hloop. simpl. split; discriminate.
  - apply searchRange_loop_bisect in Hb. rewrite Hb. simpl.
    destruct P as (Hm & Hlo & Hhi). rewrite len_fmap in Hm.
    destruct (Z.gtb_spec m 0) as [Hpos|Hzero].
    + destruct (item_in_range ranges (m - 1) ltac:(lia)) as [r' Hr'].
      rewrite Hr'.
      specialize (Hlo (m - 1) (start r') ltac:(lia)).
      rewrite item_fmap, Hr' in Hlo. specialize (Hlo eq_refl).
      apply Z.ltb_lt in Hlo.
      destruct (value >? end_ r'); split; try discriminate.
      intros _. exists r'. split; [|lia].
      apply item_Some in Hr' as [_ Hr']. eapply list_elem_of_lookup_2, Hr'.
    + split; [discriminate|]. intros _ r Hr.
      apply list_elem_of_lookup_1 in Hr as [j Hj].
      specialize (Hhi (Z.of_nat j) (start r) ltac:(lia)).
      rewrite item_fmap, item_nat, Hj in Hhi. specialize (Hhi eq_refl).
      apply Z.ltb_lt in Hhi. exact Hhi.
Qed.

End SearchRangeOutcomes.

(** X3: on ascending ranges that do not overlap (at most 2^31 of them),
    [searchRange] returns a range exactly when that range is in the array
    and contains the value; it returns the number [0] exactly when no range
    contains the value but some range starts at or before it; and it returns
    nothing ([undefined]) exactly when every range starts after the value,
    which includes the empty array. It does not throw. *)
Theorem searchRange_three_outcomes {R : Type} `{Ranged R} (ranges : list R)
    (value : Z) :
  ranges_ascending ranges ->
  fits ranges ->
  (forall r, searchRange ranges value = Ok (Range r)
             <-> r ∈ ranges /\ contains r value)
  /\ (searchRange ranges value = Ok Zero
      <-> (exists r, r ∈ ranges /\ start r <= value)
          /\ forall r, r ∈ ranges -> ~ contains r value)
  /\ (searchRange ranges value = Ok Nothing
      <-> forall r, r ∈ ranges -> value < start r).
Proof.
  intros Hasc Hfits.
  destruct (searchRange_spec ranges value Hasc Hfits) as (out & Hout & Hpost).
  destruct (searchRange_without_range ranges value Hasc Hfits) as [HZ HN].
  split; [|split].
  - intros r. split.
    + intros Hr. rewrite Hr in Hout. injection Hout as <-.
      destruct Hpost as (i & Hi & Hc). split; [|exact Hc].
      eapply list_elem_of_lookup_2, Hi.
    + intros [Hr Hc]. apply searchRange_contains; assumption.
  - split.
    + intros Hz. split; [apply HZ, Hz|].
      rewrite Hz in Hout. injection Hout as <-. exact Hpost.
    + intros [(r & Hr & Hstart) Hnone]. rewrite Hout.
      destruct out as [r'| |]; [| reflexivity |].
      * exfalso. destruct Hpost as (i & Hi & Hc).
        eapply Hnone; [eapply list_elem_of_lookup_2, Hi | exact Hc].
      * exfalso. rewrite Hout in HN. specialize (HN eq_refl r Hr). lia.
  - split.
    + exact HN.
    + intros Hall. rewrite Hout.
      destruct out as [r'| |]; [| | reflexivity].
      * exfalso. destruct Hpost as (i & Hi & Hc).
        apply list_elem_of_lookup_2 in Hi. specialize (Hall r' Hi).
        unfold contains in Hc. lia.
      * exfalso. rewrite Hout in HZ. destruct (HZ eq_refl) as (r & Hr & Hstart).
        specialize (Hall r Hr). lia.
Qed.

Lemma searchRange_three_outcomes_witness :
  searchRange (ClassDef.ranges classDef_ranges) 25 = Ok Zero
  /\ searchRange (ClassDef.ranges classDef_ranges) 1 = Ok Nothing.
Proof.
  assert (Hasc : ranges_ascending (ClassDef.ranges classDef_ranges)).
  { split; reflexivity. }
  assert (Hfits : fits (ClassDef.ranges classDef_ranges)).
  { vm_compute. discriminate. }
  split.
  - apply (searchRange_three_outcomes (ClassDef.ranges classDef_ranges) 25 Hasc Hfits).
    split.
    + eexists. split; [apply list_elem_of_here|]. simpl. lia.
    + intros r Hr Hc. apply list_elem_of_In in Hr. unfold contains in Hc.
      destruct Hr as [<-|[<-|[]]]; simpl in Hc; lia.
  - apply (searchRange_three_outcomes (ClassDef.ranges classDef_ranges) 1 Hasc Hfits).
    intros r Hr. apply list_elem_of_In in Hr.
    destruct Hr as [<-|[<-|[]]]; simpl; lia.
Defined.

(** ** The default script *)

(** The loop of [getDefaultScriptName], by what the script tags hold. *)
Lemma getDefaultScriptName_loop_names (records : list ScriptRecord) (hasLatn : bool) :
  ("DFLT"%string ∈ tag <$> records ->
   Layout.getDefaultScriptName_loop records hasLatn = Some "DFLT"%string)
  /\ ("DFLT"%string ∉ tag <$> records ->
      (hasLatn = true \/ "latn"%string ∈ tag <$> records ->
       Layout.getDefaultScriptName_loop records hasLatn = Some "latn"%string)
      /\ (hasLatn = false -> "latn"%string ∉ tag <$> records ->
          Layout.getDefaultScriptName_loop records hasLatn = None)).
Proof.
  revert hasLatn. induction records as [|r rest IH]; intros hasLatn.
  - split.
    + intros Hin. apply elem_of_nil in Hin. contradiction.
    + intros _. split.
      * intros [->|Hin]; [reflexivity|]. apply elem_of_nil in Hin. contradiction.
      * intros -> _. reflexivity.
  - rewrite fmap_cons. simpl Layout.getDefaultScriptName_loop.
    destruct (String.eqb_spec (tag r) "DFLT") as [HD|HD].
    + split; [intros _; rewrite HD; reflexivity|].
      intros Hnot. exfalso. apply Hnot. rewrite <- HD. apply list_elem_of_here.
    + specialize (IH (if String.eqb (tag r) "latn" then true else hasLatn)).
      destruct IH as [IHin IHout]. split.
      * intros Hin. apply elem_of_cons in Hin as [Hin|Hin]; [congruence|].
        apply IHin, Hin.
      * intros Hnot.
        assert (Hrest : "DFLT"%string ∉ tag <$> rest).
        { intros Hin. apply Hnot. apply list_elem_of_further, Hin. }
        destruct (IHout Hrest) as [Hyes Hno]. split.
        -- intros Hlatn. apply Hyes.
           destruct (String.eqb_spec (tag r) "latn") as [HL|HL]; [left; reflexivity|].
           destruct Hlatn as [->|Hin]; [left; reflexivity|].
           apply elem_of_cons in Hin as [Hin|Hin]; [congruence | right; exact Hin].
        -- intros -> Hlatn. apply Hno.
           ++ destruct (String.eqb_spec (tag r) "latn") as [HL|HL]; [|reflexivity].
              exfalso. apply Hlatn. rewrite <- HL. apply list_elem_of_here.
           ++ intros Hin. apply Hlatn. apply list_elem_of_further, Hin.
Qed.

(** X4: [getDefaultScriptName] returns and leaves the font as it is.
    Without a table under the name of the Layout object it returns
    [undefined]; with one, it returns ['DFLT'] when a script has that tag,
    wherever it stands among the scripts, ['latn'] when none has the tag
    ['DFLT'] and one has the tag ['latn'], and [undefined] when no script has
    either tag. *)
Theorem getDefaultScriptName_prefers_DFLT {Subtable : Type}
    (createDefaultTable : Table Subtable) (this : Layout.t)
    (font : Layout.Font Subtable) :
  exists name : option string,
    Layout.getDefaultScriptName createDefaultTable this font = (Ok name, font)
    /\ match Layout.tables font !! Layout.tableName this with
       | None => name = None
       | Some layout =>
         let names := tag <$> scripts layout in
         ("DFLT"%string ∈ names -> name = Some "DFLT"%string)
         /\ ("DFLT"%string ∉ names -> "latn"%string ∈ names ->
             name = Some "latn"%string)
         /\ ("DFLT"%string ∉ names -> "latn"%string ∉ names -> name = None)
       end.
Proof.
  unfold Layout.getDefaultScriptName, mbind, Layout.M_bind, Layout.getTable.
  destruct (Layout.tables font !! Layout.tableName this) as [layout|].
  - eexists. split; [reflexivity|]. cbv zeta.
    destruct (getDefaultScriptName_loop_names (scripts layout) false) as [Hin Hout].
    split; [exact Hin|]. split.
    + intros HD HL. apply (Hout HD). right. exact HL.
    + intros HD HL. apply (Hout HD); [reflexivity | exact HL].
  - exists None. split; reflexivity.
Qed.

Lemma getDefaultScriptName_prefers_DFLT_witness :
  Layout.getDefaultScriptName empty_table gsub
    {| Layout.tables :=
         {[ "GSUB"%string :=
              {| scripts := [a_script "cyrl"; a_script "latn"; a_script "DFLT"];
                 features := []; lookups := [] |} ]} |}
  = (Ok (Some "DFLT"%string),
     {| Layout.tables :=
          {[ "GSUB"%string :=
               {| scripts := [a_script "cyrl"; a_script "latn"; a_script "DFLT"];
                  features := []; lookups := [] |} ]} |}).
Proof.
  destruct (getDefaultScriptName_prefers_DFLT empty_table gsub
              {| Layout.tables :=
                   {[ "GSUB"%string :=
                        {| scripts := [a_script "cyrl"; a_script "latn";
                                       a_script "DFLT"];
                           features := []; lookups := [] |} ]} |})
    as (name & Hname & Hcases).
  rewrite Hname. f_equal. f_equal.
  change (Layout.tables _ !! Layout.tableName gsub)
    with (Some {| scripts := [a_script "cyrl"; a_script "latn"; a_script "DFLT"];
                  features := []; lookups := ([] : list (Lookup unit)) |})
    in Hcases.
  destruct Hcases as (Hdflt & _ & _). apply Hdflt.
  apply list_elem_of_further, list_elem_of_further, list_elem_of_here.
Defined.

(** ** The glyphs of a Coverage table of any shape *)

(** X5: [expandCoverage] on a Coverage table whose format is not 1,
    whatever its ranges look like (in any order, overlapping, or with an end
    below the start): the array returned lists the ranges in the order of the
    table, each as the glyph ids from its start to its end (none when the end
    is below the start), and a glyph id is in the array exactly when a range
    of the table contains it. For format 1 the glyph array of the table
    itself is returned. *)
Theorem expandCoverage_lists_every_range (coverageTable : Coverage.t) :
  (Coverage.format coverageTable = 1 ->
   expandCoverage coverageTable = Coverage.glyphs coverageTable)
  /\ (Coverage.format coverageTable <> 1 ->
      expandCoverage coverageTable
      = Coverage.ranges coverageTable
          ≫= (fun r => seqZ (start r) (end_ r - start r + 1)))
  /\ (Coverage.format coverageTable <> 1 ->
      forall g, g ∈ expandCoverage coverageTable
                <-> exists r, r ∈ Coverage.ranges coverageTable /\ contains r g).
Proof.
  split; [|split].
  - intros Hf. unfold expandCoverage. rewrite Hf. reflexivity.
  - intros Hf. rewrite expandCoverage_ranges by exact Hf. reflexivity.
  - intros Hf g. rewrite expandCoverage_ranges by exact Hf. apply elem_of_glyphs_of.
Qed.

Lemma expandCoverage_lists_every_range_witness :
  expandCoverage coverage_format_3
  = Coverage.ranges coverage_format_3
      ≫= (fun r => seqZ (start r) (end_ r - start r + 1)).
Proof.
  apply (expandCoverage_lists_every_range coverage_format_3).
  vm_compute. discriminate.
Defined.

(** ** Every change of the font is an update of the table *)

(** The methods are traced once, for a relation [Q] between the font
    before and the font after that holds of the creation of the table and of
    every update when [create] is set. *)
Section Changes.

Context {Subtable : Type} (createDefaultTable : Table Subtable) (this : Layout.t).
Context (Q : Layout.Font Subtable -> Layout.Font Subtable -> Prop).
Context (create : bool).

Local Abbreviation name := (Layout.tableName this).

Hypothesis Q_refl : forall font, Q font font.
Hypothesis Q_trans : forall font1 font2 font3,
    Q font1 font2 -> Q font2 font3 -> Q font1 font3.
Hypothesis Q_create : forall font,
    create = true ->
    Layout.tables font !! name = None ->
    Q font {| Layout.tables := <[name := createDefaultTable]> (Layout.tables font) |}.
Hypothesis Q_update : forall font layout f,
    create = true ->
    Layout.tables font !! name = Some layout ->
    update layout f ->
    Q font {| Layout.tables := alter f name (Layout.tables font) |}.

(** A method that runs [m] and then [k]. *)
Lemma bind_changes {A B} (m : Layout.M Subtable A) (k : A -> Layout.M Subtable B)
    (font : Layout.Font Subtable) :
  Q font (snd (m font)) ->
  (forall a font1, m font = (Ok a, font1) -> Q font1 (snd (k a font1))) ->
  Q font (snd ((m ≫= k) font)).
Proof.
  intros Hm Hk. unfold mbind, Layout.M_bind.
  destruct (m font) as [[a|e|] font1] eqn:E; simpl in *.
  - eapply Q_trans; [exact Hm | apply Hk; reflexivity].
  - exact Hm.
  - exact Hm.
Qed.

Lemma update_table_lookup (font : Layout.Font Subtable) (layout : Table Subtable)
    (f : Table Subtable -> Table Subtable) (font1 : Layout.Font Subtable) (u : unit) :
  Layout.tables font !! name = Some layout ->
  Layout.update_table this f font = (Ok u, font1) ->
  Layout.tables font1 !! name = Some (f layout).
Proof.
  intros HL [= _ <-]. simpl. rewrite lookup_alter_eq, HL. reflexivity.
Qed.

Lemma the_table_lookup (font font1 : Layout.Font Subtable) (layout : Table Subtable) :
  Layout.the_table this font = (Ok layout, font1) ->
  font1 = font /\ Layout.tables font !! name = Some layout.
Proof.
  unfold Layout.the_table.
  destruct (Layout.tables font !! name) as [l|]; [|discriminate].
  intros [= <- <-]. split; reflexivity.
Qed.

Lemma the_table_changes (font : Layout.Font Subtable) :
  Q font (snd (Layout.the_table this font)).
Proof.
  unfold Layout.the_table.
  destruct (Layout.tables font !! name); apply Q_refl.
Qed.

Lemma deref_changes {A} (o : option A) (font : Layout.Font Subtable) :
  Q font (snd (Layout.deref o font)).
Proof. destruct o; apply Q_refl. Qed.

Lemma deref_font {A} (o : option A) (a : A) (font font1 : Layout.Font Subtable) :
  Layout.deref o font = (Ok a, font1) -> font1 = font /\ o = Some a.
Proof. destruct o; [|discriminate]. intros [= <- <-]. split; reflexivity. Qed.

Lemma lift_changes {A} (r : res A) (font : Layout.Font Subtable) :
  Q font (snd (Layout.lift r font)).
Proof. apply Q_refl. Qed.

Lemma lift_font {A} (r : res A) (a : A) (font font1 : Layout.Font Subtable) :
  Layout.lift r font = (Ok a, font1) -> font1 = font /\ r = Ok a.
Proof. intros [= -> <-]. split; reflexivity. Qed.

Lemma check_assert_font (predicate : bool) (message : string)
    (font font1 : Layout.Font Subtable) (u : unit) :
  Layout.check_assert predicate message font = (Ok u, font1) ->
  font1 = font /\ predicate = true.
Proof. destruct predicate; [|discriminate]. intros [= _ <-]. split; reflexivity. Qed.

Lemma check_assert_changes (predicate : bool) (message : string)
    (font : Layout.Font Subtable) :
  Q font (snd (Layout.check_assert predicate message font)).
Proof. destruct predicate; apply Q_refl. Qed.

Lemma getTable_changes (font : Layout.Font Subtable) :
  Q font (snd (Layout.getTable createDefaultTable this create font)).
Proof.
  unfold Layout.getTable.
  destruct (Layout.tables font !! name) as [layout|] eqn:HL; [apply Q_refl|].
  destruct (Bool.bool_dec create true) as [Hcreate|Hcreate];
    [|apply not_true_is_false in Hcreate]; rewrite Hcreate; [|apply Q_refl]. simpl.
  apply Q_create; [exact Hcreate | exact HL].
Qed.

Lemma getTable_reads (font : Layout.Font Subtable) :
  snd (Layout.getTable createDefaultTable this false font) = font.
Proof.
  unfold Layout.getTable. destruct (Layout.tables font !! name); reflexivity.
Qed.

Lemma getScriptTable_changes (tg : string) (font : Layout.Font Subtable) :
  Q font (snd (Layout.getScriptTable createDefaultTable this tg create font)).
Proof.
  unfold Layout.getScriptTable.
  apply bind_changes; [apply getTable_changes|].
  intros [layout|] font1 Hget; [|apply Q_refl].
  apply getTable_some in Hget.
  apply bind_changes; [apply lift_changes|].
  intros pos font2 Hpos. apply lift_font in Hpos as [-> _].
  destruct (pos >=? 0).
  - apply bind_changes; [apply deref_changes|].
    intros r font3 Hr. apply Q_refl.
  - destruct (Bool.bool_dec create true) as [Hcreate|Hcreate];
    [|apply not_true_is_false in Hcreate]; rewrite Hcreate; [|apply Q_refl].
    apply bind_changes; [|intros; apply Q_refl].
    eapply Q_update; [exact Hcreate | exact Hget | apply AddScript].
Qed.

Lemma getLangSysTable_changes (tg language : string) (font : Layout.Font Subtable) :
  Q font
    (snd (Layout.getLangSysTable createDefaultTable this tg language create font)).
Proof.
  unfold Layout.getLangSysTable.
  apply bind_changes; [apply getScriptTable_changes|].
  intros [s|] font1 _; [|apply Q_refl].
  destruct (String.eqb language "dflt" || String.eqb language "DFLT");
    [apply Q_refl|].
  apply bind_changes; [apply the_table_changes|].
  intros layout font2 Hlayout. apply the_table_lookup in Hlayout as [-> HL].
  apply bind_changes; [apply deref_changes|].
  intros scriptTable font2 Hsc. apply deref_font in Hsc as [-> _].
  apply bind_changes; [apply lift_changes|].
  intros pos font2 Hpos. apply lift_font in Hpos as [-> _].
  destruct (pos >=? 0).
  - apply bind_changes; [apply deref_changes|].
    intros r font3 Hr. apply Q_refl.
  - destruct (Bool.bool_dec create true) as [Hcreate|Hcreate];
    [|apply not_true_is_false in Hcreate]; rewrite Hcreate; [|apply Q_refl].
    apply bind_changes; [|intros; apply Q_refl].
    eapply Q_update; [exact Hcreate | exact HL | apply AddLangSys].
Qed.

Lemma getFeatureTable_changes (tg language feature : string)
    (font : Layout.Font Subtable) :
  Q font
    (snd (Layout.getFeatureTable createDefaultTable this tg language feature create
            font)).
Proof.
  unfold Layout.getFeatureTable.
  apply bind_changes; [apply getLangSysTable_changes|].
  intros [l|] font1 _; [|apply Q_refl].
  apply bind_changes; [apply the_table_changes|].
  intros layout font2 Hlayout. apply the_table_lookup in Hlayout as [-> HL].
  apply bind_changes; [apply deref_changes|].
  intros langSysTable font2 Hls. apply deref_font in Hls as [-> _].
  apply bind_changes; [apply lift_changes|].
  intros [i|] font2 Hfound; apply lift_font in Hfound as [-> _];
    [apply Q_refl|].
  destruct (Bool.bool_dec create true) as [Hcreate|Hcreate];
    [|apply not_true_is_false in Hcreate]; rewrite Hcreate; [|apply Q_refl].
  apply bind_changes; [apply lift_changes|].
  intros ordered font2 Hord. apply lift_font in Hord as [-> Hord].
  apply bind_changes; [apply check_assert_changes|].
  intros u font2 Hcheck. apply check_assert_font in Hcheck as [-> ->].
  unfold mbind, Layout.M_bind, Layout.update_table. simpl.
  rewrite alter_alter_eq.
  apply (Q_update font1 layout _ Hcreate HL). apply AddFeature, Hord.
Qed.

Lemma getLookupTables_changes (tg language feature : string) (type : Z)
    (font : Layout.Font Subtable) :
  Q font
    (snd (Layout.getLookupTables createDefaultTable this tg language feature type
            create font)).
Proof.
  unfold Layout.getLookupTables.
  apply bind_changes; [apply getFeatureTable_changes|].
  intros [f|] font1 _; [|apply Q_refl].
  apply bind_changes; [apply the_table_changes|].
  intros layout font2 Hlayout. apply the_table_lookup in Hlayout as [-> HL].
  apply bind_changes; [apply deref_changes|].
  intros featureTable font2 Hft. apply deref_font in Hft as [-> _].
  apply bind_changes; [apply lift_changes|].
  intros tables font2 Htables. apply lift_font in Htables as [-> _].
  destruct (_ && create) eqn:Hboth; [|apply Q_refl].
  apply andb_true_iff in Hboth as [_ Hcreate].
  unfold mbind, Layout.M_bind, Layout.update_table. simpl.
  rewrite alter_alter_eq.
  apply (Q_update font1 layout _ Hcreate HL). apply AddLookup.
Qed.

Lemma forget_font {A} (m : Layout.M Subtable A) (font : Layout.Font Subtable) :
  snd (Layout.forget m font) = snd (m font).
Proof.
  unfold Layout.forget, mbind, Layout.M_bind.
  destruct (m font) as [[a|e|] font1]; reflexivity.
Qed.

(** Every call, by what it may do to the font. *)
Lemma run_changes (c : Layout.call) (font : Layout.Font Subtable) :
  demands_creation c = create ->
  Q font (snd (Layout.run createDefaultTable this c font)).
Proof.
  destruct c as [cr | | | sc cr | sc lang cr | sc lang feat cr | sc lang feat ty cr
                 | classDefTable glyphIndex | coverageTable glyphIndex
                 | coverageTable];
    unfold Layout.run; rewrite forget_font; simpl demands_creation;
    intros Hc; try apply Q_refl.
  - rewrite Hc. apply getTable_changes.
  - unfold Layout.getScriptNames.
    apply bind_changes; [rewrite getTable_reads; apply Q_refl|].
    intros [layout|] font1 _; apply Q_refl.
  - unfold Layout.getDefaultScriptName.
    apply bind_changes; [rewrite getTable_reads; apply Q_refl|].
    intros [layout|] font1 _; apply Q_refl.
  - rewrite Hc. apply getScriptTable_changes.
  - rewrite Hc. apply getLangSysTable_changes.
  - rewrite Hc. apply getFeatureTable_changes.
  - rewrite Hc. apply getLookupTables_changes.
Qed.

End Changes.

Section Evolution.

Context {Subtable : Type} (createDefaultTable : Table Subtable) (this : Layout.t).

Local Abbreviation name := (Layout.tableName this).
Local Abbreviation evolve := (evolves createDefaultTable (Layout.tableName this)).

Lemma evolves_trans (font1 font2 font3 : Layout.Font Subtable) :
  evolve font1 font2 -> evolve font2 font3 -> evolve font1 font3.
Proof.
  induction 1 as [font | font font' Hnone _ IH | font font' layout f HL Hup _ IH];
    intros H23.
  - exact H23.
  - apply evolves_create; [exact Hnone | apply IH, H23].
  - eapply evolves_update; [exact HL | exact Hup | apply IH, H23].
Qed.

(** Every call changes the font by updates of the table only. *)
Lemma run_evolves (c : Layout.call) (font : Layout.Font Subtable) :
  evolve font (snd (Layout.run createDefaultTable this c font)).
Proof.
  apply (run_changes createDefaultTable this evolve (demands_creation c)).
  - apply evolves_refl.
  - apply evolves_trans.
  - intros font0 _ Hnone. apply evolves_create; [exact Hnone | apply evolves_refl].
  - intros font0 layout f _ HL Hup.
    eapply evolves_update; [exact HL | exact Hup | apply evolves_refl].
  - reflexivity.
Qed.

(** The table of another name is not touched. *)
Lemma evolves_frame (font font' : Layout.Font Subtable) (other : string) :
  evolve font font' -> other <> name ->
  Layout.tables font' !! other = Layout.tables font !! other.
Proof.
  intros Hev Hother.
  induction Hev as [font | font font' Hnone _ IH | font font' layout f HL Hup _ IH].
  - reflexivity.
  - rewrite IH. simpl. apply lookup_insert_ne. congruence.
  - rewrite IH. simpl. apply lookup_alter_ne. congruence.
Qed.

(** A relation between tables that holds of every update holds between
    the table before and the table after. *)
Lemma evolves_related (Rel : Table Subtable -> Table Subtable -> Prop)
    (font font' : Layout.Font Subtable) (layout : Table Subtable) :
  (forall a, Rel a a) ->
  (forall a b c, Rel a b -> Rel b c -> Rel a c) ->
  (forall a f, update a f -> Rel a (f a)) ->
  evolve font font' ->
  Layout.tables font !! name = Some layout ->
  exists layout', Layout.tables font' !! name = Some layout' /\ Rel layout layout'.
Proof.
  intros Hrefl Htrans Hstep Hev. revert layout.
  induction Hev as [font | font font' Hnone _ IH | font font' layout0 f HL0 Hup _ IH];
    intros layout HL.
  - exists layout. split; [exact HL | apply Hrefl].
  - congruence.
  - assert (layout0 = layout) by congruence. subst layout0.
    destruct (IH (f layout)) as (layout' & HL' & Hrel).
    { simpl. rewrite lookup_alter_eq, HL. reflexivity. }
    exists layout'. split; [exact HL'|].
    eapply Htrans; [apply Hstep, Hup | exact Hrel].
Qed.

End Evolution.

(** ** What the calls leave alone *)

(** X7: a call that does not ask for creation ([getScriptNames],
    [getDefaultScriptName], the classification queries, and the other methods
    with [create] false) leaves the font exactly as it is, on every font and
    also when it throws. *)
Theorem queries_leave_the_font {Subtable : Type}
    (createDefaultTable : Table Subtable) (this : Layout.t)
    (c : Layout.call) (font : Layout.Font Subtable) :
  demands_creation c = false ->
  snd (Layout.run createDefaultTable this c font) = font.
Proof.
  intros Hc. symmetry.
  apply (run_changes createDefaultTable this eq false); try discriminate.
  - reflexivity.
  - intros font1 font2 font3 -> ->. reflexivity.
  - exact Hc.
Qed.

Lemma queries_leave_the_font_witness :
  snd (Layout.run empty_table gsub
         (Layout.GetLookupTables "latn" "dflt" "liga" 4 false)
         (font_with two_scripts))
  = font_with two_scripts.
Proof.
  apply (queries_leave_the_font empty_table gsub
           (Layout.GetLookupTables "latn" "dflt" "liga" 4 false)
           (font_with two_scripts)).
  reflexivity.
Defined.

(** X8: no call, with or without [create], touches a table of the font
    other than the one under the name of the Layout object, and no call
    removes that one: on every font, also when the call throws. *)
Theorem calls_touch_one_table {Subtable : Type}
    (createDefaultTable : Table Subtable) (this : Layout.t)
    (c : Layout.call) (font : Layout.Font Subtable) :
  (forall other : string,
      other <> Layout.tableName this ->
      Layout.tables (snd (Layout.run createDefaultTable this c font)) !! other
      = Layout.tables font !! other)
  /\ (is_Some (Layout.tables font !! Layout.tableName this) ->
      is_Some (Layout.tables (snd (Layout.run createDefaultTable this c font))
                 !! Layout.tableName this)).
Proof.
  pose proof (run_evolves createDefaultTable this c font) as Hev. split.
  - intros other Hother. eapply evolves_frame; eassumption.
  - intros [layout HL].
    destruct (evolves_related createDefaultTable this (fun _ _ => True) _ _ layout
                (fun _ => I) (fun _ _ _ _ _ => I) (fun _ _ _ => I) Hev HL)
      as (layout' & HL' & _).
    exists layout'. exact HL'.
Qed.

Lemma calls_touch_one_table_witness :
  Layout.tables
    (snd (Layout.run empty_table gsub
            (Layout.GetLookupTables "cyrl" "SRB " "liga" 4 true)
            (font_with two_scripts))) !! "GPOS"%string
  = Layout.tables (font_with two_scripts) !! "GPOS"%string.
Proof.
  apply (calls_touch_one_table empty_table gsub
           (Layout.GetLookupTables "cyrl" "SRB " "liga" 4 true)
           (font_with two_scripts)).
  discriminate.
Defined.

(** ** What the updates keep *)

Lemma len_push {A} (arr : list A) (x : A) : len (push arr x) = len arr + 1.
Proof. unfold len, push. rewrite length_app. simpl. lia. Qed.

Lemma elem_of_push {A} (arr : list A) (x y : A) :
  y ∈ push arr x <-> y ∈ arr \/ y = x.
Proof. unfold push. rewrite elem_of_app, list_elem_of_singleton. reflexivity. Qed.

Lemma item_push_old {A} (arr : list A) (x y : A) (i : Z) :
  item arr i = Some y -> item (push arr x) i = Some y.
Proof.
  intros Hi. apply item_Some in Hi as [Hi0 Hi]. apply item_Some. split; [exact Hi0|].
  unfold push. apply lookup_app_l_Some. exact Hi.
Qed.

Lemma len_alter_at {A} (f : A -> A) (i : Z) (arr : list A) :
  len (Layout.alter_at i f arr) = len arr.
Proof.
  unfold Layout.alter_at, len. destruct (i <? 0); [reflexivity|].
  rewrite length_alter. reflexivity.
Qed.

Lemma item_alter_at_ne {A} (f : A -> A) (i j : Z) (arr : list A) :
  i <> j -> item (Layout.alter_at j f arr) i = item arr i.
Proof.
  intros Hij. unfold Layout.alter_at. destruct (Z.ltb_spec j 0); [reflexivity|].
  unfold item. destruct (Z.ltb_spec i 0); [reflexivity|].
  apply list_lookup_alter_ne. lia.
Qed.

(** What is in an array is still there, as it was or changed, after a
    change at one index. *)
Lemma alter_at_elem {A} (f : A -> A) (i : Z) (arr : list A) (x : A) :
  x ∈ arr -> exists x', x' ∈ Layout.alter_at i f arr /\ (x' = x \/ x' = f x).
Proof.
  intros Hx. apply list_elem_of_lookup_1 in Hx as [k Hk].
  destruct (Z.eq_dec (Z.of_nat k) i) as [Hki|Hki].
  - exists (f x). split; [|right; reflexivity].
    apply (item_elem_of _ i). rewrite item_alter_at, <- Hki, item_nat, Hk. reflexivity.
  - exists x. split; [|left; reflexivity].
    apply (item_elem_of _ (Z.of_nat k)).
    rewrite item_alter_at_ne by exact Hki. rewrite item_nat. exact Hk.
Qed.

Lemma forallb_elem_of {A} (p : A -> bool) (l : list A) :
  forallb p l = true <-> forall x, x ∈ l -> p x = true.
Proof.
  rewrite forallb_forall. split; intros H x Hx; apply H, list_elem_of_In, Hx.
Qed.

Lemma in_range_spec {A} (arr : list A) (i : Z) :
  in_range arr i = true <-> 0 <= i < len arr.
Proof. unfold in_range. rewrite andb_true_iff, Z.leb_le, Z.ltb_lt. reflexivity. Qed.

Lemma ascending_by_push {A} (R : A -> A -> bool) (l : list A) (x : A) :
  ascending_by R l = true ->
  (forall y, last l = Some y -> R y x = true) ->
  ascending_by R (l ++ [x]) = true.
Proof.
  induction l as [|a l IH]; intros Hasc Hlast; [reflexivity|].
  destruct l as [|b l].
  - simpl. rewrite (Hlast a eq_refl). reflexivity.
  - change (R a b && ascending_by R (b :: l) = true) in Hasc.
    apply andb_true_iff in Hasc as [Hab Hrest].
    change (R a b && ascending_by R ((b :: l) ++ [x]) = true).
    rewrite Hab. apply IH; [exact Hrest|]. intros y Hy. apply Hlast. exact Hy.
Qed.

(** The check of [getFeatureTable] on the order: the tag is not below
    the tag of the last feature. *)
Lemma alphabetical_last (allFeatures : list FeatureRecord) (feature : string)
    (fr : FeatureRecord) :
  Layout.alphabetical allFeatures feature = Ok true ->
  last allFeatures = Some fr ->
  String.leb (tag fr) feature = true.
Proof.
  unfold Layout.alphabetical. intros Hal Hlast.
  rewrite item_last, Hlast in Hal.
  destruct (Z.eqb_spec (len allFeatures) 0) as [Hzero|_].
  - destruct allFeatures; [discriminate Hlast | discriminate Hzero].
  - injection Hal as Hal. rewrite str_leb_ltb. exact Hal.
Qed.

Section Kept.

Context {Subtable : Type}.

(** The indexes of a table do not dangle, spelled out. *)
Local Abbreviation indexes_resolve layout :=
  ((forall r, r ∈ scripts layout ->
      (forall i, i ∈ featureIndexes (defaultLangSys (script r)) ->
                 0 <= i < len (features layout))
      /\ (forall record, record ∈ langSysRecords (script r) ->
            forall i, i ∈ featureIndexes (langSys record) ->
                      0 <= i < len (features layout)))
   /\ (forall fr, fr ∈ features layout ->
         forall i, i ∈ lookupListIndexes (feature fr) ->
                   0 <= i < len (lookups layout))).

Lemma well_indexed_spec (layout : Table Subtable) :
  well_indexed layout = true <-> indexes_resolve layout.
Proof.
  unfold well_indexed, langSys_indexed. rewrite andb_true_iff, !forallb_elem_of.
  split.
  - intros [Hs Hf]. split.
    + intros r Hr. specialize (Hs r Hr). apply andb_true_iff in Hs as [Hd Hrec].
      rewrite forallb_elem_of in Hd. rewrite forallb_elem_of in Hrec. split.
      * intros i Hi. apply in_range_spec, Hd, Hi.
      * intros record Hrecord i Hi. specialize (Hrec record Hrecord).
        rewrite forallb_elem_of in Hrec. apply in_range_spec, Hrec, Hi.
    + intros fr Hfr i Hi. specialize (Hf fr Hfr).
      rewrite forallb_elem_of in Hf. apply in_range_spec, Hf, Hi.
  - intros [Hs Hf]. split.
    + intros r Hr. destruct (Hs r Hr) as [Hd Hrec].
      apply andb_true_iff. rewrite !forallb_elem_of. split.
      * intros i Hi. apply in_range_spec, Hd, Hi.
      * intros record Hrecord. rewrite forallb_elem_of.
        intros i Hi. apply in_range_spec. eapply Hrec; eassumption.
    + intros fr Hfr. rewrite forallb_elem_of.
      intros i Hi. apply in_range_spec. eapply Hf; eassumption.
Qed.

(** The four pushes keep the indexes in range. *)
Lemma push_feature_well_indexed (layout : Table Subtable)
    (featureRecord : FeatureRecord) :
  lookupListIndexes (feature featureRecord) = [] ->
  well_indexed layout = true ->
  well_indexed (Layout.set_features (fun fs => push fs featureRecord) layout) = true.
Proof.
  intros Hnew. rewrite !well_indexed_spec. intros [Hs Hf]. simpl. split.
  - intros r Hr. destruct (Hs r Hr) as [Hd Hrec]. rewrite len_push. split.
    + intros i Hi. specialize (Hd i Hi). lia.
    + intros record Hrecord i Hi. specialize (Hrec record Hrecord i Hi). lia.
  - intros fr Hfr. apply elem_of_push in Hfr as [Hfr| ->]; [apply Hf, Hfr|].
    rewrite Hnew. intros i Hi. apply elem_of_nil in Hi. contradiction.
Qed.

Lemma push_feature_index_well_indexed (layout : Table Subtable) (l : LangSysRef)
    (index : Z) :
  0 <= index < len (features layout) ->
  well_indexed layout = true ->
  well_indexed
    (Layout.at_langSys l (fun ls =>
       {| reserved := reserved ls;
          reqFeatureIndex := reqFeatureIndex ls;
          featureIndexes := push (featureIndexes ls) index |}) layout) = true.
Proof.
  intros Hindex. rewrite !well_indexed_spec. intros [Hs Hf].
  rewrite features_at_langSys. split.
  2:{ destruct l; exact Hf. }
  destruct l as [s|s k]; simpl; intros r Hr;
    apply elem_of_alter_at in Hr as [Hr|(a & Ha & ->)];
    try (apply Hs, Hr); apply item_elem_of in Ha;
    destruct (Hs a Ha) as [Hd Hrec]; simpl.
  - split; [|exact Hrec].
    intros i Hi. apply elem_of_push in Hi as [Hi| ->]; [apply Hd, Hi | exact Hindex].
  - split; [exact Hd|].
    intros record Hrecord.
    apply elem_of_alter_at in Hrecord as [Hrecord|(b & Hb & ->)];
      [apply Hrec, Hrecord|].
    apply item_elem_of in Hb. simpl.
    intros i Hi. apply elem_of_push in Hi as [Hi| ->]; [|exact Hindex].
    eapply Hrec; eassumption.
Qed.

Lemma push_lookup_well_indexed (layout : Table Subtable)
    (lookupTable : Lookup Subtable) :
  well_indexed layout = true ->
  well_indexed (Layout.set_lookups (fun ls => push ls lookupTable) layout) = true.
Proof.
  rewrite !well_indexed_spec. intros [Hs Hf].
  split; [exact Hs|]. simpl. intros fr Hfr i Hi. rewrite len_push.
  specialize (Hf fr Hfr i Hi). lia.
Qed.

Lemma push_lookup_index_well_indexed (layout : Table Subtable) (f : FeatureRef)
    (index : Z) :
  0 <= index < len (lookups layout) ->
  well_indexed layout = true ->
  well_indexed
    (Layout.at_feature f (fun ft =>
       {| params := params ft;
          lookupListIndexes := push (Graph.lookupListIndexes ft) index |}) layout)
  = true.
Proof.
  intros Hindex. rewrite !well_indexed_spec. intros [Hs Hf]. simpl. split.
  - intros r Hr. rewrite len_alter_at. apply Hs, Hr.
  - intros fr Hfr.
    apply elem_of_alter_at in Hfr as [Hfr|(a & Ha & ->)]; [apply Hf, Hfr|].
    apply item_elem_of in Ha. simpl.
    intros i Hi. apply elem_of_push in Hi as [Hi| ->]; [|exact Hindex].
    eapply Hf; eassumption.
Qed.

(** Every update keeps the indexes in range. *)
Lemma update_well_indexed (layout : Table Subtable)
    (f : Table Subtable -> Table Subtable) :
  update layout f -> well_indexed layout = true -> well_indexed (f layout) = true.
Proof.
  intros [layout' tg m | layout' s language m | layout' l tg Hal | layout' ft type]
    Hwell.
  - (* a script is added *)
    apply well_indexed_spec in Hwell as [Hs Hf]. apply well_indexed_spec.
    split; [|exact Hf]. simpl. intros r Hr.
    apply elem_of_splice_insert in Hr as [->|Hr]; [|apply Hs, Hr].
    simpl. split.
    + intros i Hi. apply elem_of_nil in Hi. contradiction.
    + intros record Hrecord. apply elem_of_nil in Hrecord. contradiction.
  - (* a language system is added *)
    apply well_indexed_spec in Hwell as [Hs Hf]. apply well_indexed_spec.
    split; [|exact Hf]. simpl. intros r Hr.
    apply elem_of_alter_at in Hr as [Hr|(a & Ha & ->)]; [apply Hs, Hr|].
    apply item_elem_of in Ha. destruct (Hs a Ha) as [Hd Hrec]. simpl.
    split; [exact Hd|].
    intros record Hrecord.
    apply elem_of_splice_insert in Hrecord as [->|Hrecord]; [|apply Hrec, Hrecord].
    simpl. intros i Hi. apply elem_of_nil in Hi. contradiction.
  - (* a feature and its index are pushed *)
    unfold compose. apply push_feature_index_well_indexed.
    + simpl. rewrite len_push. unfold len. lia.
    + apply push_feature_well_indexed; [reflexivity | exact Hwell].
  - (* a lookup and its index are pushed *)
    unfold compose. apply push_lookup_index_well_indexed.
    + simpl. rewrite len_push. unfold len. lia.
    + apply push_lookup_well_indexed, Hwell.
Qed.

(** Every update keeps the features sorted by tag. *)
Lemma update_features_sorted (layout : Table Subtable)
    (f : Table Subtable -> Table Subtable) :
  update layout f ->
  sorted_by_tag (features layout) -> sorted_by_tag (features (f layout)).
Proof.
  unfold sorted_by_tag.
  intros [layout' tg m | layout' s language m | layout' l tg Hal | layout' ft type]
    Hsorted.
  - exact Hsorted.
  - exact Hsorted.
  - unfold compose. rewrite features_at_langSys. simpl.
    unfold push. rewrite fmap_app. apply ascending_by_push; [exact Hsorted|].
    intros y Hy. rewrite fmap_last in Hy.
    destruct (last (features layout')) as [fr|] eqn:Hlast; [|discriminate].
    injection Hy as <-. eapply alphabetical_last; eassumption.
  - unfold compose. simpl. rewrite fmap_alter_at; [exact Hsorted | reflexivity].
Qed.

End Kept.

(** ** Tables only grow *)

Lemma langSys_grows_refl (ls : LangSys) : langSys_grows ls ls.
Proof. split; [reflexivity|]. split; reflexivity. Qed.

Lemma langSys_grows_trans (a b c : LangSys) :
  langSys_grows a b -> langSys_grows b c -> langSys_grows a c.
Proof.
  intros (H1 & H2 & H3) (K1 & K2 & K3).
  split; [congruence|]. split; [congruence | etransitivity; eassumption].
Qed.

Lemma langSys_grows_push (ls : LangSys) (index : Z) :
  langSys_grows ls {| reserved := reserved ls;
                      reqFeatureIndex := reqFeatureIndex ls;
                      featureIndexes := push (featureIndexes ls) index |}.
Proof.
  split; [reflexivity|]. split; [reflexivity|]. simpl. exists [index]. reflexivity.
Qed.

Lemma script_grows_refl (sc : Script) : script_grows sc sc.
Proof.
  split; [apply langSys_grows_refl|].
  intros record Hrecord. exists record.
  split; [exact Hrecord|]. split; [reflexivity | apply langSys_grows_refl].
Qed.

Lemma script_grows_trans (a b c : Script) :
  script_grows a b -> script_grows b c -> script_grows a c.
Proof.
  intros [Hd Hrec] [Kd Krec]. split; [eapply langSys_grows_trans; eassumption|].
  intros record Hrecord.
  destruct (Hrec record Hrecord) as (record1 & Hin1 & Htag1 & Hg1).
  destruct (Krec record1 Hin1) as (record2 & Hin2 & Htag2 & Hg2).
  exists record2. split; [exact Hin2|]. split; [congruence|].
  eapply langSys_grows_trans; eassumption.
Qed.

Lemma feature_grows_refl (ft : Feature) : feature_grows ft ft.
Proof. split; reflexivity. Qed.

Lemma feature_grows_trans (a b c : Feature) :
  feature_grows a b -> feature_grows b c -> feature_grows a c.
Proof.
  intros [H1 H2] [K1 K2]. split; [congruence | etransitivity; eassumption].
Qed.

Section Grows.

Context {Subtable : Type}.

Lemma grows_refl (layout : Table Subtable) : grows layout layout.
Proof.
  split; [reflexivity|]. split.
  - intros i fr Hi. exists fr.
    split; [exact Hi|]. split; [reflexivity | apply feature_grows_refl].
  - intros r Hr. exists r.
    split; [exact Hr|]. split; [reflexivity | apply script_grows_refl].
Qed.

Lemma grows_trans (a b c : Table Subtable) : grows a b -> grows b c -> grows a c.
Proof.
  intros (Hl & Hf & Hs) (Kl & Kf & Ks). split; [etransitivity; eassumption|]. split.
  - intros i fr Hi.
    destruct (Hf i fr Hi) as (fr1 & Hi1 & Htag1 & Hg1).
    destruct (Kf i fr1 Hi1) as (fr2 & Hi2 & Htag2 & Hg2).
    exists fr2. split; [exact Hi2|]. split; [congruence|].
    eapply feature_grows_trans; eassumption.
  - intros r Hr.
    destruct (Hs r Hr) as (r1 & Hr1 & Htag1 & Hg1).
    destruct (Ks r1 Hr1) as (r2 & Hr2 & Htag2 & Hg2).
    exists r2. split; [exact Hr2|]. split; [congruence|].
    eapply script_grows_trans; eassumption.
Qed.

(** The scripts grow when one of them does, at its place. *)
Lemma at_script_grows (s : ScriptRef) (h : Script -> Script)
    (layout : Table Subtable) :
  (forall sc, script_grows sc (h sc)) ->
  grows layout (Layout.at_script s h layout).
Proof.
  intros Hh. split; [reflexivity|]. split.
  - intros i fr Hi. exists fr.
    split; [exact Hi|]. split; [reflexivity | apply feature_grows_refl].
  - intros r Hr. simpl.
    destruct (alter_at_elem
                (fun r => {| sr_tag := sr_tag r; script := h (script r) |})
                s (scripts layout) r Hr) as (r' & Hr' & [->| ->]).
    + exists r. split; [exact Hr'|]. split; [reflexivity | apply script_grows_refl].
    + eexists. split; [exact Hr'|]. split; [reflexivity | apply Hh].
Qed.

(** The four pushes make the table grow. *)
Lemma push_feature_grows (layout : Table Subtable) (featureRecord : FeatureRecord) :
  grows layout (Layout.set_features (fun fs => push fs featureRecord) layout).
Proof.
  split; [reflexivity|]. split.
  - intros i fr Hi. exists fr. split.
    + simpl. apply item_push_old, Hi.
    + split; [reflexivity | apply feature_grows_refl].
  - intros r Hr. exists r.
    split; [exact Hr|]. split; [reflexivity | apply script_grows_refl].
Qed.

Lemma push_feature_index_grows (layout : Table Subtable) (l : LangSysRef)
    (index : Z) :
  grows layout
    (Layout.at_langSys l (fun ls =>
       {| reserved := reserved ls;
          reqFeatureIndex := reqFeatureIndex ls;
          featureIndexes := push (featureIndexes ls) index |}) layout).
Proof.
  destruct l as [s|s k]; simpl; apply at_script_grows; intros sc.
  - split; [apply langSys_grows_push|].
    intros record Hrecord. exists record.
    split; [exact Hrecord|]. split; [reflexivity | apply langSys_grows_refl].
  - split; [apply langSys_grows_refl|].
    intros record Hrecord. simpl.
    destruct (alter_at_elem
                (fun r => {| lsr_tag := lsr_tag r;
                             langSys :=
                               {| reserved := reserved (langSys r);
                                  reqFeatureIndex := reqFeatureIndex (langSys r);
                                  featureIndexes :=
                                    push (featureIndexes (langSys r)) index |} |})
                k (langSysRecords sc) record Hrecord) as (record' & Hin & [->| ->]).
    + exists record.
      split; [exact Hin|]. split; [reflexivity | apply langSys_grows_refl].
    + eexists. split; [exact Hin|]. split; [reflexivity | apply langSys_grows_push].
Qed.

Lemma push_lookup_grows (layout : Table Subtable) (lookupTable : Lookup Subtable) :
  grows layout (Layout.set_lookups (fun ls => push ls lookupTable) layout).
Proof.
  split; [simpl; exists [lookupTable]; reflexivity|].
  split.
  - intros i fr Hi. exists fr.
    split; [exact Hi|]. split; [reflexivity | apply feature_grows_refl].
  - intros r Hr. exists r.
    split; [exact Hr|]. split; [reflexivity | apply script_grows_refl].
Qed.

Lemma push_lookup_index_grows (layout : Table Subtable) (f : FeatureRef)
    (index : Z) :
  grows layout
    (Layout.at_feature f (fun ft =>
       {| params := params ft;
          lookupListIndexes := push (Graph.lookupListIndexes ft) index |}) layout).
Proof.
  split; [reflexivity|]. split.
  - intros i fr Hi. simpl.
    destruct (Z.eq_dec i f) as [->|Hne].
    + eexists. split; [rewrite item_alter_at, Hi; reflexivity|].
      split; [reflexivity|]. split; [reflexivity|].
      simpl. exists [index]. reflexivity.
    + exists fr. split; [rewrite item_alter_at_ne by exact Hne; exact Hi|].
      split; [reflexivity | apply feature_grows_refl].
  - intros r Hr. exists r.
    split; [exact Hr|]. split; [reflexivity | apply script_grows_refl].
Qed.

(** Every update makes the table grow. *)
Lemma update_grows (layout : Table Subtable) (f : Table Subtable -> Table Subtable) :
  update layout f -> grows layout (f layout).
Proof.
  intros [layout' tg m | layout' s language m | layout' l tg Hal | layout' ft type].
  - split; [reflexivity|]. split.
    + intros i fr Hi. exists fr.
      split; [exact Hi|]. split; [reflexivity | apply feature_grows_refl].
    + intros r Hr. exists r. split.
      * simpl. apply elem_of_splice_insert. right. exact Hr.
      * split; [reflexivity | apply script_grows_refl].
  - apply at_script_grows. intros sc. split; [apply langSys_grows_refl|].
    intros record Hrecord. exists record. split.
    + simpl. apply elem_of_splice_insert. right. exact Hrecord.
    + split; [reflexivity | apply langSys_grows_refl].
  - unfold compose.
    eapply grows_trans; [apply push_feature_grows | apply push_feature_index_grows].
  - unfold compose.
    eapply grows_trans; [apply push_lookup_grows | apply push_lookup_index_grows].
Qed.

End Grows.

(** X9: whatever a call does to the table of the Layout object, the
    table only grows, on every font and also when the call throws: every
    lookup stays at its index as it is; every feature stays at its index
    under its tag, with the same parameters and with lookup indexes added at
    the end only; every script is still there under its tag, with its default
    language system and each of its language systems, which keep their
    [reserved] and [reqFeatureIndex] and get feature indexes added at the end
    only. Nothing is removed, reordered among the features and lookups, or
    overwritten. *)
Theorem calls_only_add {Subtable : Type}
    (createDefaultTable : Table Subtable) (this : Layout.t)
    (c : Layout.call) (font : Layout.Font Subtable) (layout : Table Subtable) :
  Layout.tables font !! Layout.tableName this = Some layout ->
  exists layout',
    Layout.tables (snd (Layout.run createDefaultTable this c font))
      !! Layout.tableName this = Some layout'
    /\ grows layout layout'.
Proof.
  intros HL.
  apply (evolves_related createDefaultTable this grows font _ layout).
  - apply grows_refl.
  - apply grows_trans.
  - apply update_grows.
  - apply run_evolves.
  - exact HL.
Qed.

Lemma calls_only_add_witness :
  exists layout',
    Layout.tables
      (snd (Layout.run empty_table gsub
              (Layout.GetLookupTables "DFLT" "dflt" "kern" 2 true)
              (font_with one_feature))) !! "GSUB"%string = Some layout'
    /\ grows one_feature layout'.
Proof.
  apply (calls_only_add empty_table gsub
           (Layout.GetLookupTables "DFLT" "dflt" "kern" 2 true)
           (font_with one_feature) one_feature).
  reflexivity.
Defined.

Lemma added_fresh_refl (n n' : Z) (l : list Z) : added_fresh n n' l l.
Proof.
  exists []. split; [rewrite app_nil_r; reflexivity|].
  intros i Hi. apply elem_of_nil in Hi. contradiction.
Qed.

Lemma added_fresh_trans (n1 n2 n3 : Z) (a b c : list Z) :
  n1 <= n2 -> n2 <= n3 ->
  added_fresh n1 n2 a b -> added_fresh n2 n3 b c -> added_fresh n1 n3 a c.
Proof.
  intros H12 H23 (x & -> & Hx) (y & -> & Hy). exists (x ++ y).
  split; [rewrite app_assoc; reflexivity|].
  intros i Hi. apply elem_of_app in Hi as [Hi|Hi].
  - specialize (Hx i Hi). lia.
  - specialize (Hy i Hi). lia.
Qed.

Lemma added_fresh_push (n : Z) (l : list Z) : added_fresh n (n + 1) l (push l n).
Proof.
  exists [n]. split; [reflexivity|].
  intros i Hi. apply list_elem_of_singleton in Hi. lia.
Qed.

Lemma script_adds_fresh_refl (n n' : Z) (sc : Script) : script_adds_fresh n n' sc sc.
Proof.
  split; [apply added_fresh_refl|].
  intros record Hrecord. exists record.
  split; [exact Hrecord|]. split; [reflexivity | apply added_fresh_refl].
Qed.

Lemma script_adds_fresh_trans (n1 n2 n3 : Z) (a b c : Script) :
  n1 <= n2 -> n2 <= n3 ->
  script_adds_fresh n1 n2 a b -> script_adds_fresh n2 n3 b c ->
  script_adds_fresh n1 n3 a c.
Proof.
  intros H12 H23 [Hd Hrec] [Kd Krec].
  split; [eapply added_fresh_trans; eassumption|].
  intros record Hrecord.
  destruct (Hrec record Hrecord) as (record1 & Hin1 & Htag1 & Hf1).
  destruct (Krec record1 Hin1) as (record2 & Hin2 & Htag2 & Hf2).
  exists record2. split; [exact Hin2|]. split; [congruence|].
  eapply added_fresh_trans; eassumption.
Qed.

Section Fresh.

Context {Subtable : Type}.

Lemma adds_fresh_refl (layout : Table Subtable) : adds_fresh_indexes layout layout.
Proof.
  split; [lia|]. split; [lia|]. split.
  - intros i fr Hi. exists fr. split; [exact Hi | apply added_fresh_refl].
  - intros r Hr. exists r.
    split; [exact Hr|]. split; [reflexivity | apply script_adds_fresh_refl].
Qed.

Lemma adds_fresh_trans (a b c : Table Subtable) :
  adds_fresh_indexes a b -> adds_fresh_indexes b c -> adds_fresh_indexes a c.
Proof.
  intros (Hf & Hl & Hfs & Hs) (Kf & Kl & Kfs & Ks).
  split; [lia|]. split; [lia|]. split.
  - intros i fr Hi.
    destruct (Hfs i fr Hi) as (fr1 & Hi1 & Hf1).
    destruct (Kfs i fr1 Hi1) as (fr2 & Hi2 & Hf2).
    exists fr2. split; [exact Hi2|]. eapply added_fresh_trans; eassumption.
  - intros r Hr.
    destruct (Hs r Hr) as (r1 & Hr1 & Htag1 & Hf1).
    destruct (Ks r1 Hr1) as (r2 & Hr2 & Htag2 & Hf2).
    exists r2. split; [exact Hr2|]. split; [congruence|].
    eapply script_adds_fresh_trans; eassumption.
Qed.

Lemma lookups_at_langSys (layout : Table Subtable) (l : LangSysRef)
    (f : LangSys -> LangSys) :
  lookups (Layout.at_langSys l f layout) = lookups layout.
Proof. destruct l; reflexivity. Qed.

(** A change of the scripts that adds fresh indexes to their language
    systems and leaves the features and the lookups alone. *)
Lemma at_script_fresh (s : ScriptRef) (h : Script -> Script)
    (layout : Table Subtable) :
  (forall sc, script_adds_fresh (len (features layout)) (len (features layout))
                                sc (h sc)) ->
  adds_fresh_indexes layout (Layout.at_script s h layout).
Proof.
  intros Hh. split; [simpl; lia|]. split; [simpl; lia|]. split.
  - intros i fr Hi. exists fr. split; [exact Hi | apply added_fresh_refl].
  - intros r Hr. simpl.
    destruct (alter_at_elem
                (fun r => {| sr_tag := sr_tag r; script := h (script r) |})
                s (scripts layout) r Hr) as (r' & Hr' & [->| ->]).
    + exists r. split; [exact Hr'|].
      split; [reflexivity | apply script_adds_fresh_refl].
    + eexists. split; [exact Hr'|]. split; [reflexivity | apply Hh].
Qed.

(** The scripts of a table after an index [n] was pushed to the language
    system [l]. *)
Lemma push_feature_index_fresh (layout : Table Subtable) (l : LangSysRef) (n : Z)
    (r : ScriptRecord) :
  r ∈ scripts layout ->
  exists r',
    r' ∈ scripts (Layout.at_langSys l (fun ls =>
                    {| reserved := reserved ls;
                       reqFeatureIndex := reqFeatureIndex ls;
                       featureIndexes := push (featureIndexes ls) n |}) layout)
    /\ tag r' = tag r
    /\ script_adds_fresh n (n + 1) (script r) (script r').
Proof.
  intros Hr. destruct l as [s|s k]; simpl.
  - destruct (alter_at_elem
                (fun r => {| sr_tag := sr_tag r;
                             script :=
                               {| defaultLangSys :=
                                    {| reserved := reserved (defaultLangSys (script r));
                                       reqFeatureIndex :=
                                         reqFeatureIndex (defaultLangSys (script r));
                                       featureIndexes :=
                                         push (featureIndexes
                                                 (defaultLangSys (script r))) n |};
                                  langSysRecords := langSysRecords (script r) |} |})
                s (scripts layout) r Hr) as (r' & Hr' & [->| ->]).
    + exists r. split; [exact Hr'|].
      split; [reflexivity | apply script_adds_fresh_refl].
    + eexists. split; [exact Hr'|]. split; [reflexivity|].
      split; [apply added_fresh_push|].
      intros record Hrecord. exists record.
      split; [exact Hrecord|]. split; [reflexivity | apply added_fresh_refl].
  - destruct (alter_at_elem
                (fun r => {| sr_tag := sr_tag r;
                             script :=
                               Layout.set_langSysRecords
                                 (Layout.alter_at k (fun record =>
                                    {| lsr_tag := lsr_tag record;
                                       langSys :=
                                         {| reserved := reserved (langSys record);
                                            reqFeatureIndex :=
                                              reqFeatureIndex (langSys record);
                                            featureIndexes :=
                                              push (featureIndexes (langSys record))
                                                   n |} |}))
                                 (script r) |})
                s (scripts layout) r Hr) as (r' & Hr' & [->| ->]).
    + exists r. split; [exact Hr'|].
      split; [reflexivity | apply script_adds_fresh_refl].
    + eexists. split; [exact Hr'|]. split; [reflexivity|].
      split; [apply added_fresh_refl|].
      intros record Hrecord. simpl.
      destruct (alter_at_elem
                  (fun record => {| lsr_tag := lsr_tag record;
                                    langSys :=
                                      {| reserved := reserved (langSys record);
                                         reqFeatureIndex :=
                                           reqFeatureIndex (langSys record);
                                         featureIndexes :=
                                           push (featureIndexes (langSys record))
                                                n |} |})
                  k (langSysRecords (script r)) record Hrecord)
        as (record' & Hin & [->| ->]).
      * exists record.
        split; [exact Hin|]. split; [reflexivity | apply added_fresh_refl].
      * eexists. split; [exact Hin|]. split; [reflexivity | apply added_fresh_push].
Qed.

(** Every index that an update adds is the index of what it pushes. *)
Lemma update_adds_fresh (layout : Table Subtable)
    (f : Table Subtable -> Table Subtable) :
  update layout f -> adds_fresh_indexes layout (f layout).
Proof.
  intros [layout' tg m | layout' s language m | layout' l tg Hal | layout' ft type].
  - split; [simpl; lia|]. split; [simpl; lia|]. split.
    + intros i fr Hi. exists fr. split; [exact Hi | apply added_fresh_refl].
    + intros r Hr. exists r. split.
      * simpl. apply elem_of_splice_insert. right. exact Hr.
      * split; [reflexivity | apply script_adds_fresh_refl].
  - apply at_script_fresh. intros sc. split; [apply added_fresh_refl|].
    intros record Hrecord. exists record. split.
    + simpl. apply elem_of_splice_insert. right. exact Hrecord.
    + split; [reflexivity | apply added_fresh_refl].
  - unfold compose, adds_fresh_indexes.
    rewrite !features_at_langSys, !lookups_at_langSys. simpl.
    rewrite len_push. split; [lia|]. split; [lia|]. split.
    + intros i fr Hi. exists fr.
      split; [apply item_push_old, Hi | apply added_fresh_refl].
    + intros r Hr.
      apply (push_feature_index_fresh
               (Layout.set_features
                  (fun fs => push fs {| fr_tag := tg;
                                        feature := {| params := 0;
                                                      lookupListIndexes := [] |} |})
                  layout') l (len (features layout')) r).
      exact Hr.
  - unfold compose, adds_fresh_indexes. simpl. rewrite len_alter_at, len_push.
    split; [lia|]. split; [lia|]. split.
    + intros i fr Hi.
      destruct (Z.eq_dec i ft) as [->|Hne].
      * eexists. split; [rewrite item_alter_at, Hi; reflexivity|].
        simpl. apply added_fresh_push.
      * exists fr. split; [rewrite item_alter_at_ne by exact Hne; exact Hi|].
        apply added_fresh_refl.
    + intros r Hr. exists r.
      split; [exact Hr|]. split; [reflexivity | apply script_adds_fresh_refl].
Qed.

Lemma update_features_prefix (layout : Table Subtable)
    (f : Table Subtable -> Table Subtable) :
  update layout f ->
  (tag <$> features layout) `prefix_of` (tag <$> features (f layout)).
Proof.
  intros [layout' tg m | layout' s language m | layout' l tg Hal | layout' ft type].
  - reflexivity.
  - reflexivity.
  - unfold compose. rewrite features_at_langSys. simpl.
    unfold push. rewrite fmap_app. eexists. reflexivity.
  - unfold compose. simpl. rewrite fmap_alter_at; reflexivity.
Qed.

End Fresh.

(** X10: under every call the indexes of the table stay in range, and
    every index that the call adds is the index of what the call has pushed.
    When the feature indexes of every language system are indexes of features
    of the table and the lookup indexes of every feature are indexes of its
    lookups, the same holds of the table after the call. On every table,
    every feature that was there keeps its lookup indexes, and those added at
    their end are indexes of lookups that the call has added (not below the
    number of lookups before the call); every language system that was there
    keeps its feature indexes, and those added at their end are indexes of
    features that the call has added. This holds on every font and also when
    the call throws. *)
Theorem calls_keep_indexes_in_range {Subtable : Type}
    (createDefaultTable : Table Subtable) (this : Layout.t)
    (c : Layout.call) (font : Layout.Font Subtable) (layout : Table Subtable) :
  Layout.tables font !! Layout.tableName this = Some layout ->
  exists layout',
    Layout.tables (snd (Layout.run createDefaultTable this c font))
      !! Layout.tableName this = Some layout'
    /\ (well_indexed layout = true -> well_indexed layout' = true)
    /\ adds_fresh_indexes layout layout'.
Proof.
  intros HL.
  apply (evolves_related createDefaultTable this
           (fun a b => (well_indexed a = true -> well_indexed b = true)
                       /\ adds_fresh_indexes a b)
           font (snd (Layout.run createDefaultTable this c font)) layout).
  - intros a. split; [trivial | apply adds_fresh_refl].
  - intros a b d [Hab Fab] [Hbd Fbd]. split.
    + intros Ha. apply Hbd, Hab, Ha.
    + eapply adds_fresh_trans; eassumption.
  - intros a f Hup. split; [apply update_well_indexed, Hup|].
    apply update_adds_fresh, Hup.
  - apply run_evolves.
  - exact HL.
Qed.

Lemma calls_keep_indexes_in_range_witness :
  exists layout',
    Layout.tables
      (snd (Layout.run empty_table gsub
              (Layout.GetLookupTables "DFLT" "dflt" "rlig" 6 true)
              (font_with one_feature))) !! "GSUB"%string = Some layout'
    /\ (well_indexed one_feature = true -> well_indexed layout' = true)
    /\ adds_fresh_indexes one_feature layout'.
Proof.
  apply (calls_keep_indexes_in_range empty_table gsub
           (Layout.GetLookupTables "DFLT" "dflt" "rlig" 6 true)
           (font_with one_feature) one_feature).
  reflexivity.
Defined.

(** X11: every call leaves the tags of the features in place and adds
    tags at their end only: the tags of the features before the call are a
    prefix of the tags after it. And every call keeps the features sorted
    ascending by tag when they were: to a sorted array no feature is added
    whose tag is below the tag of the last one. This holds on every font and
    also when the call throws. *)
Theorem calls_keep_features_sorted {Subtable : Type}
    (createDefaultTable : Table Subtable) (this : Layout.t)
    (c : Layout.call) (font : Layout.Font Subtable) (layout : Table Subtable) :
  Layout.tables font !! Layout.tableName this = Some layout ->
  exists layout',
    Layout.tables (snd (Layout.run createDefaultTable this c font))
      !! Layout.tableName this = Some layout'
    /\ (tag <$> features layout) `prefix_of` (tag <$> features layout')
    /\ (sorted_by_tag (features layout) -> sorted_by_tag (features layout')).
Proof.
  intros HL.
  apply (evolves_related createDefaultTable this
           (fun a b => (tag <$> features a) `prefix_of` (tag <$> features b)
                       /\ (sorted_by_tag (features a) -> sorted_by_tag (features b)))
           font (snd (Layout.run createDefaultTable this c font)) layout).
  - intros a. split; [reflexivity | trivial].
  - intros a b d [Pab Hab] [Pbd Hbd]. split.
    + etransitivity; eassumption.
    + intros Ha. apply Hbd, Hab, Ha.
  - intros a f Hup. split; [apply update_features_prefix, Hup|].
    apply update_features_sorted, Hup.
  - apply run_evolves.
  - exact HL.
Qed.

Lemma calls_keep_features_sorted_witness :
  exists layout',
    Layout.tables
      (snd (Layout.run empty_table gsub
              (Layout.GetFeatureTable "DFLT" "dflt" "rlig" true)
              (font_with one_feature))) !! "GSUB"%string = Some layout'
    /\ (tag <$> features one_feature) `prefix_of` (tag <$> features layout')
    /\ (sorted_by_tag (features one_feature) -> sorted_by_tag (features layout')).
Proof.
  apply (calls_keep_features_sorted empty_table gsub
           (Layout.GetFeatureTable "DFLT" "dflt" "rlig" true)
           (font_with one_feature) one_feature).
  reflexivity.
Defined.

(** The check on the order reads the last feature of an array that is
    not empty: it does not throw. *)
Lemma alphabetical_index (allFeatures : list FeatureRecord) (feature : string)
    (e : exn) :
  Layout.alphabetical allFeatures feature <> Throw e.
Proof.
  unfold Layout.alphabetical.
  destruct (Z.eqb_spec (len allFeatures) 0); [discriminate|].
  destruct (item_in_range allFeatures (len allFeatures - 1)) as [r ->];
    [unfold len in *; lia | discriminate].
Qed.

Section Returns.

Context {Subtable : Type} (createDefaultTable : Table Subtable) (this : Layout.t).

Local Abbreviation name := (Layout.tableName this).
Local Abbreviation evolve := (evolves createDefaultTable (Layout.tableName this)).

Local Ltac returned :=
  eexists _, _; split; [reflexivity|]; right; eexists; reflexivity.

Local Ltac by_updates :=
  [> apply evolves_refl
  | apply evolves_trans
  | intros ? _ Hnone; apply evolves_create; [exact Hnone | apply evolves_refl]
  | intros ? ? ? _ HL Hup;
    eapply evolves_update; [exact HL | exact Hup | apply evolves_refl] ].

Lemma getLangSysTable_evolves (tg language : string) (create : bool)
    (font : Layout.Font Subtable) :
  evolve font
    (snd (Layout.getLangSysTable createDefaultTable this tg language create font)).
Proof.
  apply (getLangSysTable_changes createDefaultTable this evolve create); by_updates.
Qed.

Lemma getFeatureTable_evolves (tg language feature : string) (create : bool)
    (font : Layout.Font Subtable) :
  evolve font
    (snd (Layout.getFeatureTable createDefaultTable this tg language feature create
            font)).
Proof.
  apply (getFeatureTable_changes createDefaultTable this evolve create); by_updates.
Qed.

Lemma evolves_well_indexed (font font' : Layout.Font Subtable)
    (layout : Table Subtable) :
  evolve font font' ->
  Layout.tables font !! name = Some layout ->
  well_indexed layout = true ->
  exists layout', Layout.tables font' !! name = Some layout'
                  /\ well_indexed layout' = true.
Proof.
  intros Hev HL Hwell.
  destruct (evolves_related createDefaultTable this
              (fun a b => well_indexed a = true -> well_indexed b = true)
              font font' layout) as (layout' & HL' & Hkept).
  - intros a Ha. exact Ha.
  - intros a b d Hab Hbd Ha. apply Hbd, Hab, Ha.
  - apply update_well_indexed.
  - exact Hev.
  - exact HL.
  - exists layout'. split; [exact HL' | apply Hkept, Hwell].
Qed.

(** In a table whose indexes do not dangle, the feature indexes of a
    language system and the lookup indexes of a feature resolve. *)
Lemma langSys_at_indexed (layout : Table Subtable) (l : LangSysRef) (ls : LangSys) :
  well_indexed layout = true ->
  Layout.langSys_at layout l = Some ls ->
  forall i, i ∈ featureIndexes ls -> is_Some (item (features layout) i).
Proof.
  rewrite well_indexed_spec. intros [Hs _] Hls i Hi.
  assert (Hrange : 0 <= i < len (features layout)).
  { destruct l as [s|s k]; simpl in Hls; unfold Layout.script_at in Hls;
      destruct (item (scripts layout) s) as [r|] eqn:Hr; simpl in Hls;
      try discriminate; apply item_elem_of in Hr; destruct (Hs r Hr) as [Hd Hrec].
    - injection Hls as <-. apply Hd, Hi.
    - destruct (item (langSysRecords (script r)) k) as [record|] eqn:Hk;
        simpl in Hls; [|discriminate].
      injection Hls as <-. apply item_elem_of in Hk. eapply Hrec; eassumption. }
  destruct (item_in_range _ i Hrange) as [x ->]. eauto.
Qed.

Lemma feature_at_indexed (layout : Table Subtable) (f : FeatureRef) (ft : Feature) :
  well_indexed layout = true ->
  Layout.feature_at layout f = Some ft ->
  forall i, i ∈ lookupListIndexes ft -> is_Some (item (lookups layout) i).
Proof.
  rewrite well_indexed_spec. intros [_ Hf] Hft i Hi.
  unfold Layout.feature_at in Hft.
  destruct (item (features layout) f) as [fr|] eqn:Hfr; simpl in Hft; [|discriminate].
  injection Hft as <-. apply item_elem_of in Hfr.
  destruct (item_in_range _ i (Hf fr Hfr i Hi)) as [x ->]. eauto.
Qed.

Lemma findFeature_returns (allFeatures : list FeatureRecord) (featIndexes : list Z)
    (feature : string) :
  (forall i, i ∈ featIndexes -> is_Some (item allFeatures i)) ->
  exists found, Layout.findFeature allFeatures featIndexes feature = Ok found.
Proof.
  induction featIndexes as [|i rest IH]; intros Hall; simpl; [eauto|].
  destruct (Hall i (list_elem_of_here _ _)) as [fr ->].
  destruct (String.eqb (tag fr) feature); [eauto|].
  apply IH. intros j Hj. apply Hall, list_elem_of_further, Hj.
Qed.

Lemma getScriptTable_returns (font : Layout.Font Subtable) (layout : Table Subtable)
    (tg : string) (create : bool) :
  Layout.tables font !! name = Some layout ->
  table_fits layout ->
  exists r font' layout',
    Layout.getScriptTable createDefaultTable this tg create font = (Ok r, font')
    /\ Layout.tables font' !! name = Some layout'
    /\ records_fit layout'.
Proof.
  intros HL [Hfit Hrfit].
  destruct (searchTag_any_order (scripts layout) tg Hfit) as (pos & Hpos & Hcase).
  unfold Layout.getScriptTable, mbind, Layout.M_bind, Layout.getTable.
  rewrite HL. unfold Layout.lift. rewrite Hpos.
  destruct Hcase as [(Hin & r & Hr & Htag) | (Hneg & Hb)].
  - destruct (Z.geb_spec pos 0); [|lia]. rewrite Hr. simpl.
    exists (Some pos), font, layout. auto.
  - destruct (Z.geb_spec pos 0); [lia|]. destruct create; simpl.
    + eexists _, _, _. split; [reflexivity|]. simpl.
      rewrite lookup_alter_eq, HL. simpl. split; [reflexivity|].
      intros r Hr. apply elem_of_splice_insert in Hr as [->|Hr].
      * vm_compute. discriminate.
      * apply Hrfit, Hr.
    + exists None, font, layout. auto.
Qed.

Lemma getLangSysTable_returns (font : Layout.Font Subtable) (layout : Table Subtable)
    (tg language : string) (create : bool) :
  Layout.tables font !! name = Some layout ->
  table_fits layout ->
  exists r font',
    Layout.getLangSysTable createDefaultTable this tg language create font
    = (Ok r, font').
Proof.
  intros HL Hfits.
  destruct (getScriptTable_returns font layout tg create HL Hfits)
    as (r1 & font1 & layout1 & E1 & HL1 & Hrf1).
  unfold Layout.getLangSysTable, mbind, Layout.M_bind. rewrite E1.
  destruct r1 as [s|]; [|eauto].
  destruct (getScriptTable_valid _ _ _ _ _ _ _ E1) as (layout1' & sc & HL1' & Hsc).
  rewrite HL1 in HL1'. injection HL1' as <-.
  destruct (String.eqb language "dflt" || String.eqb language "DFLT"); [eauto|].
  unfold Layout.the_table. rewrite HL1, Hsc. simpl.
  unfold Layout.script_at in Hsc.
  destruct (item (scripts layout1) s) as [r|] eqn:Hr; simpl in Hsc; [|discriminate].
  injection Hsc as <-.
  destruct (searchTag_any_order (langSysRecords (script r)) language
              (Hrf1 r (item_elem_of _ _ _ Hr))) as (pos & Hpos & Hcase).
  unfold Layout.lift. rewrite Hpos.
  destruct Hcase as [(Hin & record & Hrecord & Htag) | (Hneg & Hb)].
  - destruct (Z.geb_spec pos 0); [|lia]. rewrite Hrecord. simpl. eauto.
  - destruct (Z.geb_spec pos 0); [lia|]. destruct create; simpl; eauto.
Qed.

Lemma getFeatureTable_returns (font : Layout.Font Subtable) (layout : Table Subtable)
    (tg language feature : string) (create : bool) :
  Layout.tables font !! name = Some layout ->
  table_fits layout ->
  well_indexed layout = true ->
  exists res font',
    Layout.getFeatureTable createDefaultTable this tg language feature create font
    = (res, font')
    /\ ((res = Throw (Error "Features must be added in alphabetical order.")
         /\ create = true)
        \/ exists r, res = Ok r).
Proof.
  intros HL Hfits Hwell.
  destruct (getLangSysTable_returns font layout tg language create HL Hfits)
    as (r1 & font1 & E1).
  pose proof (getLangSysTable_evolves tg language create font) as Hev.
  rewrite E1 in Hev. simpl in Hev.
  destruct (evolves_well_indexed _ _ _ Hev HL Hwell) as (layout1 & HL1 & Hwell1).
  unfold Layout.getFeatureTable, mbind, Layout.M_bind. rewrite E1.
  destruct r1 as [l|]; [|returned].
  destruct (getLangSysTable_valid _ _ _ _ _ _ _ _ E1) as (layout1' & ls & HL1' & Hls).
  rewrite HL1 in HL1'. injection HL1' as <-.
  unfold Layout.the_table. rewrite HL1, Hls. simpl.
  destruct (findFeature_returns (features layout1) (featureIndexes ls) feature
              (langSys_at_indexed layout1 l ls Hwell1 Hls)) as [found Hfound].
  unfold Layout.lift. rewrite Hfound.
  destruct found as [i|]; [returned|].
  destruct create; [|returned].
  destruct (Layout.alphabetical (features layout1) feature) as [[|]|e|] eqn:Hal.
  - simpl. returned.
  - simpl. eexists _, _. split; [reflexivity|]. left. split; reflexivity.
  - exfalso. eapply alphabetical_index, Hal.
  - exfalso. eapply alphabetical_fuel, Hal.
Qed.

Lemma getLookupTables_returns (font : Layout.Font Subtable) (layout : Table Subtable)
    (tg language feature : string) (type : Z) (create : bool) :
  Layout.tables font !! name = Some layout ->
  table_fits layout ->
  well_indexed layout = true ->
  exists res font',
    Layout.getLookupTables createDefaultTable this tg language feature type create
      font = (res, font')
    /\ ((res = Throw (Error "Features must be added in alphabetical order.")
         /\ create = true)
        \/ exists r, res = Ok r).
Proof.
  intros HL Hfits Hwell.
  destruct (getFeatureTable_returns font layout tg language feature create
              HL Hfits Hwell) as (res1 & font1 & E1 & Hres1).
  pose proof (getFeatureTable_evolves tg language feature create font) as Hev.
  rewrite E1 in Hev. simpl in Hev.
  destruct (evolves_well_indexed _ _ _ Hev HL Hwell) as (layout1 & HL1 & Hwell1).
  unfold Layout.getLookupTables, mbind, Layout.M_bind. rewrite E1.
  destruct Hres1 as [[-> Hcreate] | [r1 ->]].
  { eexists _, _. split; [reflexivity|]. left. split; [reflexivity | exact Hcreate]. }
  destruct r1 as [f|]; [|returned].
  destruct (getFeatureTable_valid _ _ _ _ _ _ _ _ _ E1)
    as (layout1' & ft & HL1' & Hft).
  rewrite HL1 in HL1'. injection HL1' as <-.
  unfold Layout.the_table. rewrite HL1, Hft. simpl.
  unfold Layout.lift.
  rewrite (collectLookups_filter (lookups layout1) (lookupListIndexes ft) type []
             (feature_at_indexed layout1 f ft Hwell1 Hft)).
  destruct (_ && create); simpl; returned.
Qed.

End Returns.

(** X12: on a table whose arrays hold at most 2^31 records and whose
    indexes do not dangle, in whatever order its records are, no call throws
    a TypeError or runs on: every call returns, except that
    [getFeatureTable] and [getLookupTables] with [create] set may throw
    'Features must be added in alphabetical order.' *)
Theorem calls_return_on_well_formed_tables {Subtable : Type}
    (createDefaultTable : Table Subtable) (this : Layout.t)
    (c : Layout.call) (font : Layout.Font Subtable) (layout : Table Subtable) :
  Layout.tables font !! Layout.tableName this = Some layout ->
  table_fits layout ->
  well_indexed layout = true ->
  query_fits c ->
  exists res font',
    Layout.run createDefaultTable this c font = (res, font')
    /\ (res = Ok tt
        \/ (res = Throw (Error "Features must be added in alphabetical order.")
            /\ exists tg language feature,
                 c = Layout.GetFeatureTable tg language feature true
                 \/ exists type,
                      c = Layout.GetLookupTables tg language feature type true)).
Proof.
  intros HL Hfits Hwell Hq.
  destruct c as [cr | | | sc cr | sc lang cr | sc lang feat cr | sc lang feat ty cr
                 | classDefTable glyphIndex | coverageTable glyphIndex
                 | coverageTable];
    unfold Layout.run, Layout.forget, mbind, Layout.M_bind.
  - unfold Layout.getTable. rewrite HL. eauto.
  - unfold Layout.getScriptNames, mbind, Layout.M_bind, Layout.getTable.
    rewrite HL. eauto.
  - unfold Layout.getDefaultScriptName, mbind, Layout.M_bind, Layout.getTable.
    rewrite HL. eauto.
  - destruct (getScriptTable_returns createDefaultTable this font layout sc cr
                HL Hfits) as (r & font' & layout' & -> & _). eauto.
  - destruct (getLangSysTable_returns createDefaultTable this font layout sc lang cr
                HL Hfits) as (r & font' & ->). eauto.
  - destruct (getFeatureTable_returns createDefaultTable this font layout sc lang
                feat cr HL Hfits Hwell) as (res & font' & -> & [[-> ->] | [r ->]]).
    + eexists _, _. split; [reflexivity|]. right. split; [reflexivity|].
      exists sc, lang, feat. left. reflexivity.
    + eauto.
  - destruct (getLookupTables_returns createDefaultTable this font layout sc lang
                feat ty cr HL Hfits Hwell)
      as (res & font' & -> & [[-> ->] | [r ->]]).
    + eexists _, _. split; [reflexivity|]. right. split; [reflexivity|].
      exists sc, lang, feat. right. exists ty. reflexivity.
    + eauto.
  - unfold Layout.lift, getGlyphClass.
    destruct (ClassDef.format classDefTable =? 1).
    { destruct (_ && _); eauto. }
    destruct (ClassDef.format classDefTable =? 2); [|eauto].
    destruct (searchRange_any_order (ClassDef.ranges classDefTable) glyphIndex Hq)
      as [out ->].
    destruct out; simpl; eauto.
  - unfold Layout.lift, getCoverageIndex. destruct Hq as [Hg Hr].
    destruct (Coverage.format coverageTable =? 1).
    { destruct (binSearch_any_order (Coverage.glyphs coverageTable) glyphIndex Hg)
        as (pos & -> & _). simpl. eauto. }
    destruct (Coverage.format coverageTable =? 2); [|eauto].
    destruct (searchRange_any_order (Coverage.ranges coverageTable) glyphIndex Hr)
      as [out ->].
    destruct out; simpl; eauto.
  - eauto.
Qed.

Lemma calls_return_on_well_formed_tables_witness :
  exists res font',
    Layout.run empty_table gsub (Layout.GetFeatureTable "DFLT" "dflt" "aalt" true)
      (font_with one_feature) = (res, font')
    /\ (res = Ok tt
        \/ (res = Throw (Error "Features must be added in alphabetical order.")
            /\ exists tg language feature,
                 Layout.GetFeatureTable "DFLT" "dflt" "aalt" true
                 = Layout.GetFeatureTable tg language feature true
                 \/ exists type,
                      Layout.GetFeatureTable "DFLT" "dflt" "aalt" true
                      = Layout.GetLookupTables tg language feature type true)).
Proof.
  assert (Hfits : table_fits one_feature).
  { split; [vm_compute; discriminate|].
    intros r Hr. apply list_elem_of_In in Hr.
    destruct Hr as [<-|[]]. vm_compute. discriminate. }
  apply (calls_return_on_well_formed_tables empty_table gsub
           (Layout.GetFeatureTable "DFLT" "dflt" "aalt" true)
           (font_with one_feature) one_feature).
  - reflexivity.
  - exact Hfits.
  - reflexivity.
  - exact I.
Defined.

(** ** What was created is found again *)

Lemma len_splice_insert {A} (arr : list A) (m : Z) (a : A) :
  len (splice_insert arr m a) = len arr + 1.
Proof.
  pose proof (splice_pos_bounds arr m) as Hb.
  unfold splice_insert, len in *. cbv zeta.
  rewrite length_app, length_take. simpl. rewrite length_drop. lia.
Qed.

(** A record of a strictly sorted array is found at its index. *)
Lemma searchTag_found {R : Type} `{Tagged R} (arr : list R) (tg : string) (i : Z)
    (r : R) :
  strictly_sorted_by_tag arr -> fits arr ->
  item arr i = Some r -> tag r = tg ->
  searchTag arr tg = Ok i.
Proof.
  intros Hs Hfits Hi Htag. apply item_Some in Hi as [Hi0 Hi].
  rewrite (searchTag_present arr tg (Z.to_nat i) r Hs Hfits Hi Htag).
  rewrite Z2Nat.id by exact Hi0. reflexivity.
Qed.

(** The scan of [getFeatureTable] reads the tags of the features only. *)
Lemma findFeature_tags (allFeatures allFeatures' : list FeatureRecord)
    (featIndexes : list Z) (feature : string) :
  tag <$> allFeatures = tag <$> allFeatures' ->
  Layout.findFeature allFeatures featIndexes feature
  = Layout.findFeature allFeatures' featIndexes feature.
Proof.
  intros Htags. induction featIndexes as [|i rest IH]; simpl; [reflexivity|].
  assert (Hi : tag <$> item allFeatures i = tag <$> item allFeatures' i).
  { rewrite <- !item_fmap, Htags. reflexivity. }
  destruct (item allFeatures i) as [a|], (item allFeatures' i) as [b|];
    simpl in Hi; try discriminate; [|reflexivity].
  injection Hi as ->. rewrite IH. reflexivity.
Qed.

(** After the feature and its index were pushed, the scan finds it. *)
Lemma findFeature_push (allFeatures : list FeatureRecord) (featIndexes : list Z)
    (feature : string) (featureRecord : FeatureRecord) :
  tag featureRecord = feature ->
  Layout.findFeature allFeatures featIndexes feature = Ok None ->
  Layout.findFeature (push allFeatures featureRecord)
    (push featIndexes (len allFeatures)) feature
  = Ok (Some (len allFeatures)).
Proof.
  intros Htag. induction featIndexes as [|i rest IH]; simpl.
  - intros _. rewrite item_push, Htag, String.eqb_refl. reflexivity.
  - destruct (item allFeatures i) as [r|] eqn:Hi; [|discriminate].
    rewrite (item_push_old _ _ _ _ Hi).
    destruct (String.eqb (tag r) feature); [discriminate | exact IH].
Qed.

(** After the lookup and its index were pushed, the scan collects it. *)
Lemma collectLookups_push {Subtable} (allLookups : list (Lookup Subtable))
    (lookupListIndexes : list Z) (type : Z) (lookupTable : Lookup Subtable)
    (tables tables' : list LookupRef) :
  lookupType lookupTable = type ->
  Layout.collectLookups allLookups lookupListIndexes type tables = Ok tables' ->
  Layout.collectLookups (push allLookups lookupTable)
    (push lookupListIndexes (len allLookups)) type tables
  = Ok (push tables' (len allLookups)).
Proof.
  intros Htype. revert tables.
  induction lookupListIndexes as [|i rest IH]; intros tables; simpl.
  - intros [= <-]. rewrite item_push, Htype, Z.eqb_refl. reflexivity.
  - destruct (item allLookups i) as [lk|] eqn:Hi; [|discriminate].
    rewrite (item_push_old _ _ _ _ Hi). apply IH.
Qed.

Section RoundTrip.

Context {Subtable : Type} (createDefaultTable : Table Subtable) (this : Layout.t).

Local Abbreviation name := (Layout.tableName this).

(** The table is strictly sorted and its arrays are of a size the
    searches are exact on. *)
Local Abbreviation settled layout :=
  (table_strictly_sorted layout /\ table_fits layout).

Lemma skeleton_tags (layout : Table Subtable) :
  fst <$> skeleton layout = tag <$> scripts layout.
Proof. unfold skeleton. rewrite <- list_fmap_compose. reflexivity. Qed.

Lemma skeleton_item (layout : Table Subtable) (s : Z) :
  item (skeleton layout) s
  = (fun r => (tag r, tag <$> langSysRecords (script r))) <$> item (scripts layout) s.
Proof. unfold skeleton. apply item_fmap. Qed.

Lemma skeleton_elem (layout layout' : Table Subtable) (r' : ScriptRecord) :
  skeleton layout' = skeleton layout ->
  r' ∈ scripts layout' ->
  exists r, r ∈ scripts layout
            /\ tag <$> langSysRecords (script r') = tag <$> langSysRecords (script r).
Proof.
  intros Hsk Hr'.
  apply (list_elem_of_fmap_2 (fun r => (tag r, tag <$> langSysRecords (script r))))
    in Hr'.
  fold (skeleton layout') in Hr'. rewrite Hsk in Hr'.
  apply list_elem_of_fmap_1 in Hr' as (r & Heq & Hr).
  exists r. split; [exact Hr|]. congruence.
Qed.

(** Tables of the same tags are settled together. *)
Lemma settled_skeleton (layout layout' : Table Subtable) :
  skeleton layout' = skeleton layout -> settled layout -> settled layout'.
Proof.
  intros Hsk [[Hs Hrec] [Hfit Hrfit]].
  assert (Htags : tag <$> scripts layout' = tag <$> scripts layout).
  { rewrite <- !skeleton_tags, Hsk. reflexivity. }
  split; split.
  - rewrite Htags. exact Hs.
  - intros r' Hr'. destruct (skeleton_elem _ _ _ Hsk Hr') as (r & Hr & ->).
    apply Hrec, Hr.
  - unfold fits in *. rewrite <- (len_fmap tag), Htags, len_fmap. exact Hfit.
  - intros r' Hr'. destruct (skeleton_elem _ _ _ Hsk Hr') as (r & Hr & Heq).
    specialize (Hrfit r Hr). unfold fits in *.
    rewrite <- (len_fmap tag), Heq, len_fmap. exact Hrfit.
Qed.

(** Tables of the same tags name the same language systems. *)
Lemma names_skeleton (layout layout' : Table Subtable) (tg language : string)
    (l : LangSysRef) :
  skeleton layout' = skeleton layout ->
  langSys_named layout tg language l -> langSys_named layout' tg language l.
Proof.
  intros Hsk (s & r & Hr & Htag & Hcase).
  assert (Hitem : item (skeleton layout') s
                  = Some (tag r, tag <$> langSysRecords (script r))).
  { rewrite Hsk, skeleton_item, Hr. reflexivity. }
  rewrite skeleton_item in Hitem.
  destruct (item (scripts layout') s) as [r'|] eqn:Hr'; simpl in Hitem; [|discriminate].
  injection Hitem as Htag' Hrecs. exists s, r'.
  split; [exact Hr'|]. split; [congruence|].
  destruct Hcase as [Hdflt | (Hd & i & record & -> & Hi & Hrt)]; [left; exact Hdflt|].
  right. split; [exact Hd|].
  assert (Hlang : item (tag <$> langSysRecords (script r')) i = Some language).
  { rewrite Hrecs, item_fmap, Hi. simpl. congruence. }
  rewrite item_fmap in Hlang.
  destruct (item (langSysRecords (script r')) i) as [record'|] eqn:Hi';
    simpl in Hlang; [|discriminate].
  exists i, record'. split; [reflexivity|]. split; [exact Hi' | congruence].
Qed.

Lemma at_langSys_skeleton (l : LangSysRef) (h : LangSys -> LangSys)
    (layout : Table Subtable) :
  skeleton (Layout.at_langSys l h layout) = skeleton layout.
Proof.
  destruct l as [s|s k]; unfold skeleton; simpl; apply fmap_alter_at; intros a; simpl.
  - reflexivity.
  - f_equal. apply fmap_alter_at. reflexivity.
Qed.

(** *** A script, language system, feature or lookup that is there is
    returned, with or without [create], and the font stays as it is. *)

Lemma getScriptTable_found (font : Layout.Font Subtable) (layout : Table Subtable)
    (tg : string) (s : ScriptRef) (r : ScriptRecord) (create : bool) :
  Layout.tables font !! name = Some layout ->
  settled layout ->
  item (scripts layout) s = Some r -> tag r = tg ->
  Layout.getScriptTable createDefaultTable this tg create font = (Ok (Some s), font).
Proof.
  intros HL [[Hs _] [Hfit _]] Hr Htag.
  unfold Layout.getScriptTable, mbind, Layout.M_bind, Layout.getTable.
  rewrite HL. unfold Layout.lift.
  rewrite (searchTag_found (scripts layout) tg s r Hs Hfit Hr Htag).
  destruct (Z.geb_spec s 0); [|apply item_Some in Hr; lia].
  rewrite Hr. reflexivity.
Qed.

Lemma getLangSysTable_found (font : Layout.Font Subtable) (layout : Table Subtable)
    (tg language : string) (l : LangSysRef) (create : bool) :
  Layout.tables font !! name = Some layout ->
  settled layout ->
  langSys_named layout tg language l ->
  Layout.getLangSysTable createDefaultTable this tg language create font
  = (Ok (Some l), font).
Proof.
  intros HL Hset (s & r & Hr & Htag & Hcase).
  unfold Layout.getLangSysTable, mbind, Layout.M_bind.
  rewrite (getScriptTable_found font layout tg s r create HL Hset Hr Htag).
  destruct Hcase as [[Hd ->] | (Hd & i & record & -> & Hi & Hrt)]; rewrite Hd;
    [reflexivity|].
  unfold Layout.the_table. rewrite HL. unfold Layout.script_at. rewrite Hr. simpl.
  unfold Layout.lift.
  destruct Hset as [[_ Hrec] [_ Hrfit]]. pose proof (item_elem_of _ _ _ Hr) as Hin.
  rewrite (searchTag_found (langSysRecords (script r)) language i record
             (Hrec r Hin) (Hrfit r Hin) Hi Hrt).
  destruct (Z.geb_spec i 0); [|apply item_Some in Hi; lia].
  rewrite Hi. reflexivity.
Qed.

Lemma getFeatureTable_found (font : Layout.Font Subtable) (layout : Table Subtable)
    (tg language feature : string) (l : LangSysRef) (ls : LangSys) (f : FeatureRef)
    (create : bool) :
  Layout.tables font !! name = Some layout ->
  settled layout ->
  langSys_named layout tg language l ->
  Layout.langSys_at layout l = Some ls ->
  Layout.findFeature (features layout) (featureIndexes ls) feature = Ok (Some f) ->
  Layout.getFeatureTable createDefaultTable this tg language feature create font
  = (Ok (Some f), font).
Proof.
  intros HL Hset Hnames Hls Hfound.
  unfold Layout.getFeatureTable, mbind, Layout.M_bind.
  rewrite (getLangSysTable_found font layout tg language l create HL Hset Hnames).
  unfold Layout.the_table. rewrite HL, Hls. simpl.
  unfold Layout.lift. rewrite Hfound. reflexivity.
Qed.

Lemma getLookupTables_found (font : Layout.Font Subtable) (layout : Table Subtable)
    (tg language feature : string) (type : Z) (l : LangSysRef) (ls : LangSys)
    (f : FeatureRef) (ft : Feature) (tables : list LookupRef) (create : bool) :
  Layout.tables font !! name = Some layout ->
  settled layout ->
  langSys_named layout tg language l ->
  Layout.langSys_at layout l = Some ls ->
  Layout.findFeature (features layout) (featureIndexes ls) feature = Ok (Some f) ->
  Layout.feature_at layout f = Some ft ->
  Layout.collectLookups (lookups layout) (lookupListIndexes ft) type [] = Ok tables ->
  tables <> [] ->
  Layout.getLookupTables createDefaultTable this tg language feature type create font
  = (Ok tables, font).
Proof.
  intros HL Hset Hnames Hls Hfound Hft Hcol Hsome.
  unfold Layout.getLookupTables, mbind, Layout.M_bind.
  rewrite (getFeatureTable_found font layout tg language feature l ls f create
             HL Hset Hnames Hls Hfound).
  unfold Layout.the_table. rewrite HL, Hft. simpl.
  unfold Layout.lift. rewrite Hcol.
  destruct (_ && create) eqn:Hboth; [|reflexivity].
  apply andb_true_iff in Hboth as [Hzero _]. apply Z.eqb_eq in Hzero.
  destruct tables; [contradiction | discriminate Hzero].
Qed.

(** *** What a call with [create] leaves behind *)

Lemma getScriptTable_creates (font font1 : Layout.Font Subtable)
    (layout : Table Subtable) (tg : string) (s : ScriptRef) :
  Layout.tables font !! name = Some layout ->
  table_strictly_sorted layout ->
  table_roomy layout ->
  Layout.getScriptTable createDefaultTable this tg true font = (Ok (Some s), font1) ->
  exists layout1,
    Layout.tables font1 !! name = Some layout1
    /\ settled layout1
    /\ (forall r, r ∈ scripts layout1 -> roomy (langSysRecords (script r)))
    /\ exists r, item (scripts layout1) s = Some r /\ tag r = tg.
Proof.
  intros HL Hsorted [Hroom Hrroom].
  pose proof Hsorted as [Hs Hrec].
  assert (Hfit : fits (scripts layout)) by (unfold fits, roomy in *; lia).
  assert (Hrfit : records_fit layout).
  { intros r Hr. specialize (Hrroom r Hr). unfold fits, roomy in *. lia. }
  destruct (searchTag_sorted (scripts layout) tg (strictly_sorted_sorted _ Hs) Hfit)
    as (pos & Hpos & Hcase).
  unfold Layout.getScriptTable, mbind, Layout.M_bind, Layout.getTable.
  rewrite HL. unfold Layout.lift. rewrite Hpos.
  destruct Hcase as [(Hin & r & Hr & Htag) | (Hneg & Hsp)].
  - destruct (Z.geb_spec pos 0); [|lia]. rewrite Hr. simpl.
    intros [= <- <-]. exists layout. split; [exact HL|].
    split; [split; [exact Hsorted | split; assumption]|].
    split; [exact Hrroom|]. exists r. split; assumption.
  - destruct (Z.geb_spec pos 0); [lia|]. simpl.
    intros [= <- <-]. eexists. split; [simpl; rewrite lookup_alter_eq, HL; reflexivity|].
    split; [split; split|split].
    + simpl. apply (splice_ascending String.ltb (fun a b Hab => Hab)); assumption.
    + intros r Hr. simpl in Hr.
      apply elem_of_splice_insert in Hr as [->|Hr]; [reflexivity | apply Hrec, Hr].
    + simpl. unfold fits. rewrite len_splice_insert. unfold roomy in Hroom. lia.
    + intros r Hr. simpl in Hr.
      apply elem_of_splice_insert in Hr as [->|Hr];
        [vm_compute; discriminate | apply Hrfit, Hr].
    + intros r Hr. simpl in Hr.
      apply elem_of_splice_insert in Hr as [->|Hr];
        [vm_compute; reflexivity | apply Hrroom, Hr].
    + eexists. split; [simpl; apply item_splice_insert | reflexivity].
Qed.

Lemma getLangSysTable_creates (font font2 : Layout.Font Subtable)
    (layout : Table Subtable) (tg language : string) (l : LangSysRef) :
  Layout.tables font !! name = Some layout ->
  table_strictly_sorted layout ->
  table_roomy layout ->
  Layout.getLangSysTable createDefaultTable this tg language true font
  = (Ok (Some l), font2) ->
  exists layout2,
    Layout.tables font2 !! name = Some layout2
    /\ settled layout2
    /\ langSys_named layout2 tg language l.
Proof.
  intros HL Hsorted Hroomy.
  unfold Layout.getLangSysTable, mbind, Layout.M_bind.
  destruct (Layout.getScriptTable createDefaultTable this tg true font)
    as [[[s|]|e|] font1] eqn:E1; try discriminate.
  destruct (getScriptTable_creates _ _ _ _ _ HL Hsorted Hroomy E1)
    as (layout1 & HL1 & Hset1 & Hroom1 & r & Hr & Htag).
  destruct (String.eqb language "dflt" || String.eqb language "DFLT") eqn:Hd.
  - intros [= <- <-]. exists layout1. split; [exact HL1|]. split; [exact Hset1|].
    exists s, r. split; [exact Hr|]. split; [exact Htag|].
    left. split; [exact Hd | reflexivity].
  - unfold Layout.the_table. rewrite HL1. unfold Layout.script_at. rewrite Hr. simpl.
    unfold Layout.lift.
    pose proof (item_elem_of _ _ _ Hr) as Hin.
    pose proof Hset1 as [[Hs1 Hrec1] [Hfit1 Hrfit1]].
    destruct (searchTag_sorted (langSysRecords (script r)) language
                (strictly_sorted_sorted _ (Hrec1 r Hin)) (Hrfit1 r Hin))
      as (pos & Hpos & Hcase).
    rewrite Hpos. destruct Hcase as [(Hpin & record & Hrecord & Hrt) | (Hneg & Hsp)].
    + destruct (Z.geb_spec pos 0); [|lia]. rewrite Hrecord. simpl.
      intros [= <- <-]. exists layout1. split; [exact HL1|]. split; [exact Hset1|].
      exists s, r. split; [exact Hr|]. split; [exact Htag|].
      right. split; [exact Hd|]. exists pos, record. auto.
    + destruct (Z.geb_spec pos 0); [lia|]. simpl.
      intros [= <- <-]. eexists.
      split; [simpl; rewrite lookup_alter_eq, HL1; reflexivity|].
      split; [split; [|split]|].
      * apply at_script_ascending; [|split; assumption].
        intros r' Hr' Hasc. simpl. assert (r' = r) by congruence. subst r'.
        apply (splice_ascending String.ltb (fun a b Hab => Hab)); assumption.
      * simpl. unfold fits. rewrite len_alter_at. exact Hfit1.
      * intros r' Hr'. simpl in Hr'.
        apply elem_of_alter_at in Hr' as [Hr'|(a & Ha & ->)]; [apply Hrfit1, Hr'|].
        simpl. unfold fits. rewrite len_splice_insert.
        assert (a = r) by congruence. subst a.
        specialize (Hroom1 r Hin). unfold roomy in Hroom1. lia.
      * eexists s, _. split; [simpl; rewrite item_alter_at, Hr; reflexivity|].
        split; [exact Htag|]. right. split; [exact Hd|].
        eexists _, _. split; [reflexivity|].
        split; [simpl; apply item_splice_insert | reflexivity].
Qed.

Lemma getFeatureTable_creates (font font3 : Layout.Font Subtable)
    (layout : Table Subtable) (tg language feature : string) (f : FeatureRef) :
  Layout.tables font !! name = Some layout ->
  table_strictly_sorted layout ->
  table_roomy layout ->
  Layout.getFeatureTable createDefaultTable this tg language feature true font
  = (Ok (Some f), font3) ->
  exists layout3 l ls,
    Layout.tables font3 !! name = Some layout3
    /\ settled layout3
    /\ langSys_named layout3 tg language l
    /\ Layout.langSys_at layout3 l = Some ls
    /\ Layout.findFeature (features layout3) (featureIndexes ls) feature
       = Ok (Some f).
Proof.
  intros HL Hsorted Hroomy.
  unfold Layout.getFeatureTable, mbind, Layout.M_bind.
  destruct (Layout.getLangSysTable createDefaultTable this tg language true font)
    as [[[l|]|e|] font2] eqn:E2; try discriminate.
  destruct (getLangSysTable_creates _ _ _ _ _ _ HL Hsorted Hroomy E2)
    as (layout2 & HL2 & Hset2 & Hnames2).
  unfold Layout.the_table. rewrite HL2.
  destruct (Layout.langSys_at layout2 l) as [ls|] eqn:Hls; simpl; [|discriminate].
  unfold Layout.lift.
  destruct (Layout.findFeature (features layout2) (featureIndexes ls) feature)
    as [[i|]|e|] eqn:Hfound; try discriminate.
  - intros [= <- <-]. exists layout2, l, ls. auto.
  - destruct (Layout.alphabetical (features layout2) feature) as [[|]|e|];
      simpl; try discriminate.
    intros [= <- <-]. eexists _, l, _.
    split; [simpl; rewrite !lookup_alter_eq, HL2; reflexivity|].
    split; [apply (settled_skeleton layout2);
            [rewrite at_langSys_skeleton; reflexivity | exact Hset2]|].
    split; [apply (names_skeleton layout2);
            [rewrite at_langSys_skeleton; reflexivity | exact Hnames2]|].
    split; [apply langSys_at_at_langSys; exact Hls|].
    rewrite features_at_langSys. simpl.
    apply findFeature_push; [reflexivity | exact Hfound].
Qed.

End RoundTrip.

(** X13: on a table that is strictly sorted (its scripts, and the
    language systems of each script) and whose arrays of scripts and of
    language systems hold fewer than 2^31 records, what a call with [create]
    returns is what the same query returns afterwards, with or without
    [create], and that later query changes nothing: [getScriptTable] returns
    the same script, [getLangSysTable] the same language system,
    [getFeatureTable] the same feature, and [getLookupTables] the same array
    of lookups. Creating twice does not add twice. *)
Theorem created_is_found_again {Subtable : Type}
    (createDefaultTable : Table Subtable) (this : Layout.t)
    (font : Layout.Font Subtable) (layout : Table Subtable) :
  Layout.tables font !! Layout.tableName this = Some layout ->
  table_strictly_sorted layout ->
  table_roomy layout ->
  (forall tg s font1,
      Layout.getScriptTable createDefaultTable this tg true font
      = (Ok (Some s), font1) ->
      forall create,
        Layout.getScriptTable createDefaultTable this tg create font1
        = (Ok (Some s), font1))
  /\ (forall tg language l font1,
        Layout.getLangSysTable createDefaultTable this tg language true font
        = (Ok (Some l), font1) ->
        forall create,
          Layout.getLangSysTable createDefaultTable this tg language create font1
          = (Ok (Some l), font1))
  /\ (forall tg language feature f font1,
        Layout.getFeatureTable createDefaultTable this tg language feature true font
        = (Ok (Some f), font1) ->
        forall create,
          Layout.getFeatureTable createDefaultTable this tg language feature create
            font1
          = (Ok (Some f), font1))
  /\ (forall tg language feature type tables font1,
        Layout.getLookupTables createDefaultTable this tg language feature type true
          font
        = (Ok tables, font1) ->
        forall create,
          Layout.getLookupTables createDefaultTable this tg language feature type
            create font1
          = (Ok tables, font1)).
Proof.
  intros HL Hsorted Hroomy. split; [|split; [|split]].
  - intros tg s font1 Hcall create.
    destruct (getScriptTable_creates createDefaultTable this _ _ _ _ _
                HL Hsorted Hroomy Hcall) as (layout1 & HL1 & Hset1 & _ & r & Hr & Htag).
    eapply getScriptTable_found; eassumption.
  - intros tg language l font1 Hcall create.
    destruct (getLangSysTable_creates createDefaultTable this _ _ _ _ _ _
                HL Hsorted Hroomy Hcall) as (layout1 & HL1 & Hset1 & Hnames1).
    eapply getLangSysTable_found; eassumption.
  - intros tg language feature f font1 Hcall create.
    destruct (getFeatureTable_creates createDefaultTable this _ _ _ _ _ _ _
                HL Hsorted Hroomy Hcall)
      as (layout1 & l & ls & HL1 & Hset1 & Hnames1 & Hls1 & Hfound1).
    eapply getFeatureTable_found; eassumption.
  - intros tg language feature type tables font1 Hcall create.
    unfold Layout.getLookupTables, mbind, Layout.M_bind in Hcall.
    destruct (Layout.getFeatureTable createDefaultTable this tg language feature true
                font) as [[[f|]|e|] font3] eqn:E3; try discriminate.
    2:{ exfalso. eapply getFeatureTable_create_resolves, E3. }
    destruct (getFeatureTable_creates createDefaultTable this _ _ _ _ _ _ _
                HL Hsorted Hroomy E3)
      as (layout3 & l & ls & HL3 & Hset3 & Hnames3 & Hls3 & Hfound3).
    unfold Layout.the_table in Hcall. rewrite HL3 in Hcall.
    destruct (Layout.feature_at layout3 f) as [ft|] eqn:Hft; simpl in Hcall;
      [|discriminate].
    assert (Hfr : exists fr, item (features layout3) f = Some fr
                             /\ ft = Graph.feature fr).
    { unfold Layout.feature_at in Hft.
      destruct (item (features layout3) f) as [fr|]; [|discriminate].
      injection Hft as <-. exists fr. split; reflexivity. }
    destruct Hfr as (fr & Hfr & Hfeat).
    unfold Layout.lift in Hcall.
    destruct (Layout.collectLookups (lookups layout3) (lookupListIndexes ft) type [])
      as [tables0|e|] eqn:Hcol; try discriminate.
    destruct (_ && true) eqn:Hboth in Hcall.
    + apply andb_true_iff in Hboth as [Hzero _]. apply Z.eqb_eq in Hzero.
      assert (tables0 = []) by (destruct tables0; [reflexivity | discriminate Hzero]).
      subst tables0. simpl in Hcall. injection Hcall as <- <-.
      eapply (getLookupTables_found createDefaultTable this _ _ tg language feature
                type l ls f).
      * simpl. rewrite !lookup_alter_eq, HL3. reflexivity.
      * apply (settled_skeleton layout3); [reflexivity | exact Hset3].
      * apply (names_skeleton layout3); [reflexivity | exact Hnames3].
      * exact Hls3.
      * rewrite (findFeature_tags _ (features layout3)); [exact Hfound3|].
        simpl. apply fmap_alter_at. reflexivity.
      * unfold Layout.feature_at. simpl. rewrite item_alter_at, Hfr. reflexivity.
      * simpl. rewrite <- Hfeat.
        apply (collectLookups_push _ _ _ _ [] []); [reflexivity | exact Hcol].
      * discriminate.
    + injection Hcall as <- <-.
      eapply (getLookupTables_found createDefaultTable this _ _ tg language feature
                type l ls f); try eassumption.
      intros ->. discriminate Hboth.
Qed.

Lemma created_is_found_again_witness :
  Layout.getLookupTables empty_table gsub "cyrl" "SRB " "liga" 4 false
    (snd (Layout.getLookupTables empty_table gsub "cyrl" "SRB " "liga" 4 true
            (font_with two_scripts)))
  = (Ok [0],
     snd (Layout.getLookupTables empty_table gsub "cyrl" "SRB " "liga" 4 true
            (font_with two_scripts))).
Proof.
  assert (Hsorted : table_strictly_sorted two_scripts).
  { split; [reflexivity|]. intros r Hr. apply list_elem_of_In in Hr.
    destruct Hr as [<-|[<-|[]]]; reflexivity. }
  assert (Hroomy : table_roomy two_scripts).
  { split; [vm_compute; reflexivity|]. intros r Hr. apply list_elem_of_In in Hr.
    destruct Hr as [<-|[<-|[]]]; vm_compute; reflexivity. }
  assert (HL : Layout.tables (font_with two_scripts) !! Layout.tableName gsub
               = Some two_scripts) by reflexivity.
  destruct (created_is_found_again empty_table gsub (font_with two_scripts)
              two_scripts HL Hsorted Hroomy) as (_ & _ & _ & Hlookups).
  apply (Hlookups "cyrl"%string "SRB "%string "liga"%string 4 [0]).
  vm_compute. reflexivity.
Defined.

(** ** With what is asked for in the table, [create] makes no difference *)

Section CreateOrNot.

Context {Subtable : Type} (createDefaultTable : Table Subtable) (this : Layout.t).

(** One step through a method run with and without [create]: the same
    test is decided the same way in both runs. *)
Local Ltac same_step H :=
  match type of H with
  | context [match ?x with _ => _ end] =>
    match goal with
    | |- context [match x with _ => _ end] =>
      destruct x eqn:?; try discriminate H; try exact H
    end
  end.

Lemma getTable_present (font font' : Layout.Font Subtable) (layout : Table Subtable) :
  Layout.getTable createDefaultTable this false font = (Ok (Some layout), font') ->
  Layout.getTable createDefaultTable this true font = (Ok (Some layout), font').
Proof.
  unfold Layout.getTable. intros H. repeat same_step H.
Qed.

Lemma getScriptTable_present (tg : string) (font font' : Layout.Font Subtable)
    (s : ScriptRef) :
  Layout.getScriptTable createDefaultTable this tg false font = (Ok (Some s), font') ->
  Layout.getScriptTable createDefaultTable this tg true font = (Ok (Some s), font').
Proof.
  unfold Layout.getScriptTable, mbind, Layout.M_bind. intros H.
  destruct (Layout.getTable createDefaultTable this false font)
    as [[[layout|]|e|] font1] eqn:E; try discriminate.
  rewrite (getTable_present _ _ _ E).
  unfold Layout.lift, Layout.deref in *. repeat same_step H.
Qed.

Lemma getLangSysTable_present (tg language : string)
    (font font' : Layout.Font Subtable) (l : LangSysRef) :
  Layout.getLangSysTable createDefaultTable this tg language false font
  = (Ok (Some l), font') ->
  Layout.getLangSysTable createDefaultTable this tg language true font
  = (Ok (Some l), font').
Proof.
  unfold Layout.getLangSysTable, mbind, Layout.M_bind. intros H.
  destruct (Layout.getScriptTable createDefaultTable this tg false font)
    as [[[s|]|e|] font1] eqn:E; try discriminate.
  rewrite (getScriptTable_present _ _ _ _ E).
  unfold Layout.lift, Layout.deref, Layout.the_table in *. repeat same_step H.
Qed.

Lemma getFeatureTable_present (tg language feature : string)
    (font font' : Layout.Font Subtable) (f : FeatureRef) :
  Layout.getFeatureTable createDefaultTable this tg language feature false font
  = (Ok (Some f), font') ->
  Layout.getFeatureTable createDefaultTable this tg language feature true font
  = (Ok (Some f), font').
Proof.
  unfold Layout.getFeatureTable, mbind, Layout.M_bind. intros H.
  destruct (Layout.getLangSysTable createDefaultTable this tg language false font)
    as [[[l|]|e|] font1] eqn:E; try discriminate.
  rewrite (getLangSysTable_present _ _ _ _ _ E).
  unfold Layout.lift, Layout.deref, Layout.the_table in *. repeat same_step H.
Qed.

Lemma getLookupTables_present (tg language feature : string) (type : Z)
    (font font' : Layout.Font Subtable) (tables : list LookupRef) :
  tables <> [] ->
  Layout.getLookupTables createDefaultTable this tg language feature type false font
  = (Ok tables, font') ->
  Layout.getLookupTables createDefaultTable this tg language feature type true font
  = (Ok tables, font').
Proof.
  unfold Layout.getLookupTables, mbind, Layout.M_bind. intros Hsome H.
  destruct (Layout.getFeatureTable createDefaultTable this tg language feature false
              font) as [[[f|]|e|] font1] eqn:E; try discriminate.
  2:{ injection H as <- _. contradiction. }
  rewrite (getFeatureTable_present _ _ _ _ _ _ E).
  unfold Layout.lift, Layout.deref, Layout.the_table in *.
  destruct (Layout.tables font1 !! Layout.tableName this) as [layout|];
    [|discriminate].
  destruct (Layout.feature_at layout f) as [ft|]; simpl in *; [|discriminate].
  destruct (Layout.collectLookups (lookups layout) (lookupListIndexes ft) type [])
    as [tables0|e|]; try discriminate.
  rewrite andb_false_r in H. simpl in H. injection H as -> <-.
  destruct (_ && true) eqn:Hboth; [|reflexivity].
  apply andb_true_iff in Hboth as [Hzero _]. apply Z.eqb_eq in Hzero.
  destruct tables; [contradiction | discriminate Hzero].
Qed.

End CreateOrNot.

(** X14: on every font, when a query without [create] finds what it is
    asked for (a script, a language system, a feature, or an array of lookups
    that is not empty), the same query with [create] returns the same and
    leaves the font as the query without [create] does: [create] acts only
    where something is missing. *)
Theorem create_acts_only_where_missing {Subtable : Type}
    (createDefaultTable : Table Subtable) (this : Layout.t)
    (font font' : Layout.Font Subtable) :
  (forall tg s,
      Layout.getScriptTable createDefaultTable this tg false font
      = (Ok (Some s), font') ->
      Layout.getScriptTable createDefaultTable this tg true font
      = (Ok (Some s), font'))
  /\ (forall tg language l,
        Layout.getLangSysTable createDefaultTable this tg language false font
        = (Ok (Some l), font') ->
        Layout.getLangSysTable createDefaultTable this tg language true font
        = (Ok (Some l), font'))
  /\ (forall tg language feature f,
        Layout.getFeatureTable createDefaultTable this tg language feature false font
        = (Ok (Some f), font') ->
        Layout.getFeatureTable createDefaultTable this tg language feature true font
        = (Ok (Some f), font'))
  /\ (forall tg language feature type tables,
        tables <> [] ->
        Layout.getLookupTables createDefaultTable this tg language feature type false
          font
        = (Ok tables, font') ->
        Layout.getLookupTables createDefaultTable this tg language feature type true
          font
        = (Ok tables, font')).
Proof.
  split; [|split; [|split]].
  - intros tg s. apply getScriptTable_present.
  - intros tg language l. apply getLangSysTable_present.
  - intros tg language feature f. apply getFeatureTable_present.
  - intros tg language feature type tables. apply getLookupTables_present.
Qed.

Lemma create_acts_only_where_missing_witness :
  Layout.getLookupTables empty_table gsub "DFLT" "dflt" "liga" 4 true
    (font_with one_feature)
  = (Ok [0], font_with one_feature).
Proof.
  apply (create_acts_only_where_missing empty_table gsub (font_with one_feature)
           (font_with one_feature)).
  - discriminate.
  - reflexivity.
Defined.

(** ** The script names and the scripts that are found *)

(** X15: on a table whose scripts are sorted ascending by tag (at most
    2^31 of them), [getScriptNames] returns the tags of the scripts in the
    order of the array, and [getScriptTable] without [create] finds exactly
    the scripts that are listed: for a tag among the names it returns a
    script with that tag, for any other tag it returns [undefined]; with
    [create] it returns a script in either case, after which the names are
    those of before and the tag, which stands at the index returned. *)
Theorem listed_scripts_are_found {Subtable : Type}
    (createDefaultTable : Table Subtable) (this : Layout.t)
    (font : Layout.Font Subtable) (layout : Table Subtable) (tg : string) :
  Layout.tables font !! Layout.tableName this = Some layout ->
  sorted_by_tag (scripts layout) ->
  fits (scripts layout) ->
  Layout.getScriptNames createDefaultTable this font
  = (Ok (tag <$> scripts layout), font)
  /\ (tg ∈ tag <$> scripts layout ->
      exists s r,
        Layout.getScriptTable createDefaultTable this tg false font
        = (Ok (Some s), font)
        /\ item (scripts layout) s = Some r /\ tag r = tg)
  /\ (tg ∉ tag <$> scripts layout ->
      Layout.getScriptTable createDefaultTable this tg false font = (Ok None, font))
  /\ exists s font1 names1,
       Layout.getScriptTable createDefaultTable this tg true font
       = (Ok (Some s), font1)
       /\ Layout.getScriptNames createDefaultTable this font1 = (Ok names1, font1)
       /\ (forall x, x ∈ names1 <-> x = tg \/ x ∈ tag <$> scripts layout)
       /\ item names1 s = Some tg.
Proof.
  intros HL Hsorted Hfits.
  assert (Hnames : forall font0 layout0,
             Layout.tables font0 !! Layout.tableName this = Some layout0 ->
             Layout.getScriptNames createDefaultTable this font0
             = (Ok (tag <$> scripts layout0), font0)).
  { intros font0 layout0 HL0.
    unfold Layout.getScriptNames, mbind, Layout.M_bind, Layout.getTable.
    rewrite HL0. reflexivity. }
  destruct (searchTag_sorted (scripts layout) tg Hsorted Hfits)
    as (pos & Hpos & Hcase).
  assert (Hmiss : forall m, splits String.ltb (tag <$> scripts layout) tg m ->
                            tg ∉ tag <$> scripts layout).
  { intros m (Hm & Hlo & Hhi) Hin.
    apply list_elem_of_lookup_1 in Hin as [j Hj].
    rewrite <- item_nat in Hj.
    destruct (Z.lt_ge_cases (Z.of_nat j) m) as [Hlt|Hge].
    - pose proof (Hlo _ _ Hlt Hj) as Hbelow.
      rewrite (str_ltb_irrefl tg) in Hbelow. discriminate.
    - pose proof (Hhi _ _ Hge Hj) as Habove.
      rewrite (str_ltb_irrefl tg) in Habove. discriminate. }
  split; [apply Hnames, HL|].
  unfold Layout.getScriptTable, mbind, Layout.M_bind, Layout.getTable.
  rewrite HL. unfold Layout.lift. rewrite Hpos.
  destruct Hcase as [(Hin & r & Hr & Htag) | (Hneg & Hsp)].
  - destruct (Z.geb_spec pos 0); [|lia]. rewrite Hr. simpl.
    split; [intros _; exists pos, r; auto|].
    split.
    + intros Hout. exfalso. apply Hout.
      rewrite <- Htag. apply list_elem_of_fmap_2. eapply item_elem_of, Hr.
    + exists pos, font, (tag <$> scripts layout).
      split; [reflexivity|]. split; [apply Hnames, HL|]. split.
      * intros x. split; [tauto|]. intros [->|Hx]; [|exact Hx].
        rewrite <- Htag. apply list_elem_of_fmap_2. eapply item_elem_of, Hr.
      * rewrite item_fmap, Hr. simpl. congruence.
  - destruct (Z.geb_spec pos 0); [lia|]. simpl.
    split; [intros Hin; exfalso; exact (Hmiss _ Hsp Hin)|].
    split; [reflexivity|].
    eexists _, _, _. split; [reflexivity|]. split.
    + apply Hnames. simpl. rewrite lookup_alter_eq, HL. reflexivity.
    + simpl. split.
      * intros x. rewrite !list_elem_of_fmap. split.
        -- intros (y & -> & Hy). apply elem_of_splice_insert in Hy as [->|Hy];
             [left; reflexivity | right; eauto].
        -- intros [->|(y & -> & Hy)].
           ++ eexists. split; [|apply elem_of_splice_insert; left; reflexivity].
              reflexivity.
           ++ exists y. split; [reflexivity|].
              apply elem_of_splice_insert. right. exact Hy.
      * rewrite item_fmap, item_splice_insert. reflexivity.
Qed.

Lemma listed_scripts_are_found_witness :
  Layout.getScriptTable empty_table gsub "cyrl" false (font_with two_scripts)
  = (Ok None, font_with two_scripts).
Proof.
  assert (HL : Layout.tables (font_with two_scripts) !! Layout.tableName gsub
               = Some two_scripts) by reflexivity.
  assert (Hsorted : sorted_by_tag (scripts two_scripts)) by reflexivity.
  assert (Hfits : fits (scripts two_scripts)) by (vm_compute; discriminate).
  apply (listed_scripts_are_found empty_table gsub (font_with two_scripts)
           two_scripts "cyrl" HL Hsorted Hfits).
  intros Hin. apply list_elem_of_In in Hin. simpl in Hin.
  destruct Hin as [Hin|[Hin|[]]]; discriminate Hin.
Defined.

(** ** The classification queries on tables in any order *)

(** When the loop leaves with a position that is not the first, the key
    before that position is below the key searched for, whatever the order
    of the keys. *)
Lemma bisect_miss_before {K} (eqb ltb : K -> K -> bool) (fuel : nat)
    (keys : list K) (k : K) :
  forall iMin iMax m,
    (iMin <= 0 \/ exists val, item keys (iMin - 1) = Some val /\ ltb val k = true) ->
    bisect eqb ltb fuel keys k iMin iMax = Ok (Miss m) ->
    m <= 0 \/ exists val, item keys (m - 1) = Some val /\ ltb val k = true.
Proof.
  induction fuel as [|fuel IH]; intros iMin iMax m Hinv; simpl; [discriminate|].
  destruct (iMin <=? iMax); [|intros [= <-]; exact Hinv].
  destruct (item keys (ushr1 (iMin + iMax))) as [val|] eqn:Hval; [|discriminate].
  destruct (eqb val k); [discriminate|].
  destruct (ltb val k) eqn:Hlt; apply IH.
  - right. exists val. split; [|exact Hlt].
    replace (ushr1 (iMin + iMax) + 1 - 1) with (ushr1 (iMin + iMax)) by lia.
    exact Hval.
  - exact Hinv.
Qed.

(** A range that [searchRange] returns is a range of the array that
    contains the value, whatever the order of the ranges, as long as no range
    ends before it starts. *)
Lemma searchRange_sound {R : Type} `{Ranged R} (ranges : list R) (value : Z) (r : R) :
  fits ranges ->
  (forall r', r' ∈ ranges -> start r' <= end_ r') ->
  searchRange ranges value = Ok (Range r) ->
  r ∈ ranges /\ contains r value.
Proof.
  intros Hfits Hne.
  assert (Hfits' : fits (start <$> ranges)).
  { unfold fits in *. rewrite len_fmap. exact Hfits. }
  destruct (bisect_total Z.eqb Z.ltb (S (length ranges)) (start <$> ranges) value
              Hfits' 0 (len ranges - 1)) as [p Hp];
    [lia | rewrite len_fmap; lia | unfold len; lia | unfold len; lia |].
  unfold searchRange.
  pose proof (searchRange_loop_bisect _ _ _ _ _ _ Hp) as Hloop.
  destruct p as [i|m].
  - destruct Hloop as (r0 & Hr0 & Hstart & ->). simpl. intros [= <-].
    apply item_elem_of in Hr0. split; [exact Hr0|].
    specialize (Hne r0 Hr0). unfold contains. lia.
  - rewrite Hloop. simpl.
    apply bisect_miss_before in Hp; [|left; lia].
    destruct (Z.gtb_spec m 0) as [Hpos|_]; [|discriminate].
    destruct Hp as [Hle|(val & Hval & Hlt)]; [lia|].
    rewrite item_fmap in Hval.
    destruct (item ranges (m - 1)) as [r0|] eqn:Hr0; simpl in Hval; [|discriminate].
    injection Hval as <-. apply Z.ltb_lt in Hlt.
    destruct (Z.gtb_spec value (end_ r0)) as [|Hin]; [discriminate|].
    intros [= <-]. split; [eapply item_elem_of, Hr0|]. unfold contains. lia.
Qed.

(** X16: the classification queries give no false positive on a table
    in any order. For every Coverage table (at most 2^31 glyphs and ranges,
    no range ending before it starts), sorted or not, [getCoverageIndex]
    returns; in format 1 the result is -1 or an index at which the glyph
    array holds the glyph; in format 2 it is -1 or
    [range.index + glyph - range.start] for a range of the table that contains
    the glyph. For every ClassDef table of format 2 under the same
    conditions, [getGlyphClass] returns 0 or the class of a range of the table
    that contains the glyph. *)
Theorem classification_is_sound_in_any_order :
  (forall (coverageTable : Coverage.t) (glyphIndex : Z),
      fits (Coverage.glyphs coverageTable) ->
      fits (Coverage.ranges coverageTable) ->
      (forall r, r ∈ Coverage.ranges coverageTable -> start r <= end_ r) ->
      exists result,
        getCoverageIndex coverageTable glyphIndex = Ok result
        /\ (Coverage.format coverageTable = 1 ->
            result = Some (-1)
            \/ exists i, result = Some i /\ 0 <= i
                         /\ item (Coverage.glyphs coverageTable) i = Some glyphIndex)
        /\ (Coverage.format coverageTable = 2 ->
            result = Some (-1)
            \/ exists r, r ∈ Coverage.ranges coverageTable
                         /\ contains r glyphIndex
                         /\ result = Some (Coverage.index r + glyphIndex - start r)))
  /\ (forall (classDefTable : ClassDef.t) (glyphIndex : Z),
        fits (ClassDef.ranges classDefTable) ->
        (forall r, r ∈ ClassDef.ranges classDefTable -> start r <= end_ r) ->
        ClassDef.format classDefTable = 2 ->
        exists class,
          getGlyphClass classDefTable glyphIndex = Ok (Some class)
          /\ (class = 0
              \/ exists r, r ∈ ClassDef.ranges classDefTable
                           /\ contains r glyphIndex
                           /\ class = ClassDef.classId r)).
Proof.
  split.
  - intros coverageTable glyphIndex Hg Hr Hne. unfold getCoverageIndex.
    destruct (Z.eqb_spec (Coverage.format coverageTable) 1) as [H1|H1].
    { destruct (binSearch_any_order (Coverage.glyphs coverageTable) glyphIndex Hg)
        as (pos & -> & Hcase). simpl.
      eexists. split; [reflexivity|]. split; [|intros H2; congruence].
      intros _. destruct Hcase as [[Hpos Hitem] | [Hneg _]].
      - destruct (Z.geb_spec pos 0); [|lia]. right. exists pos. auto.
      - destruct (Z.geb_spec pos 0); [lia|]. left. reflexivity. }
    destruct (Z.eqb_spec (Coverage.format coverageTable) 2) as [H2|H2].
    2:{ eexists. split; [reflexivity|]. split; intros; contradiction. }
    destruct (searchRange_any_order (Coverage.ranges coverageTable) glyphIndex Hr)
      as [out Hout].
    rewrite Hout. simpl.
    destruct out as [r| |]; (eexists; split; [reflexivity|]);
      (split; [intros; contradiction|]); intros _; try (left; reflexivity).
    right. exists r.
    destruct (searchRange_sound _ _ _ Hr Hne Hout) as [Hin Hc]. auto.
  - intros classDefTable glyphIndex Hr Hne H2. unfold getGlyphClass. rewrite H2.
    simpl.
    destruct (searchRange_any_order (ClassDef.ranges classDefTable) glyphIndex Hr)
      as [out Hout].
    rewrite Hout. simpl.
    destruct out as [r| |]; (eexists; split; [reflexivity|]);
      try (left; reflexivity).
    right. exists r.
    destruct (searchRange_sound _ _ _ Hr Hne Hout) as [Hin Hc]. auto.
Qed.

Lemma classification_is_sound_in_any_order_witness :
  exists result,
    getCoverageIndex
      {| Coverage.format := 1; Coverage.glyphs := [9; 2; 7]; Coverage.ranges := [] |} 7
    = Ok result
    /\ (result = Some (-1)
        \/ exists i, result = Some i /\ 0 <= i /\ item [9; 2; 7] i = Some 7).
Proof.
  destruct (proj1 classification_is_sound_in_any_order
              {| Coverage.format := 1; Coverage.glyphs := [9; 2; 7];
                 Coverage.ranges := [] |} 7) as (result & Hresult & H1 & _).
  - vm_compute. discriminate.
  - vm_compute. discriminate.
  - intros r Hr. apply elem_of_nil in Hr. contradiction.
  - exists result. split; [exact Hresult | apply H1; reflexivity].
Defined.

(** ** A font without the table *)

(** X17: on a font that has no table under the name of the Layout
    object, no query without [create] throws or changes the font: [getTable]
    and [getDefaultScriptName] return [undefined], [getScriptNames] returns
    the empty array, [getScriptTable], [getLangSysTable] and
    [getFeatureTable] return [undefined] and [getLookupTables] returns the
    empty array, for every script, language, feature and type;
    [getTable(true)] stores what [createDefaultTable] gives under the name
    and returns it. *)
Theorem queries_on_a_font_without_the_table {Subtable : Type}
    (createDefaultTable : Table Subtable) (this : Layout.t)
    (font : Layout.Font Subtable) :
  Layout.tables font !! Layout.tableName this = None ->
  Layout.getTable createDefaultTable this false font = (Ok None, font)
  /\ Layout.getTable createDefaultTable this true font
     = (Ok (Some createDefaultTable),
        {| Layout.tables :=
             <[Layout.tableName this := createDefaultTable]> (Layout.tables font) |})
  /\ Layout.getScriptNames createDefaultTable this font = (Ok [], font)
  /\ Layout.getDefaultScriptName createDefaultTable this font = (Ok None, font)
  /\ forall (tg language feature : string) (type : Z),
       Layout.getScriptTable createDefaultTable this tg false font = (Ok None, font)
       /\ Layout.getLangSysTable createDefaultTable this tg language false font
          = (Ok None, font)
       /\ Layout.getFeatureTable createDefaultTable this tg language feature false font
          = (Ok None, font)
       /\ Layout.getLookupTables createDefaultTable this tg language feature type false
            font
          = (Ok [], font).
Proof.
  intros Hnone.
  assert (Hget : Layout.getTable createDefaultTable this false font = (Ok None, font)).
  { unfold Layout.getTable. rewrite Hnone. reflexivity. }
  split; [exact Hget|].
  split; [unfold Layout.getTable; rewrite Hnone; reflexivity|].
  split; [unfold Layout.getScriptNames, mbind, Layout.M_bind; rewrite Hget;
          reflexivity|].
  split; [unfold Layout.getDefaultScriptName, mbind, Layout.M_bind; rewrite Hget;
          reflexivity|].
  intros tg language feature type.
  assert (Hscript : Layout.getScriptTable createDefaultTable this tg false font
                    = (Ok None, font)).
  { unfold Layout.getScriptTable, mbind, Layout.M_bind. rewrite Hget. reflexivity. }
  assert (Hlang : Layout.getLangSysTable createDefaultTable this tg language false font
                  = (Ok None, font)).
  { unfold Layout.getLangSysTable, mbind, Layout.M_bind. rewrite Hscript.
    reflexivity. }
  assert (Hfeature : Layout.getFeatureTable createDefaultTable this tg language
                       feature false font = (Ok None, font)).
  { unfold Layout.getFeatureTable, mbind, Layout.M_bind. rewrite Hlang. reflexivity. }
  split; [exact Hscript|]. split; [exact Hlang|]. split; [exact Hfeature|].
  unfold Layout.getLookupTables, mbind, Layout.M_bind. rewrite Hfeature. reflexivity.
Qed.

Lemma queries_on_a_font_without_the_table_witness :
  Layout.getLookupTables empty_table {| Layout.tableName := "GPOS" |}
    "latn" "dflt" "kern" 2 false (font_with two_scripts)
  = (Ok [], font_with two_scripts).
Proof.
  apply (queries_on_a_font_without_the_table empty_table
           {| Layout.tableName := "GPOS" |} (font_with two_scripts)).
  reflexivity.
Defined.

(** ** What is returned is what was asked for *)

Lemma ushr1_nonneg (n : Z) : 0 <= ushr1 n.
Proof.
  unfold ushr1. apply Z.shiftr_nonneg. apply Z.mod_pos_bound. lia.
Qed.

Lemma bisect_miss_nonneg {K} (eqb ltb : K -> K -> bool) (fuel : nat)
    (keys : list K) (k : K) :
  forall iMin iMax m,
    0 <= iMin -> bisect eqb ltb fuel keys k iMin iMax = Ok (Miss m) -> 0 <= m.
Proof.
  induction fuel as [|fuel IH]; intros iMin iMax m Hmin; simpl; [discriminate|].
  destruct (iMin <=? iMax); [|intros [= <-]; exact Hmin].
  destruct (item keys (ushr1 (iMin + iMax))) as [val|]; [|discriminate].
  destruct (eqb val k); [discriminate|].
  destruct (ltb val k); apply IH; [|exact Hmin].
  pose proof (ushr1_nonneg (iMin + iMax)). lia.
Qed.

(** An index that [searchTag] returns is the index of a record with the
    tag, whatever the array. *)
Lemma searchTag_hit {R : Type} `{Tagged R} (arr : list R) (tg : string) (pos : Z) :
  searchTag arr tg = Ok pos -> 0 <= pos ->
  exists r, item arr pos = Some r /\ tag r = tg.
Proof.
  unfold searchTag. rewrite searchTag_loop_bisect.
  destruct (bisect String.eqb String.ltb (S (length arr)) (tag <$> arr) tg 0
              (len arr - 1)) as [[i|m]|e|] eqn:Hb; try discriminate.
  - intros [= <-] _.
    destruct (bisect_hit_sound _ _ _ _ _ _ _ _ Hb) as (val & Hval & E).
    apply String.eqb_eq in E. subst val. rewrite item_fmap in Hval.
    destruct (item arr i) as [r|]; simpl in Hval; [|discriminate].
    exists r. split; [reflexivity | congruence].
  - intros [= <-] Hpos. apply bisect_miss_nonneg in Hb; lia.
Qed.

Section Asked.

Context {Subtable : Type} (createDefaultTable : Table Subtable) (this : Layout.t).

Lemma getScriptTable_tag (tg : string) (create : bool)
    (font font1 : Layout.Font Subtable) (s : ScriptRef) :
  Layout.getScriptTable createDefaultTable this tg create font = (Ok (Some s), font1) ->
  exists layout1 r,
    Layout.tables font1 !! Layout.tableName this = Some layout1
    /\ item (scripts layout1) s = Some r /\ tag r = tg.
Proof.
  unfold Layout.getScriptTable, mbind, Layout.M_bind.
  destruct (Layout.getTable createDefaultTable this create font)
    as [[[layout|]|e|] font0] eqn:Hgt; try discriminate.
  apply getTable_some in Hgt. unfold Layout.lift.
  destruct (searchTag (scripts layout) tg) as [pos| |] eqn:Hpos; try discriminate.
  destruct (Z.geb_spec pos 0) as [Hge|Hlt].
  - destruct (item (scripts layout) pos) as [r|] eqn:Hr; simpl; [|discriminate].
    intros [= <- <-]. exists layout, r. split; [exact Hgt|]. split; [exact Hr|].
    destruct (searchTag_hit _ _ _ Hpos Hge) as (r' & Hr' & Htag). congruence.
  - destruct create; simpl; [|discriminate].
    intros [= <- <-]. eexists _, _. simpl. rewrite lookup_alter_eq, Hgt. simpl.
    split; [reflexivity|]. split; [apply item_splice_insert | reflexivity].
Qed.

Lemma getLangSysTable_named (tg language : string) (create : bool)
    (font font1 : Layout.Font Subtable) (l : LangSysRef) :
  Layout.getLangSysTable createDefaultTable this tg language create font
  = (Ok (Some l), font1) ->
  exists layout1,
    Layout.tables font1 !! Layout.tableName this = Some layout1
    /\ langSys_named layout1 tg language l.
Proof.
  unfold Layout.getLangSysTable, mbind, Layout.M_bind.
  destruct (Layout.getScriptTable createDefaultTable this tg create font)
    as [[[s|]|e|] font0] eqn:E; try discriminate.
  apply getScriptTable_tag in E as (layout0 & r & HL0 & Hr & Htag).
  destruct (String.eqb language "dflt" || String.eqb language "DFLT") eqn:Hd.
  - intros [= <- <-]. exists layout0. split; [exact HL0|].
    exists s, r. split; [exact Hr|]. split; [exact Htag|]. left. auto.
  - unfold Layout.the_table. rewrite HL0. unfold Layout.script_at. rewrite Hr. simpl.
    unfold Layout.lift.
    destruct (searchTag (langSysRecords (script r)) language) as [pos| |] eqn:Hpos;
      try discriminate.
    destruct (Z.geb_spec pos 0) as [Hge|Hlt].
    + destruct (item (langSysRecords (script r)) pos) as [record|] eqn:Hrec; simpl;
        [|discriminate].
      intros [= <- <-]. exists layout0. split; [exact HL0|].
      exists s, r. split; [exact Hr|]. split; [exact Htag|].
      right. split; [exact Hd|]. exists pos, record.
      split; [reflexivity|]. split; [exact Hrec|].
      destruct (searchTag_hit _ _ _ Hpos Hge) as (r' & Hr' & Htag'). congruence.
    + destruct create; simpl; [|discriminate].
      intros [= <- <-]. eexists.
      split; [simpl; rewrite lookup_alter_eq, HL0; reflexivity|].
      eexists s, _. split; [simpl; rewrite item_alter_at, Hr; reflexivity|].
      split; [exact Htag|]. right. split; [exact Hd|].
      eexists _, _. split; [reflexivity|].
      split; [simpl; apply item_splice_insert | reflexivity].
Qed.

Lemma getFeatureTable_tag (tg language feature : string) (create : bool)
    (font font1 : Layout.Font Subtable) (f : FeatureRef) :
  Layout.getFeatureTable createDefaultTable this tg language feature create font
  = (Ok (Some f), font1) ->
  exists layout1 l ls fr,
    Layout.tables font1 !! Layout.tableName this = Some layout1
    /\ langSys_named layout1 tg language l
    /\ Layout.langSys_at layout1 l = Some ls
    /\ f ∈ featureIndexes ls
    /\ item (features layout1) f = Some fr
    /\ tag fr = feature.
Proof.
  unfold Layout.getFeatureTable, mbind, Layout.M_bind.
  destruct (Layout.getLangSysTable createDefaultTable this tg language create font)
    as [[[l|]|e|] font0] eqn:E; try discriminate.
  apply getLangSysTable_named in E as (layout0 & HL0 & Hnamed).
  unfold Layout.the_table. rewrite HL0.
  destruct (Layout.langSys_at layout0 l) as [ls|] eqn:Hls; simpl; [|discriminate].
  unfold Layout.lift.
  destruct (Layout.findFeature (features layout0) (featureIndexes ls) feature)
    as [[i|]| |] eqn:Hfind; try discriminate.
  - intros [= <- <-]. apply findFeature_valid in Hfind as (r & Hr & Htag & Hin).
    exists layout0, l, ls, r. auto 7.
  - destruct create; [|discriminate].
    destruct (Layout.alphabetical (features layout0) feature) as [[|]| |];
      try discriminate.
    simpl. intros [= <- <-]. eexists _, l, _, _.
    split; [simpl; rewrite !lookup_alter_eq, HL0; reflexivity|].
    split; [apply (names_skeleton layout0);
            [rewrite at_langSys_skeleton; reflexivity | exact Hnamed]|].
    split; [apply langSys_at_at_langSys; exact Hls|].
    split; [simpl; apply elem_of_push; right; reflexivity|].
    rewrite features_at_langSys. simpl. split; [apply item_push | reflexivity].
Qed.

End Asked.

(** X18: what the methods return is what was asked for, on every font
    and with or without [create]: the script that [getScriptTable] returns is
    a script of the table, as the call leaves it, with the tag asked for; the
    language system that [getLangSysTable] returns is the default language
    system of a script with that tag when the language is ['dflt'] or
    ['DFLT'], and otherwise the language system of a record of such a script
    that has the language tag; the feature that [getFeatureTable] returns has
    the feature tag asked for and its index is among the feature indexes of
    that language system. *)
Theorem results_are_what_was_asked_for {Subtable : Type}
    (createDefaultTable : Table Subtable) (this : Layout.t) (create : bool)
    (font : Layout.Font Subtable) :
  (forall tg s font1,
      Layout.getScriptTable createDefaultTable this tg create font
      = (Ok (Some s), font1) ->
      exists layout1 r,
        Layout.tables font1 !! Layout.tableName this = Some layout1
        /\ item (scripts layout1) s = Some r /\ tag r = tg)
  /\ (forall tg language l font1,
        Layout.getLangSysTable createDefaultTable this tg language create font
        = (Ok (Some l), font1) ->
        exists layout1,
          Layout.tables font1 !! Layout.tableName this = Some layout1
          /\ langSys_named layout1 tg language l)
  /\ (forall tg language feature f font1,
        Layout.getFeatureTable createDefaultTable this tg language feature create font
        = (Ok (Some f), font1) ->
        exists layout1 l ls fr,
          Layout.tables font1 !! Layout.tableName this = Some layout1
          /\ langSys_named layout1 tg language l
          /\ Layout.langSys_at layout1 l = Some ls
          /\ f ∈ featureIndexes ls
          /\ item (features layout1) f = Some fr
          /\ tag fr = feature).
Proof.
  split; [|split].
  - intros tg s font1. apply getScriptTable_tag.
  - intros tg language l font1. apply getLangSysTable_named.
  - intros tg language feature f font1. apply getFeatureTable_tag.
Qed.

Lemma results_are_what_was_asked_for_witness :
  exists layout1 l ls fr,
    Layout.tables (font_with one_feature) !! Layout.tableName gsub = Some layout1
    /\ langSys_named layout1 "DFLT" "dflt" l
    /\ Layout.langSys_at layout1 l = Some ls
    /\ 0 ∈ featureIndexes ls
    /\ item (features layout1) 0 = Some fr
    /\ tag fr = "liga"%string.
Proof.
  apply (results_are_what_was_asked_for empty_table gsub false (font_with one_feature)).
  reflexivity.
Defined.

(** ** getLookupTables: an array, or an exception *)

(** The scans read the features and the lookups by index; the only
    exception they throw is the TypeError of a read on [undefined]. *)
Lemma findFeature_throws (allFeatures : list FeatureRecord) (featIndexes : list Z)
    (feature : string) (e : exn) :
  Layout.findFeature allFeatures featIndexes feature = Throw e -> e = TypeError.
Proof.
  induction featIndexes as [|i rest IH]; simpl; [discriminate|].
  destruct (item allFeatures i) as [fr|]; [|intros [= <-]; reflexivity].
  destruct (String.eqb (tag fr) feature); [discriminate | exact IH].
Qed.

Lemma collectLookups_throws {Subtable} (allLookups : list (Lookup Subtable))
    (lookupListIndexes : list Z) (type : Z) (tables : list LookupRef) (e : exn) :
  Layout.collectLookups allLookups lookupListIndexes type tables = Throw e ->
  e = TypeError.
Proof.
  revert tables. induction lookupListIndexes as [|i rest IH]; intros tables; simpl;
    [discriminate|].
  destruct (item allLookups i); [apply IH | intros [= <-]; reflexivity].
Qed.

(** A lookup index that is not an index of the lookup array makes the
    scan throw. *)
Lemma collectLookups_dangling {Subtable} (allLookups : list (Lookup Subtable))
    (lookupListIndexes : list Z) (type : Z) (tables : list LookupRef) :
  (exists i, i ∈ lookupListIndexes /\ item allLookups i = None) ->
  Layout.collectLookups allLookups lookupListIndexes type tables = Throw TypeError.
Proof.
  revert tables. induction lookupListIndexes as [|i rest IH];
    intros tables (j & Hj & Hnone); simpl.
  - apply elem_of_nil in Hj. contradiction.
  - destruct (item allLookups i) as [lk|] eqn:Hi; [|reflexivity].
    apply IH. exists j. split; [|exact Hnone].
    apply elem_of_cons in Hj as [->|Hj]; [congruence | exact Hj].
Qed.

Section ArrayOrException.

Context {Subtable : Type} (createDefaultTable : Table Subtable) (this : Layout.t).

Local Abbreviation name := (Layout.tableName this).

(** The methods start from the table that [getTable] gives, the one
    that was there or the one it has just stored. *)
Lemma getTable_again (create : bool) (font font0 : Layout.Font Subtable)
    (layout : Table Subtable) :
  Layout.getTable createDefaultTable this create font = (Ok (Some layout), font0) ->
  Layout.getTable createDefaultTable this create font0 = (Ok (Some layout), font0).
Proof.
  intros Hget. apply getTable_some in Hget.
  unfold Layout.getTable. rewrite Hget. reflexivity.
Qed.

Lemma getLookupTables_after_getTable (tg language feature : string) (type : Z)
    (create : bool) (font font0 : Layout.Font Subtable) (layout : Table Subtable) :
  Layout.getTable createDefaultTable this create font = (Ok (Some layout), font0) ->
  Layout.getLookupTables createDefaultTable this tg language feature type create font
  = Layout.getLookupTables createDefaultTable this tg language feature type create
      font0.
Proof.
  intros Hget. pose proof (getTable_again _ _ _ _ Hget) as Hagain.
  unfold Layout.getLookupTables, Layout.getFeatureTable, Layout.getLangSysTable,
    Layout.getScriptTable, mbind, Layout.M_bind.
  rewrite Hget, Hagain. reflexivity.
Qed.

Lemma getFeatureTable_outcome (font : Layout.Font Subtable) (layout : Table Subtable)
    (tg language feature : string) (create : bool) :
  Layout.tables font !! name = Some layout ->
  table_fits layout ->
  exists res font',
    Layout.getFeatureTable createDefaultTable this tg language feature create font
    = (res, font')
    /\ ((exists r, res = Ok r)
        \/ (res = Throw (Error "Features must be added in alphabetical order.")
            /\ create = true)
        \/ res = Throw TypeError).
Proof.
  intros HL Hfits.
  destruct (getLangSysTable_returns createDefaultTable this font layout tg language
              create HL Hfits) as (r1 & font1 & E1).
  unfold Layout.getFeatureTable, mbind, Layout.M_bind. rewrite E1.
  destruct r1 as [l|]; [|eexists _, _; split; [reflexivity|]; left; eauto].
  destruct (getLangSysTable_valid _ _ _ _ _ _ _ _ E1) as (layout1 & ls & HL1 & Hls).
  unfold Layout.the_table. rewrite HL1, Hls. simpl. unfold Layout.lift.
  destruct (Layout.findFeature (features layout1) (featureIndexes ls) feature)
    as [[i|]|e|] eqn:Hfound.
  - eexists _, _. split; [reflexivity|]. left. eauto.
  - destruct create; [|eexists _, _; split; [reflexivity|]; left; eauto].
    destruct (Layout.alphabetical (features layout1) feature) as [[|]|e|] eqn:Hal.
    + simpl. eexists _, _. split; [reflexivity|]. left. eauto.
    + simpl. eexists _, _. split; [reflexivity|]. right. left. split; reflexivity.
    + exfalso. eapply alphabetical_index, Hal.
    + exfalso. eapply alphabetical_fuel, Hal.
  - apply findFeature_throws in Hfound as ->.
    eexists _, _. split; [reflexivity|]. right. right. reflexivity.
  - exfalso. eapply findFeature_fuel, Hfound.
Qed.

Lemma getLookupTables_outcome (font : Layout.Font Subtable) (layout : Table Subtable)
    (tg language feature : string) (type : Z) (create : bool) :
  Layout.tables font !! name = Some layout ->
  table_fits layout ->
  exists res font',
    Layout.getLookupTables createDefaultTable this tg language feature type create
      font = (res, font')
    /\ ((exists tables, res = Ok tables)
        \/ (res = Throw (Error "Features must be added in alphabetical order.")
            /\ create = true)
        \/ res = Throw TypeError).
Proof.
  intros HL Hfits.
  destruct (getFeatureTable_outcome font layout tg language feature create HL Hfits)
    as (res1 & font1 & E1 & Hres1).
  unfold Layout.getLookupTables, mbind, Layout.M_bind. rewrite E1.
  destruct Hres1 as [[r1 ->] | [[-> Hcreate] | ->]].
  2:{ eexists _, _. split; [reflexivity|]. right. left. split; [reflexivity|].
      exact Hcreate. }
  2:{ eexists _, _. split; [reflexivity|]. right. right. reflexivity. }
  destruct r1 as [f|]; [|eexists _, _; split; [reflexivity|]; left; eauto].
  destruct (getFeatureTable_valid _ _ _ _ _ _ _ _ _ E1)
    as (layout1 & ft & HL1 & Hft).
  unfold Layout.the_table. rewrite HL1, Hft. simpl. unfold Layout.lift.
  destruct (Layout.collectLookups (lookups layout1) (lookupListIndexes ft) type [])
    as [tables|e|] eqn:Hcol.
  - destruct (_ && create); simpl; eexists _, _; (split; [reflexivity|]); left; eauto.
  - apply collectLookups_throws in Hcol as ->.
    eexists _, _. split; [reflexivity|]. right. right. reflexivity.
  - exfalso. eapply collectLookups_fuel, Hcol.
Qed.

End ArrayOrException.

(** C9, as the code has it: what [getLookupTables] returns is always an
    array, never an absent result, but the call does not always return.
    On the table that [getTable] gives (at most 2^31 scripts and language
    systems per array) the call returns an array, or, with [create] set,
    throws 'Features must be added in alphabetical order.', or, on a table
    with an index that dangles, throws a TypeError. What [getFeatureTable]
    throws, [getLookupTables] throws. The array is empty when the script,
    language or feature is not resolved, or when the feature exists and
    refers to no lookup of the type asked for (and [create] is not set); it
    holds the lookups of that type, in the order referred to, when there are
    some; and, when [create] is set and there is none, it is the one-element
    array of the lookup
    [{lookupType, lookupFlag: 0, subtables: [], markFilteringSet: undefined}]
    that the call appends to the lookup array and to the lookup indexes of
    the feature. A lookup index of the feature that is not an index of the
    lookup array makes the call throw a TypeError. *)
Theorem getLookupTables_array_or_exception {Subtable : Type}
    (createDefaultTable : Table Subtable) (this : Layout.t)
    (tg language feature : string) (type : Z) (create : bool)
    (font : Layout.Font Subtable) :
  (forall layout font0,
      Layout.getTable createDefaultTable this create font = (Ok (Some layout), font0) ->
      table_fits layout ->
      exists res font',
        Layout.getLookupTables createDefaultTable this tg language feature type create
          font = (res, font')
        /\ ((exists tables, res = Ok tables)
            \/ (res = Throw (Error "Features must be added in alphabetical order.")
                /\ create = true)
            \/ (res = Throw TypeError /\ well_indexed layout = false)))
  /\ (forall e font1,
        Layout.getFeatureTable createDefaultTable this tg language feature create font
        = (Throw e, font1) ->
        Layout.getLookupTables createDefaultTable this tg language feature type create
          font = (Throw e, font1))
  /\ (forall font1,
        Layout.getFeatureTable createDefaultTable this tg language feature create font
        = (Ok None, font1) ->
        Layout.getLookupTables createDefaultTable this tg language feature type create
          font = (Ok [], font1))
  /\ (forall font1,
        Layout.getLangSysTable createDefaultTable this tg language create font
        = (Ok None, font1) ->
        Layout.getLookupTables createDefaultTable this tg language feature type create
          font = (Ok [], font1))
  /\ (forall font1,
        Layout.getScriptTable createDefaultTable this tg create font
        = (Ok None, font1) ->
        Layout.getLookupTables createDefaultTable this tg language feature type create
          font = (Ok [], font1))
  /\ (forall font1,
        create = true ->
        Layout.getFeatureTable createDefaultTable this tg language feature create font
        <> (Ok None, font1))
  /\ (Layout.tables font !! Layout.tableName this = None ->
      Layout.getLookupTables createDefaultTable this tg language feature type false
        font = (Ok [], font))
  /\ (forall (f : FeatureRef) font1,
        Layout.getFeatureTable createDefaultTable this tg language feature create font
        = (Ok (Some f), font1) ->
        exists (layout1 : Table Subtable) (featureTable : Feature),
          Layout.tables font1 !! Layout.tableName this = Some layout1
          /\ Layout.feature_at layout1 f = Some featureTable
          /\ ((exists i, i ∈ lookupListIndexes featureTable
                         /\ item (lookups layout1) i = None) ->
              Layout.getLookupTables createDefaultTable this tg language feature type
                create font = (Throw TypeError, font1))
          /\ ((forall i, i ∈ lookupListIndexes featureTable ->
                 is_Some (item (lookups layout1) i)) ->
              let found := List.filter (of_type (lookups layout1) type)
                             (lookupListIndexes featureTable) in
              ((found <> [] \/ create = false) ->
               Layout.getLookupTables createDefaultTable this tg language feature type
                 create font = (Ok found, font1))
              /\ (found = [] -> create = true ->
                  exists font2 layout2,
                    Layout.getLookupTables createDefaultTable this tg language feature
                      type create font = (Ok [len (lookups layout1)], font2)
                    /\ Layout.tables font2 !! Layout.tableName this = Some layout2
                    /\ lookups layout2
                       = lookups layout1
                         ++ [{| lookupType := type; lookupFlag := 0; subtables := [];
                                markFilteringSet := None |}]
                    /\ item (lookups layout2) (len (lookups layout1))
                       = Some {| lookupType := type; lookupFlag := 0; subtables := [];
                                 markFilteringSet := None |}
                    /\ Layout.feature_at layout2 f
                       = Some {| params := params featureTable;
                                 lookupListIndexes :=
                                   lookupListIndexes featureTable
                                   ++ [len (lookups layout1)] |}))).
Proof.
  split; [|split; [|split; [|split; [|split; [|split; [|split]]]]]].
  - intros layout font0 Hget Hfits.
    rewrite (getLookupTables_after_getTable createDefaultTable this tg language
               feature type create font font0 layout Hget).
    apply getTable_some in Hget.
    destruct (well_indexed layout) eqn:Hwell.
    + destruct (getLookupTables_returns createDefaultTable this font0 layout tg
                  language feature type create Hget Hfits Hwell)
        as (res & font' & Hcall & [[-> Hcreate] | [tables ->]]);
        eexists _, font'; (split; [exact Hcall|]).
      * right. left. split; [reflexivity | exact Hcreate].
      * left. exists tables. reflexivity.
    + destruct (getLookupTables_outcome createDefaultTable this font0 layout tg
                  language feature type create Hget Hfits)
        as (res & font' & Hcall & [[tables ->] | [[-> Hcreate] | ->]]);
        eexists _, font'; (split; [exact Hcall|]).
      * left. exists tables. reflexivity.
      * right. left. split; [reflexivity | exact Hcreate].
      * right. right. split; reflexivity.
  - intros e font1 Hget.
    unfold Layout.getLookupTables, mbind, Layout.M_bind. rewrite Hget. reflexivity.
  - intros font1 Hget.
    unfold Layout.getLookupTables, mbind, Layout.M_bind. rewrite Hget. reflexivity.
  - intros font1 Hget.
    unfold Layout.getLookupTables, Layout.getFeatureTable, mbind, Layout.M_bind.
    rewrite Hget. reflexivity.
  - intros font1 Hget.
    unfold Layout.getLookupTables, Layout.getFeatureTable, Layout.getLangSysTable,
      mbind, Layout.M_bind.
    rewrite Hget. reflexivity.
  - intros font1 ->. apply getFeatureTable_create_resolves.
  - intros Hnone.
    unfold Layout.getLookupTables, Layout.getFeatureTable, Layout.getLangSysTable,
      Layout.getScriptTable, mbind, Layout.M_bind, Layout.getTable.
    rewrite Hnone. reflexivity.
  - intros f font1 Hget.
    destruct (getFeatureTable_valid createDefaultTable this tg language feature create
                font font1 f Hget) as (layout1 & ft & HL1 & Hft).
    exists layout1, ft. split; [exact HL1|]. split; [exact Hft|].
    split.
    { intros Hdangling.
      unfold Layout.getLookupTables, mbind, Layout.M_bind. rewrite Hget.
      unfold Layout.the_table. rewrite HL1, Hft. simpl.
      unfold Layout.lift. rewrite (collectLookups_dangling _ _ _ _ Hdangling).
      reflexivity. }
    intros Hvalid found.
    unfold Layout.getLookupTables, mbind, Layout.M_bind. rewrite Hget.
    unfold Layout.the_table. rewrite HL1, Hft. simpl.
    unfold Layout.lift. rewrite (collectLookups_filter _ _ _ _ Hvalid). simpl.
    fold found. split.
    + intros Hsome.
      destruct ((len found =? 0) && create) eqn:E; [|reflexivity].
      apply andb_true_iff in E as [Hlen ->]. apply Z.eqb_eq in Hlen.
      destruct Hsome as [Hne|]; [|discriminate].
      destruct found; [contradiction | unfold len in Hlen; simpl in Hlen; lia].
    + intros Hnil ->. rewrite Hnil. simpl.
      eexists _, _. split; [reflexivity|]. simpl.
      rewrite !lookup_alter_eq, HL1. simpl. split; [reflexivity|].
      split; [reflexivity|]. split; [apply item_push|].
      unfold Layout.feature_at, Layout.at_feature. simpl.
      rewrite item_alter_at. unfold Layout.feature_at in Hft.
      destruct (item (features layout1) f) as [r|]; simpl in *; [|discriminate].
      injection Hft as <-. reflexivity.
Qed.

Lemma getLookupTables_array_or_exception_witness :
  Layout.getLookupTables empty_table gsub "DFLT" "dflt" "liga" 4 false
    (font_with one_feature) = (Ok [0], font_with one_feature)
  /\ Layout.getLookupTables empty_table gsub "DFLT" "dflt" "liga" 6 false
       (font_with one_feature) = (Ok [], font_with one_feature)
  /\ Layout.getLookupTables empty_table gsub "DFLT" "dflt" "kern" 4 false
       (font_with one_feature) = (Ok [], font_with one_feature)
  /\ (exists font2 layout2,
        Layout.getLookupTables empty_table gsub "DFLT" "dflt" "liga" 6 true
          (font_with one_feature) = (Ok [2], font2)
        /\ Layout.tables font2 !! "GSUB"%string = Some layout2
        /\ item (lookups layout2) 2
           = Some {| lookupType := 6; lookupFlag := 0; subtables := [];
                     markFilteringSet := None |})
  /\ exists res font',
       Layout.getLookupTables empty_table gsub "DFLT" "dflt" "aalt" 4 true
         (font_with one_feature) = (res, font')
       /\ ((exists tables, res = Ok tables)
           \/ (res = Throw (Error "Features must be added in alphabetical order.")
               /\ true = true)
           \/ (res = Throw TypeError /\ well_indexed one_feature = false)).
Proof.
  assert (Hvalid : forall i : Z, i ∈ [1; 0] -> is_Some (item (lookups one_feature) i)).
  { intros i Hi. apply list_elem_of_In in Hi. simpl in Hi.
    destruct Hi as [<-|[<-|[]]]; eexists; reflexivity. }
  assert (Hfits : table_fits one_feature).
  { split; [vm_compute; discriminate|].
    intros r Hr. apply list_elem_of_In in Hr.
    destruct Hr as [<-|[]]. vm_compute. discriminate. }
  split; [|split; [|split; [|split]]].
  - destruct (getLookupTables_array_or_exception empty_table gsub
                "DFLT" "dflt" "liga" 4 false (font_with one_feature))
      as (_ & _ & _ & _ & _ & _ & _ & Hsome).
    destruct (Hsome 0 (font_with one_feature) eq_refl)
      as (layout1 & ft & HL1 & Hft & _ & Hfound).
    injection HL1 as <-. injection Hft as <-.
    apply (proj1 (Hfound Hvalid)). right. reflexivity.
  - destruct (getLookupTables_array_or_exception empty_table gsub
                "DFLT" "dflt" "liga" 6 false (font_with one_feature))
      as (_ & _ & _ & _ & _ & _ & _ & Hsome).
    destruct (Hsome 0 (font_with one_feature) eq_refl)
      as (layout1 & ft & HL1 & Hft & _ & Hfound).
    injection HL1 as <-. injection Hft as <-.
    apply (proj1 (Hfound Hvalid)). right. reflexivity.
  - destruct (getLookupTables_array_or_exception empty_table gsub
                "DFLT" "dflt" "kern" 4 false (font_with one_feature))
      as (_ & _ & Hnone & _).
    apply Hnone. reflexivity.
  - destruct (getLookupTables_array_or_exception empty_table gsub
                "DFLT" "dflt" "liga" 6 true (font_with one_feature))
      as (_ & _ & _ & _ & _ & _ & _ & Hsome).
    destruct (Hsome 0 (font_with one_feature) eq_refl)
      as (layout1 & ft & HL1 & Hft & _ & Hfound).
    injection HL1 as <-. injection Hft as <-.
    destruct (proj2 (Hfound Hvalid) eq_refl eq_refl)
      as (font2 & layout2 & Hget & HL2 & _ & Hitem & _).
    exists font2, layout2. auto.
  - destruct (getLookupTables_array_or_exception empty_table gsub
                "DFLT" "dflt" "aalt" 4 true (font_with one_feature))
      as (Hreturns & _).
    apply (Hreturns one_feature (font_with one_feature)); [reflexivity | exact Hfits].
Defined.

(** The claim as the specification words it, that [getLookupTables]
    always returns an array, fails: on a table whose only feature is
    ['liga'], a call with [create] for the feature ['aalt'] has to add the
    feature after ['liga'], and throws. *)
Lemma getLookupTables_out_of_order_counterexample :
  ~ (forall (tg language feature : string) (type : Z) (create : bool)
            (font : Layout.Font unit),
        exists (tables : list LookupRef) (font' : Layout.Font unit),
          Layout.getLookupTables empty_table gsub tg language feature type create font
          = (Ok tables, font')).
Proof.
  intros Hclaim.
  destruct (Hclaim "DFLT"%string "dflt"%string "aalt"%string 4 true
              (font_with one_feature)) as (tables & font' & Hcall).
  vm_compute in Hcall. discriminate Hcall.
Qed.
